(** * GeoChat-AI: grounding extraction, viewport decision and session store

    A shallow embedding of the logic of [src/services/gemini.ts],
    [src/App.tsx] and the map component, with the properties stated by
    the specification. *)

From Stdlib Require Import String Ascii DecimalString.
From Stdlib Require Import ZArith NArith List Bool Lia Permutation.
From Stdlib Require Import Floats.SpecFloat.
Import ListNotations.

Set Implicit Arguments.
Set Warnings "-register-all".

(* ===================================================================== *)
(** ** JavaScript numbers: IEEE-754 binary64 *)
(* ===================================================================== *)

Module Num.

Definition prec : Z := 53.
Definition emax : Z := 1024.

(** A JS [number] is a binary64 value: zeros, infinities, one NaN and
    the finite values [(-1)^s * m * 2^e]. *)
Definition number : Type := spec_float.

Definition NaN : number := S754_nan.
Definition Infinity : number := S754_infinity false.

(** [Number.isNaN] / global [isNaN] on a value that already is a number. *)
Definition isNaN (x : number) : bool :=
  match x with S754_nan => true | _ => false end.

(** global [isFinite] on a value that already is a number. *)
Definition isFinite (x : number) : bool :=
  match x with
  | S754_nan | S754_infinity _ => false
  | S754_zero _ | S754_finite _ _ _ => true
  end.

Definition pow10 (k : nat) : positive := Nat.iter k (Pos.mul 10) 1%positive.

(** The number denoted by the decimal [(-1)^neg * m * 10^-k]: the nearest
    binary64 value, ties to even, as a numeric literal and [parseFloat]
    produce it.  The quotient of the two integers is rounded once. *)
Definition of_decimal (neg : bool) (m : N) (k : nat) : number :=
  match m with
  | N0 => S754_zero neg
  | Npos p =>
      SFdiv prec emax (S754_finite neg p 0) (S754_finite false (pow10 k) 0)
  end.

Definition of_Z (z : Z) : number := binary_normalize prec emax z 0 false.

Definition leb (x y : number) : bool := SFleb x y.

Definition is_neg_zero (x : number) : bool :=
  match x with S754_zero true => true | _ => false end.

(** [Math.min] / [Math.max] on two numbers: NaN is contagious and
    [-0] is below [+0]. *)
Definition min (x y : number) : number :=
  if isNaN x || isNaN y then NaN
  else if SFltb y x then y
  else if SFltb x y then x
  else if is_neg_zero y then y else x.

Definition max (x y : number) : number :=
  if isNaN x || isNaN y then NaN
  else if SFltb x y then y
  else if SFltb y x then x
  else if is_neg_zero x then y else x.

End Num.

Export Num.

(* ===================================================================== *)
(** ** JavaScript strings: sequences of UTF-16 code units *)
(* ===================================================================== *)

Module Str.

Definition char : Type := N.
Definition jsstring : Type := list char.

(** Embedding of an ASCII literal. *)
Fixpoint js (s : string) : jsstring :=
  match s with
  | EmptyString => []
  | String a s' => N_of_ascii a :: js s'
  end.

Definition str_eqb (a b : jsstring) : bool :=
  if list_eq_dec N.eq_dec a b then true else false.

(** [\d] of a non-unicode regular expression: the ten ASCII digits. *)
Definition is_digit (c : char) : bool := (48 <=? c)%N && (c <=? 57)%N.

(** WhiteSpace and LineTerminator code points: the set matched by [\s]
    and stripped by [String.prototype.trim]. *)
Definition is_space (c : char) : bool :=
  ((9 <=? c) && (c <=? 13) || (c =? 32) || (c =? 160) || (c =? 5760)
   || (8192 <=? c) && (c <=? 8202) || (c =? 8232) || (c =? 8233)
   || (c =? 8239) || (c =? 8287) || (c =? 12288) || (c =? 65279))%N.

Fixpoint drop_while (p : char -> bool) (s : jsstring) : jsstring :=
  match s with
  | c :: s' => if p c then drop_while p s' else s
  | [] => []
  end.

Fixpoint take_while (p : char -> bool) (s : jsstring) : jsstring :=
  match s with
  | c :: s' => if p c then c :: take_while p s' else []
  | [] => []
  end.

Definition trimStart (s : jsstring) : jsstring := drop_while is_space s.

Definition trimEnd (s : jsstring) : jsstring :=
  rev (drop_while is_space (rev s)).

(** [String.prototype.trim]. *)
Definition trim (s : jsstring) : jsstring := trimEnd (trimStart s).

Fixpoint starts_with (pat s : jsstring) : bool :=
  match pat, s with
  | [], _ => true
  | p :: pat', c :: s' => (p =? c)%N && starts_with pat' s'
  | _ :: _, [] => false
  end.

(** [s.replace(pat, repl)] with a string pattern and a replacement
    without [$] patterns: the first occurrence of [pat] is replaced. *)
Fixpoint replace (pat repl s : jsstring) : jsstring :=
  if starts_with pat s then repl ++ skipn (length pat) s
  else match s with
       | [] => []
       | c :: s' => c :: replace pat repl s'
       end.

(** [s.slice(0, n)] for [0 <= n]. *)
Definition slice0 (n : nat) (s : jsstring) : jsstring := firstn n s.

End Str.

Export Str.

(* ===================================================================== *)
(** ** Regular expressions: the backtracking fragment the sources use *)
(* ===================================================================== *)

Module Regex.

(** Quantifiers are greedy; [*] and [+] are only applied to
    single-character classes in the two patterns of the sources. *)
Inductive regex : Type :=
| REps
| RChar (c : char)
| RClass (p : char -> bool)
| RSeq (r1 r2 : regex)
| ROpt (r : regex)
| RStar (p : char -> bool)
| RPlus (p : char -> bool)
| RGroup (r : regex).

(** A literal string, one character after the other. *)
Fixpoint RLit (s : jsstring) : regex :=
  match s with
  | [] => REps
  | c :: s' => RSeq (RChar c) (RLit s')
  end.

Section Matcher.
Context {A : Type}.

(** Greedy iteration of a class with backtracking: the longest run is
    tried first, then shorter ones. *)
Fixpoint star (p : char -> bool) (s : jsstring)
         (k : jsstring -> option A) : option A :=
  match s with
  | c :: s' =>
      if p c then
        match star p s' k with
        | Some a => Some a
        | None => k s
        end
      else k s
  | [] => k []
  end.

(** [rmatch r s caps k]: match [r] at the head of [s], then continue
    with [k] on the rest; [caps] collects the capture groups closed so
    far, in order. *)
Fixpoint rmatch (r : regex) (s : jsstring) (caps : list jsstring)
         (k : jsstring -> list jsstring -> option A) : option A :=
  match r with
  | REps => k s caps
  | RChar c =>
      match s with
      | x :: s' => if (x =? c)%N then k s' caps else None
      | [] => None
      end
  | RClass p =>
      match s with
      | x :: s' => if p x then k s' caps else None
      | [] => None
      end
  | RSeq r1 r2 =>
      rmatch r1 s caps (fun s' caps' => rmatch r2 s' caps' k)
  | ROpt r1 =>
      match rmatch r1 s caps k with
      | Some a => Some a
      | None => k s caps
      end
  | RStar p => star p s (fun s' => k s' caps)
  | RPlus p =>
      match s with
      | x :: s' => if p x then star p s' (fun s'' => k s'' caps) else None
      | [] => None
      end
  | RGroup r1 =>
      rmatch r1 s caps
             (fun s' caps' =>
                k s' (caps' ++ [firstn (length s - length s') s]))
  end.
End Matcher.

(** Result of [RegExp.prototype.exec] / [String.prototype.match] for a
    non-global pattern: [m.index], [m[0]] and the groups [m[1..]]. *)
Record match_result : Type := {
  index : nat;
  matched : jsstring;
  groups : list jsstring
}.

Definition match_at (r : regex) (s : jsstring)
  : option (jsstring * list jsstring) :=
  rmatch r s [] (fun rest caps =>
                   Some (firstn (length s - length rest) s, caps)).

(** Leftmost match: start positions are tried from index [i] on. *)
Fixpoint search_from (r : regex) (i : nat) (s : jsstring)
  : option match_result :=
  match match_at r s with
  | Some (m0, caps) => Some {| index := i; matched := m0; groups := caps |}
  | None =>
      match s with
      | [] => None
      | _ :: s' => search_from r (S i) s'
      end
  end.

(** [s.match(r)]. *)
Definition str_match (s : jsstring) (r : regex) : option match_result :=
  search_from r 0 s.

(** [m[i]] for a group number [1 <= i]. *)
Definition group (m : match_result) (i : nat) : jsstring :=
  nth (i - 1) (groups m) [].

(** [-?\d+\.?\d*] *)
Definition NUMBER : regex :=
  RSeq (ROpt (RChar 45%N))
       (RSeq (RPlus is_digit) (RSeq (ROpt (RChar 46%N)) (RStar is_digit))).

End Regex.

Export Regex.

(* ===================================================================== *)
(** ** [parseFloat] *)
(* ===================================================================== *)

Module ParseFloat.

Local Open Scope N_scope.

Fixpoint digits_value (acc : N) (ds : jsstring) : N :=
  match ds with
  | [] => acc
  | c :: ds' => digits_value (10 * acc + (c - 48)) ds'
  end.

(** A leading sign: whether it is a minus, and what follows it. *)
Definition split_sign (s : jsstring) : bool * jsstring :=
  match s with
  | c :: s' =>
      if c =? 45 then (true, s')
      else if c =? 43 then (false, s')
      else (false, s)
  | [] => (false, [])
  end.

(** The value of an ExponentPart at the head of [s], 0 when there is no
    well-formed one. *)
Definition exponent (s : jsstring) : Z :=
  match s with
  | c :: t =>
      if (c =? 101) || (c =? 69) then
        let '(eneg, t') := split_sign t in
        match take_while is_digit t' with
        | [] => 0%Z
        | ds => let v := Z.of_N (digits_value 0 ds) in
                if eneg then (- v)%Z else v
        end
      else 0%Z
  | [] => 0%Z
  end.

(** [(-1)^neg * m * 10^-sc], rounded to binary64. *)
Definition scale (neg : bool) (m : N) (sc : Z) : number :=
  match sc with
  | Zneg p => of_decimal neg (m * Npos (pow10 (Pos.to_nat p))) 0
  | _ => of_decimal neg m (Z.to_nat sc)
  end.

(** The fraction after the integer part: its digits and what follows. *)
Definition split_fraction (s1 : jsstring) : jsstring * jsstring :=
  match s1 with
  | c :: t =>
      if c =? 46 then (take_while is_digit t, drop_while is_digit t)
      else ([], s1)
  | [] => ([], s1)
  end.

(** [parseFloat(input)]: leading white space is skipped, the longest
    prefix that is a StrDecimalLiteral is converted, [NaN] when there is
    none. *)
Definition parseFloat (input : jsstring) : number :=
  let s := trimStart input in
  let '(neg, s) := split_sign s in
  if starts_with (js "Infinity") s then S754_infinity neg
  else
    let ip := take_while is_digit s in
    let s1 := drop_while is_digit s in
    let '(fp, s2) := split_fraction s1 in
    match ip ++ fp with
    | [] => NaN
    | ds => scale neg (digits_value 0 ds)
                  (Z.of_nat (length fp) - exponent s2)
    end.

End ParseFloat.

Export ParseFloat.

(* ===================================================================== *)
(** ** Untyped values and the location validator *)
(* ===================================================================== *)

Module Value.

(** A JavaScript value as [JSON.parse], local storage and the [any]
    parameters of the validators see it.  An object is the list of its
    own properties, in order. *)
Inductive jsval : Type :=
| JUndefined
| JNull
| JBool (b : bool)
| JNum (n : number)
| JStr (s : jsstring)
| JArr (l : list jsval)
| JObj (o : list (jsstring * jsval)).

Fixpoint lookup (k : jsstring) (o : list (jsstring * jsval)) : jsval :=
  match o with
  | [] => JUndefined
  | (k', v) :: o' => if str_eqb k' k then v else lookup k o'
  end.

(** [typeof v === 'object'] *)
Definition typeof_object (v : jsval) : bool :=
  match v with
  | JNull | JArr _ | JObj _ => true
  | _ => false
  end.

(** [typeof v === 'number'] *)
Definition typeof_number (v : jsval) : bool :=
  match v with JNum _ => true | _ => false end.

(** [v.k] for a name [k] that no prototype defines ([lat], [lng],
    [messages], ...), on a value that is neither [null] nor [undefined]:
    an own property of an object, [undefined] otherwise. *)
Definition field (v : jsval) (k : jsstring) : jsval :=
  match v with
  | JObj o => lookup k o
  | _ => JUndefined
  end.

(** Truthiness ([ToBoolean]). *)
Definition truthy (v : jsval) : bool :=
  match v with
  | JUndefined | JNull => false
  | JBool b => b
  | JNum n =>
      match n with
      | S754_zero _ | S754_nan => false
      | _ => true
      end
  | JStr s => match s with [] => false | _ => true end
  | JArr _ | JObj _ => true
  end.

Definition is_null (v : jsval) : bool :=
  match v with JNull => true | _ => false end.
Definition is_undefined (v : jsval) : bool :=
  match v with JUndefined => true | _ => false end.

(** [Number.isNaN(v)]: no coercion, [false] on anything but a number. *)
Definition Number_isNaN (v : jsval) : bool :=
  match v with JNum n => isNaN n | _ => false end.

(** The global [isFinite(v)] on a value of type number; the validators
    reach it only behind [typeof v === 'number']. *)
Definition global_isFinite (v : jsval) : bool :=
  match v with JNum n => isFinite n | _ => false end.

(** [isValidStoredLoc] of App.tsx. *)
Definition isValidStoredLoc (loc : jsval) : bool :=
  negb (is_null loc)
  && negb (is_undefined loc)
  && typeof_object loc
  && typeof_number (field loc (js "lat"))
  && negb (Number_isNaN (field loc (js "lat")))
  && global_isFinite (field loc (js "lat"))
  && typeof_number (field loc (js "lng"))
  && negb (Number_isNaN (field loc (js "lng")))
  && global_isFinite (field loc (js "lng")).

(** [isValidLocation] of the map component: the same test. *)
Definition isValidLocation (loc : jsval) : bool :=
  negb (is_null loc)
  && negb (is_undefined loc)
  && typeof_object loc
  && typeof_number (field loc (js "lat"))
  && negb (Number_isNaN (field loc (js "lat")))
  && global_isFinite (field loc (js "lat"))
  && typeof_number (field loc (js "lng"))
  && negb (Number_isNaN (field loc (js "lng")))
  && global_isFinite (field loc (js "lng")).

End Value.

Export Value.

(* ===================================================================== *)
(** ** The declared types of [types.ts] *)
(* ===================================================================== *)

Record GeoLocation : Type := { lat : number; lng : number }.

Module Source.
Record t : Type := { uri : option jsstring; title : option jsstring }.
End Source.

Record GroundingChunk : Type := {
  web : option Source.t;
  maps : option Source.t
}.

Inductive Role : Type := user | model.

Module Message.
Record t : Type := {
  id : jsstring;
  role : Role;
  text : jsstring;
  groundingChunks : option (list GroundingChunk);
  timestamp : Z;
  suggestedLocation : option GeoLocation;
  relatedLocations : option (list GeoLocation)
}.
End Message.

Module ChatSession.
Record t : Type := {
  id : jsstring;
  title : jsstring;
  messages : list Message.t;
  updatedAt : Z
}.
End ChatSession.

(** A typed location as the value it is at run time. *)
Definition loc_val (l : GeoLocation) : jsval :=
  JObj [(js "lat", JNum (lat l)); (js "lng", JNum (lng l))].

(** [GeoLocation | null] and [GeoLocation | undefined] at run time. *)
Definition nullable_val (l : option GeoLocation) : jsval :=
  match l with Some g => loc_val g | None => JNull end.
Definition optional_val (l : option GeoLocation) : jsval :=
  match l with Some g => loc_val g | None => JUndefined end.

(* ===================================================================== *)
(** ** services/gemini.ts *)
(* ===================================================================== *)

Module Gemini.

Definition MODEL_NAME : jsstring := js "gemini-2.5-flash".

(** [/\{\{LAT:(N),\s*LNG:(N)\}\}/] where [N] is [-?\d+\.?\d*]. *)
Definition COORDINATE_REGEX : regex :=
  RSeq (RLit (js "{{LAT:"))
 (RSeq (RGroup NUMBER)
 (RSeq (RChar 44%N)
 (RSeq (RStar is_space)
 (RSeq (RLit (js "LNG:"))
 (RSeq (RGroup NUMBER)
       (RLit (js "}}"))))))).

(** [/!3d(N)!4d(N)/] where [N] is [-?\d+\.?\d*]. *)
Definition MAPS_REGEX : regex :=
  RSeq (RLit (js "!3d"))
 (RSeq (RGroup NUMBER)
 (RSeq (RLit (js "!4d"))
       (RGroup NUMBER))).

Definition FALLBACK_TEXT : jsstring :=
  js "I couldn't find an answer for that.".

Definition CONNECT_ERROR : jsstring :=
  js "Failed to connect to GeoChat AI.".

(** One entry of [contents]: [{ role, parts: [{ text }] }]. *)
Record Content : Type := { c_role : Role; c_parts : list jsstring }.

(** The request handed to [ai.models.generateContent]; the tool list and
    the system instruction are constants of the source and are left
    out. [latLng] is [toolConfig.retrievalConfig.latLng]. *)
Record Request : Type := {
  req_model : jsstring;
  contents : list Content;
  latLng : option (number * number)
}.

(** What the code reads of a [GenerateContentResponse]: [response.text]
    and the grounding chunks of the first candidate. *)
Record Response : Type := {
  r_text : option jsstring;
  r_groundingChunks : option (list GroundingChunk)
}.

(** The awaited call resolves, or rejects with an error whose
    [message] may be missing. *)
Inductive outcome : Type :=
| Resolved (r : Response)
| Rejected (message : option jsstring).

(** [arr.slice(-n)] *)
Definition slice_last {A} (n : nat) (l : list A) : list A :=
  skipn (length l - n) l.

Definition historyContext (chatHistory : list Message.t) : list Content :=
  map (fun msg => {| c_role := Message.role msg;
                     c_parts := [Message.text msg] |})
      (slice_last 10 chatHistory).

Definition build_request (chatHistory : list Message.t)
           (userLocation : option GeoLocation) : Request :=
  let isValidUserLoc :=
    match userLocation with
    | Some l => negb (isNaN (lat l)) && negb (isNaN (lng l))
    | None => false
    end in
  {| req_model := MODEL_NAME;
     contents := historyContext chatHistory;
     latLng := match userLocation with
               | Some l => if isValidUserLoc then Some (lat l, lng l)
                           else None
               | None => None
               end |}.

(** [a || b] on strings that may be undefined. *)
Definition or_else (a : option jsstring) (b : jsstring) : jsstring :=
  match a with
  | Some (c :: s) => c :: s
  | _ => b
  end.

(** The hidden-tag step: [(cleanText, suggestedLocation)]. *)
Definition parse_tag (text : jsstring) : jsstring * option GeoLocation :=
  match str_match text COORDINATE_REGEX with
  | Some m =>
      let lat := parseFloat (group m 1) in
      let lng := parseFloat (group m 2) in
      let suggestedLocation :=
        if negb (isNaN lat) && negb (isNaN lng)
        then Some {| lat := lat; lng := lng |} else None in
      (trim (replace (matched m) [] text), suggestedLocation)
  | None => (text, None)
  end.

(** The body of the [forEach] callback: what one chunk pushes. *)
Definition chunk_locations (chunk : GroundingChunk) : list GeoLocation :=
  match maps chunk with
  | Some mp =>
      match Source.uri mp with
      | Some (c :: u) =>
          match str_match (c :: u) MAPS_REGEX with
          | Some mapsMatch =>
              let lat := parseFloat (group mapsMatch 1) in
              let lng := parseFloat (group mapsMatch 2) in
              if negb (isNaN lat) && negb (isNaN lng)
              then [{| lat := lat; lng := lng |}] else []
          | None => []
          end
      | _ => []
      end
  | None => []
  end.

Definition parse_related (groundingChunks : option (list GroundingChunk))
  : list GeoLocation :=
  match groundingChunks with
  | Some chunks => flat_map chunk_locations chunks
  | None => []
  end.

(** The message built from a resolved response. *)
Definition build_message (uuid : jsstring) (now : Z) (response : Response)
  : Message.t :=
  let text := or_else (r_text response) FALLBACK_TEXT in
  let groundingChunks := r_groundingChunks response in
  let '(cleanText, suggestedLocation) := parse_tag text in
  let relatedLocations := parse_related groundingChunks in
  {| Message.id := uuid;
     Message.role := model;
     Message.text := cleanText;
     Message.groundingChunks := groundingChunks;
     Message.suggestedLocation := suggestedLocation;
     Message.relatedLocations :=
       match relatedLocations with
       | [] => None
       | _ :: _ => Some relatedLocations
       end;
     Message.timestamp := now |}.

(** A line written with [console.error]. *)
Definition log_line : Type := (jsstring * option jsstring)%type.

(** [sendMessageToGemini]: the service [ai] is called once with the
    request; the result is the returned message or the thrown error's
    message, together with what was logged. *)
Definition sendMessageToGemini (ai : Request -> outcome)
           (uuid : jsstring) (now : Z)
           (chatHistory : list Message.t)
           (userLocation : option GeoLocation)
  : (Message.t + jsstring) * list log_line :=
  match ai (build_request chatHistory userLocation) with
  | Resolved response => (inl (build_message uuid now response), [])
  | Rejected message =>
      (inr (or_else message CONNECT_ERROR),
       [(js "Gemini API Error:", message)])
  end.

End Gemini.

(* ===================================================================== *)
(** ** Exceptions *)
(* ===================================================================== *)

Module Exn.

Inductive exn : Type :=
| TypeError
| SyntaxError
| Error (message : jsstring).

Inductive result (A : Type) : Type :=
| Ok (a : A)
| Throw (e : exn).
Arguments Ok {A} a.
Arguments Throw {A} e.

Definition bind {A B} (r : result A) (f : A -> result B) : result B :=
  match r with
  | Ok a => f a
  | Throw e => Throw e
  end.

(** [l.map(f)] where [f] may throw: the first exception aborts. *)
Fixpoint mapM {A B} (f : A -> result B) (l : list A) : result (list B) :=
  match l with
  | [] => Ok []
  | a :: l' =>
      bind (f a) (fun b => bind (mapM f l') (fun bs => Ok (b :: bs)))
  end.

End Exn.

Export Exn.

Notation "x <- r ;; k" := (bind r (fun x => k))
  (at level 61, r at next level, right associativity).

(* ===================================================================== *)
(** ** The map component: viewport decision *)
(* ===================================================================== *)

(** Leaflet 1.9.4 is a dependency, not part of the repository.  The three
    operations [MapUpdater] relies on are modelled after the library:
    a [LatLng] cannot be built from NaN, a [LatLngBounds] starts without
    corners, [extend] sets both corners from the first point and widens
    them with [Math.min] / [Math.max] afterwards, and [isValid] tells
    whether the corners are set. *)
Module Leaflet.

Definition LatLng : Type := (number * number)%type.

Definition LatLngBounds : Type := option (LatLng * LatLng).

Definition toLatLng (p : number * number) : result LatLng :=
  if isNaN (fst p) || isNaN (snd p)
  then Throw (Error (js "Invalid LatLng object"))
  else Ok p.

Definition extend (b : LatLngBounds) (p : LatLng) : LatLngBounds :=
  match b with
  | None => Some (p, p)
  | Some (sw, ne) =>
      Some ((Num.min (fst p) (fst sw), Num.min (snd p) (snd sw)),
            (Num.max (fst p) (fst ne), Num.max (snd p) (snd ne)))
  end.

Fixpoint extend_all (b : LatLngBounds) (points : list (number * number))
  : result LatLngBounds :=
  match points with
  | [] => Ok b
  | p :: rest => q <- toLatLng p ;; extend_all (extend b q) rest
  end.

(** [L.latLngBounds(points)] *)
Definition latLngBounds (points : list (number * number))
  : result LatLngBounds :=
  extend_all None points.

Definition isValid (b : LatLngBounds) : bool :=
  match b with Some _ => true | None => false end.

End Leaflet.

Module MapComponent.

Import Leaflet.

Inductive ViewportCommand : Type :=
| FlyTo (center : number * number) (zoom : Z) (duration : number)
| FitBounds (bounds : LatLngBounds) (padding : Z * Z) (maxZoom : Z)
            (animate : bool) (duration : number)
| NoOp.

Definition valid (l : GeoLocation) : bool := isValidLocation (loc_val l).

(** [relatedLocations?.filter(isValidLocation) || []] *)
Definition validRelated (relatedLocations : option (list GeoLocation))
  : list GeoLocation :=
  match relatedLocations with
  | Some l => filter valid l
  | None => []
  end.

Definition point (l : GeoLocation) : number * number := (lat l, lng l).

(** The effect of [MapUpdater]: the call made on the map, if any. *)
Definition MapUpdater (targetLocation : option GeoLocation)
           (relatedLocations : option (list GeoLocation))
  : result ViewportCommand :=
  let validRelated := validRelated relatedLocations in
  if (0 <? length validRelated)%nat then
    let points := map point validRelated in
    let points :=
      match targetLocation with
      | Some t =>
          if isValidLocation (nullable_val targetLocation)
          then points ++ [point t] else points
      | None => points
      end in
    if (0 <? length points)%nat then
      bounds <- latLngBounds points ;;
      if isValid bounds
      then Ok (FitBounds bounds (50, 50)%Z 15%Z true
                         (of_decimal false 15 1))
      else Ok NoOp
    else Ok NoOp
  else
    match targetLocation with
    | Some t =>
        if isValidLocation (nullable_val targetLocation)
        then Ok (FlyTo (point t) 15%Z (of_Z 2))
        else Ok NoOp
    | None => Ok NoOp
    end.

(** [activeTarget] of [MapComponent]. *)
Definition activeTarget (userLocation targetLocation : option GeoLocation)
  : option GeoLocation :=
  if isValidLocation (nullable_val targetLocation) then targetLocation
  else if isValidLocation (nullable_val userLocation) then userLocation
  else None.

End MapComponent.

(* ===================================================================== *)
(** ** Session store: the [sessions] initializer of App.tsx *)
(* ===================================================================== *)

Module Store.

Definition props : Type := list (jsstring * jsval).

(** Define or overwrite an own property; a new key goes last. *)
Fixpoint obj_set (k : jsstring) (v : jsval) (o : props) : props :=
  match o with
  | [] => [(k, v)]
  | (k', v') :: o' =>
      if str_eqb k' k then (k, v) :: o' else (k', v') :: obj_set k v o'
  end.

(** Decimal spelling of an index, as a property key. *)
Definition index_key (i : nat) : jsstring :=
  js (NilEmpty.string_of_uint (Nat.to_uint i)).

Fixpoint indexed (i : nat) (l : list jsval) : props :=
  match l with
  | [] => []
  | v :: l' => (index_key i, v) :: indexed (S i) l'
  end.

(** The own enumerable properties copied by [{...v}]. *)
Definition spread (v : jsval) : props :=
  match v with
  | JObj o => o
  | JArr l => indexed 0 l
  | JStr s => indexed 0 (map (fun c => JStr [c]) s)
  | _ => []
  end.

(** [v.k]: a TypeError on [null] and [undefined]. *)
Definition get (v : jsval) (k : jsstring) : result jsval :=
  match v with
  | JNull | JUndefined => Throw TypeError
  | _ => Ok (field v k)
  end.

(** [v.map(f)]: only an array has a callable [map]. *)
Definition arr_map (v : jsval) (f : jsval -> result jsval) : result jsval :=
  match v with
  | JArr l => l' <- mapM f l ;; Ok (JArr l')
  | _ => Throw TypeError
  end.

(** [v?.filter(p)]: [undefined] on [null] and [undefined], a TypeError
    on anything else that is not an array. *)
Definition opt_filter (v : jsval) (p : jsval -> bool) : result jsval :=
  match v with
  | JNull | JUndefined => Ok JUndefined
  | JArr l => Ok (JArr (filter p l))
  | _ => Throw TypeError
  end.

(** The object literal built for one message. *)
Definition sanitize_message (m : jsval) : result jsval :=
  sl <- get m (js "suggestedLocation") ;;
  rl <- get m (js "relatedLocations") ;;
  rl' <- opt_filter rl isValidStoredLoc ;;
  Ok (JObj (obj_set (js "relatedLocations") rl'
           (obj_set (js "suggestedLocation")
                    (if isValidStoredLoc sl then sl else JUndefined)
                    (spread m)))).

(** The object literal built for one session. *)
Definition sanitize_session (s : jsval) : result jsval :=
  ms <- get s (js "messages") ;;
  ms' <- arr_map ms sanitize_message ;;
  Ok (JObj (obj_set (js "messages") ms' (spread s))).

Definition sanitize_sessions (l : list jsval) : result (list jsval) :=
  mapM sanitize_session l.

Definition SESSIONS_KEY : jsstring := js "geochat_sessions".
Definition HISTORY_KEY : jsstring := js "geochat_history".
Definition RESTORED_TITLE : jsstring := js "Restored Chat".

Section Load.

(** [localStorage.getItem], [JSON.parse], [crypto.randomUUID()] and
    [Date.now()] as the initializer finds them. *)
Variable getItem : jsstring -> option jsstring.
Variable JSON_parse : jsstring -> result jsval.
Variable uuid : jsstring.
Variable now : Z.

Definition migratedSession (sanitizedMsgs : list jsval) : jsval :=
  JObj [(js "id", JStr uuid);
        (js "title", JStr RESTORED_TITLE);
        (js "messages", JArr sanitizedMsgs);
        (js "updatedAt", JNum (of_Z now))].

(** The migration part of the [try] block. *)
Definition migrate : result (list jsval) :=
  match getItem HISTORY_KEY with
  | Some (c :: old) =>
      msgs <- JSON_parse (c :: old) ;;
      match msgs with
      | JArr (m :: ms) =>
          sanitizedMsgs <- mapM sanitize_message (m :: ms) ;;
          Ok [migratedSession sanitizedMsgs]
      | _ => Ok []
      end
  | _ => Ok []
  end.

(** The [try] block. *)
Definition load_try : result (list jsval) :=
  match getItem SESSIONS_KEY with
  | Some (c :: saved) =>
      parsedSessions <- JSON_parse (c :: saved) ;;
      match parsedSessions with
      | JArr l => sanitize_sessions l
      | _ => migrate
      end
  | _ => migrate
  end.

(** The initializer: the sessions and what [console.error] received. *)
Definition load : list jsval * list exn :=
  match load_try with
  | Ok sessions => (sessions, [])
  | Throw e => ([], [e])
  end.

End Load.

End Store.

(* ===================================================================== *)
(** ** The conversation controller of App.tsx *)
(* ===================================================================== *)

Module App.

Import Gemini.

(** The component state ([useState] cells). *)
Record State : Type := {
  userLocation : option GeoLocation;
  targetLocation : option GeoLocation;
  input : jsstring;
  isLoading : bool;
  isMobileMapOpen : bool;
  isSidebarOpen : bool;
  sessions : list ChatSession.t;
  currentSessionId : option jsstring;
  messages : list Message.t
}.

Definition set_messages (ms : list Message.t) (st : State) : State :=
  {| userLocation := userLocation st;
     targetLocation := targetLocation st;
     input := input st;
     isLoading := isLoading st;
     isMobileMapOpen := isMobileMapOpen st;
     isSidebarOpen := isSidebarOpen st;
     sessions := sessions st;
     currentSessionId := currentSessionId st;
     messages := ms |}.

Definition set_targetLocation (t : option GeoLocation) (st : State)
  : State :=
  {| userLocation := userLocation st;
     targetLocation := t;
     input := input st;
     isLoading := isLoading st;
     isMobileMapOpen := isMobileMapOpen st;
     isSidebarOpen := isSidebarOpen st;
     sessions := sessions st;
     currentSessionId := currentSessionId st;
     messages := messages st |}.

Definition set_isLoading (b : bool) (st : State) : State :=
  {| userLocation := userLocation st;
     targetLocation := targetLocation st;
     input := input st;
     isLoading := b;
     isMobileMapOpen := isMobileMapOpen st;
     isSidebarOpen := isSidebarOpen st;
     sessions := sessions st;
     currentSessionId := currentSessionId st;
     messages := messages st |}.

Definition APOLOGY : jsstring :=
  js "I'm having trouble connecting to my map data right now. Please try again.".

Definition DEFAULT_TITLE : jsstring := js "New Chat".

(** [valid(loc)] for [loc && isValidStoredLoc(loc)] on an optional
    location. *)
Definition present_and_valid (l : option GeoLocation) : bool :=
  truthy (optional_val l) && isValidStoredLoc (optional_val l).

(** [loadSession(sessionId)] *)
Definition loadSession (sessionId : jsstring) (st : State) : State :=
  match find (fun s => str_eqb (ChatSession.id s) sessionId) (sessions st)
  with
  | Some session =>
      let lastLocMsg :=
        find (fun m => truthy (optional_val (Message.suggestedLocation m)))
             (rev (ChatSession.messages session)) in
      let target :=
        match lastLocMsg with
        | Some m =>
            if present_and_valid (Message.suggestedLocation m)
            then Message.suggestedLocation m else None
        | None => None
        end in
      {| userLocation := userLocation st;
         targetLocation := target;
         input := input st;
         isLoading := isLoading st;
         isMobileMapOpen := isMobileMapOpen st;
         isSidebarOpen := false;
         sessions := sessions st;
         currentSessionId := Some sessionId;
         messages := ChatSession.messages session |}
  | None => st
  end.

(** The [relatedLocations] memo: those of the latest model message. *)
Definition relatedLocations (st : State) : option (list GeoLocation) :=
  match find (fun m => match Message.role m with
                       | model => true
                       | user => false
                       end) (rev (messages st)) with
  | Some lastModelMsg => Message.relatedLocations lastModelMsg
  | None => None
  end.

(** The argument list of the awaited [sendMessageToGemini] call. *)
Record Call : Type := {
  currentHistory : list Message.t;
  contextLocation : option GeoLocation
}.

(** [handleSendMessage] up to the [await]: [None] is the early
    [return]; otherwise the state after the setters and the call that
    is awaited.  [isLoading] is the value of the latest render. *)
Definition handleSendMessage_begin (uuid : jsstring) (now : Z)
           (textOverride : option jsstring) (st : State)
  : option (State * Call) :=
  let textToSend :=
    match textOverride with
    | Some t => t
    | None => input st
    end in
  if negb (truthy (JStr (trim textToSend))) || isLoading st then None
  else
    let userMsg :=
      {| Message.id := uuid;
         Message.role := user;
         Message.text := trim textToSend;
         Message.groundingChunks := None;
         Message.timestamp := now;
         Message.suggestedLocation := None;
         Message.relatedLocations := None |} in
    Some ({| userLocation := userLocation st;
             targetLocation := targetLocation st;
             input := [];
             isLoading := true;
             isMobileMapOpen :=
               if truthy (match textOverride with
                          | Some t => JStr t
                          | None => JUndefined
                          end) && isMobileMapOpen st
               then false else isMobileMapOpen st;
             isSidebarOpen := isSidebarOpen st;
             sessions := sessions st;
             currentSessionId := currentSessionId st;
             messages := messages st ++ [userMsg] |},
          {| currentHistory := messages st ++ [userMsg];
             contextLocation :=
               match targetLocation st with
               | Some t => Some t
               | None => userLocation st
               end |}).

(** The message literal of the [catch] block. *)
Definition apology (uuid : jsstring) (now : Z) : Message.t :=
  {| Message.id := uuid;
     Message.role := model;
     Message.text := APOLOGY;
     Message.groundingChunks := None;
     Message.timestamp := now;
     Message.suggestedLocation := None;
     Message.relatedLocations := None |}.

(** [handleSendMessage] after the [await]: the [try] continuation, the
    [catch] and the [finally]. *)
Definition handleSendMessage_end (uuid : jsstring) (now : Z)
           (awaited : Message.t + jsstring) (st : State) : State :=
  match awaited with
  | inl response =>
      let st1 := set_messages (messages st ++ [response]) st in
      let st2 :=
        if present_and_valid (Message.suggestedLocation response)
        then set_targetLocation (Message.suggestedLocation response) st1
        else st1 in
      set_isLoading false st2
  | inr _ =>
      let st1 := set_messages (messages st ++ [apology uuid now]) st in
      set_isLoading false st1
  end.

(** The effect that copies the active messages into their session,
    run after a render in which [messages] or [currentSessionId]
    changed.  Its guard [if (!currentSessionId) return] stops on [null]
    and on the empty string. *)
Definition syncSessions (now : Z) (st : State) : State :=
  match currentSessionId st with
  | None | Some [] => st
  | Some cur =>
      {| userLocation := userLocation st;
         targetLocation := targetLocation st;
         input := input st;
         isLoading := isLoading st;
         isMobileMapOpen := isMobileMapOpen st;
         isSidebarOpen := isSidebarOpen st;
         sessions :=
           map (fun session =>
                  if str_eqb (ChatSession.id session) cur then
                    let newTitle :=
                      if str_eqb (ChatSession.title session) DEFAULT_TITLE
                         && (1 <? length (messages st))%nat
                      then
                        match find (fun m => match Message.role m with
                                             | user => true
                                             | model => false
                                             end) (messages st) with
                        | Some firstUserMsg =>
                            slice0 30 (Message.text firstUserMsg)
                            ++ (if (30 <? length (Message.text firstUserMsg))%nat
                                then js "..." else [])
                        | None => ChatSession.title session
                        end
                      else ChatSession.title session in
                    {| ChatSession.id := ChatSession.id session;
                       ChatSession.title := newTitle;
                       ChatSession.messages := messages st;
                       ChatSession.updatedAt := now |}
                  else session)
               (sessions st);
         currentSessionId := currentSessionId st;
         messages := messages st |}
  end.

(** The application together with its environment: the calls to the AI
    service that are awaited and the console. *)
Record World : Type := {
  app : State;
  inflight : list Call;
  console : list log_line
}.

(** What the environment supplies to one event: fresh identifiers and
    clock readings for the handler, for the service and for the effect
    that follows. *)
Record Env : Type := {
  uuid : jsstring;
  now : Z;
  service_uuid : jsstring;
  service_now : Z;
  effect_now : Z
}.

(** A call of [handleSendMessage], followed by the effect when the
    handler changed the state. *)
Definition send (env : Env) (textOverride : option jsstring) (w : World)
  : World :=
  match handleSendMessage_begin (uuid env) (now env) textOverride (app w)
  with
  | None => w
  | Some (st, call) =>
      {| app := syncSessions (effect_now env) st;
         inflight := inflight w ++ [call];
         console := console w |}
  end.

(** The oldest awaited call settles: [sendMessageToGemini] finishes
    with what the service [ai] answers, and [handleSendMessage]
    resumes. *)
Definition settle (ai : Request -> outcome) (env : Env) (w : World)
  : World :=
  match inflight w with
  | [] => w
  | call :: rest =>
      let '(awaited, logged) :=
        sendMessageToGemini ai (service_uuid env) (service_now env)
                            (currentHistory call) (contextLocation call) in
      {| app := syncSessions (effect_now env)
                  (handleSendMessage_end (uuid env) (now env) awaited
                                         (app w));
         inflight := rest;
         console := console w ++ logged |}
  end.

End App.

(* ===================================================================== *)
(** ** The vocabulary of the specification *)
(* ===================================================================== *)

Module Spec.

(** *** Words matched by a pattern

    [rx_sem r w caps caps']: the word [w] belongs to [r], and matching it
    extends the closed groups [caps] to [caps']. *)
Fixpoint rx_sem (r : regex) (w : jsstring) (caps caps' : list jsstring)
  : Prop :=
  match r with
  | REps => w = [] /\ caps' = caps
  | RChar c => w = [c] /\ caps' = caps
  | RClass p => exists x, w = [x] /\ p x = true /\ caps' = caps
  | RSeq r1 r2 =>
      exists w1 w2 c1,
        w = w1 ++ w2 /\ rx_sem r1 w1 caps c1 /\ rx_sem r2 w2 c1 caps'
  | ROpt r1 => (w = [] /\ caps' = caps) \/ rx_sem r1 w caps caps'
  | RStar p => forallb p w = true /\ caps' = caps
  | RPlus p => w <> [] /\ forallb p w = true /\ caps' = caps
  | RGroup r1 => exists c1, rx_sem r1 w caps c1 /\ caps' = c1 ++ [w]
  end.

(** The characters a [<number>] is made of. *)
Definition number_char (c : char) : bool :=
  is_digit c || (c =? 45)%N || (c =? 46)%N.

(** *** The hidden tag

    A [<number>]: an optional minus sign, one or more digits, an
    optional dot, further digits. *)
Definition number_text (w : jsstring) : Prop :=
  exists sign ip dot fp,
    w = sign ++ ip ++ dot ++ fp
    /\ (sign = [] \/ sign = js "-")
    /\ ip <> [] /\ forallb is_digit ip = true
    /\ (dot = [] \/ dot = js ".")
    /\ forallb is_digit fp = true.

(** [t] is the tag [{{LAT:a, LNG:b}}], with any white space after the
    comma. *)
Definition coordinate_tag (t a b : jsstring) : Prop :=
  exists ws,
    t = js "{{LAT:" ++ a ++ js "," ++ ws ++ js "LNG:" ++ b ++ js "}}"
    /\ number_text a /\ forallb is_space ws = true /\ number_text b.

Definition is_tag (t : jsstring) : Prop := exists a b, coordinate_tag t a b.

(** [t] is the coordinate pair [!3da!4db] of a maps URI. *)
Definition maps_pair (t a b : jsstring) : Prop :=
  t = js "!3d" ++ a ++ js "!4d" ++ b /\ number_text a /\ number_text b.

(** *** The longest number at the head of a string

    What a greedy [<number>] takes when nothing after it can fail: the
    sign, every digit, the dot when there is one, every digit again. *)
Definition split_dot (s : jsstring) : jsstring * jsstring :=
  match s with
  | c :: t => if (c =? 46)%N then ([c], t) else ([], s)
  | [] => ([], [])
  end.

Definition scan_tail (s : jsstring) : jsstring * jsstring :=
  let '(dot, s3) := split_dot (drop_while is_digit s) in
  (take_while is_digit s ++ dot ++ take_while is_digit s3,
   drop_while is_digit s3).

Definition scan_unsigned (s : jsstring) : option (jsstring * jsstring) :=
  match s with
  | x :: t =>
      if is_digit x
      then let '(w, r) := scan_tail t in Some (x :: w, r)
      else None
  | [] => None
  end.

Definition scan_number (s : jsstring) : option (jsstring * jsstring) :=
  match s with
  | c :: t =>
      if (c =? 45)%N then
        match scan_unsigned t with
        | Some (w, r) => Some (c :: w, r)
        | None => None
        end
      else scan_unsigned s
  | [] => None
  end.

(** The number [b] is not continued by [post]: no digit comes next, and
    no dot unless [b] has one already. *)
Definition number_ends (b post : jsstring) : Prop :=
  match post with
  | c :: _ => is_digit c = false /\ (c = 46%N -> In 46%N b)
  | [] => True
  end.

(** *** The location validator, in the words of the specification *)

Definition in_range (la ln : number) : bool :=
  Num.leb (of_Z (-90)) la && Num.leb la (of_Z 90)
  && Num.leb (of_Z (-180)) ln && Num.leb ln (of_Z 180).


(** The accepted set as the specification states it: finite and within
    [[-90,90] x [-180,180]]. *)
Definition spec_valid (v : jsval) : Prop :=
  exists o la ln,
    v = JObj o
    /\ lookup (js "lat") o = JNum la /\ lookup (js "lng") o = JNum ln
    /\ isFinite la = true /\ isFinite ln = true
    /\ in_range la ln = true.

(** *** Shapes of stored data *)

(** A stored message: an object whose [relatedLocations], when present,
    is an array. *)
Definition message_shaped (m : jsval) : Prop :=
  exists o,
    m = JObj o
    /\ (lookup (js "relatedLocations") o = JUndefined
        \/ lookup (js "relatedLocations") o = JNull
        \/ exists l, lookup (js "relatedLocations") o = JArr l).

(** What reading a location field of a sanitized message can give. *)
Definition clean_suggested (m : jsval) : Prop :=
  field m (js "suggestedLocation") = JUndefined
  \/ isValidStoredLoc (field m (js "suggestedLocation")) = true.

(** [isValidStoredLoc(v) ? v : undefined] *)
Definition kept (v : jsval) : jsval :=
  if isValidStoredLoc v then v else JUndefined.

Definition clean_related (m : jsval) : Prop :=
  field m (js "relatedLocations") = JUndefined
  \/ exists l, field m (js "relatedLocations") = JArr l
               /\ forallb isValidStoredLoc l = true.

(** A stored session: an object whose [messages] is an array of
    stored messages. *)
Definition session_shaped (s : jsval) : Prop :=
  exists o ms,
    s = JObj o /\ lookup (js "messages") o = JArr ms
    /\ Forall message_shaped ms.

(** [m'] is [m] with its two location fields sanitized: every other own
    property is kept, an invalid [suggestedLocation] reads as
    [undefined], and the entries of [relatedLocations] that fail the
    validator are dropped, the others keeping their order. *)
Definition sanitized_from (m m' : jsval) : Prop :=
  exists o o',
    m = JObj o /\ m' = JObj o'
    /\ (forall k, k <> js "suggestedLocation" -> k <> js "relatedLocations" ->
                  lookup k o' = lookup k o)
    /\ lookup (js "suggestedLocation") o'
       = kept (lookup (js "suggestedLocation") o)
    /\ (((lookup (js "relatedLocations") o = JUndefined
          \/ lookup (js "relatedLocations") o = JNull)
         /\ lookup (js "relatedLocations") o' = JUndefined)
        \/ exists l,
             lookup (js "relatedLocations") o = JArr l
             /\ lookup (js "relatedLocations") o'
                = JArr (filter isValidStoredLoc l)).

(** [s'] is [s] with each of its messages sanitized. *)
Definition session_sanitized_from (s s' : jsval) : Prop :=
  exists o o' ms ms',
    s = JObj o /\ s' = JObj o'
    /\ (forall k, k <> js "messages" -> lookup k o' = lookup k o)
    /\ lookup (js "messages") o = JArr ms
    /\ lookup (js "messages") o' = JArr ms'
    /\ Forall2 sanitized_from ms ms'.

(** The multi-session record gives no array: it is missing or empty, or
    it parses to something else. *)
Definition no_session_array (getItem : jsstring -> option jsstring)
           (JSON_parse : jsstring -> result jsval) : Prop :=
  getItem Store.SESSIONS_KEY = None
  \/ getItem Store.SESSIONS_KEY = Some []
  \/ exists saved v,
       getItem Store.SESSIONS_KEY = Some saved
       /\ JSON_parse saved = Ok v /\ forall l, v <> JArr l.

Definition no_record (getItem : jsstring -> option jsstring)
           (key : jsstring) : Prop :=
  getItem key = None \/ getItem key = Some [].

(** *** The viewport decision *)

(** The target, when it passes the validator. *)
Definition valid_target (target : option GeoLocation) : list GeoLocation :=
  match target with
  | Some t => if MapComponent.valid t then [t] else []
  | None => []
  end.

(** The valid related locations, then the valid target. *)
Definition fit_points (target : option GeoLocation)
           (related : option (list GeoLocation)) : list GeoLocation :=
  MapComponent.validRelated related ++ valid_target target.

(** *** Restoring the target of a session *)

Definition has_location (m : Message.t) : bool :=
  match Message.suggestedLocation m with Some _ => true | None => false end.

(** The newest message that carries a [suggestedLocation] at all. *)
Definition newest_located (ms : list Message.t) : option Message.t :=
  find has_location (rev ms).

(** The [suggestedLocation] of the newest message that has a valid one. *)
Definition newest_valid (ms : list Message.t) : option GeoLocation :=
  match find (fun m => App.present_and_valid (Message.suggestedLocation m))
             (rev ms) with
  | Some m => Message.suggestedLocation m
  | None => None
  end.

(** Every [suggestedLocation] present in [ms] passes the validator, as
    it is after sanitization. *)
Definition locations_clean (ms : list Message.t) : Prop :=
  Forall (fun m => has_location m = true ->
                   App.present_and_valid (Message.suggestedLocation m) = true)
         ms.

(** One entry of the request for one message. *)
Definition to_content (msg : Message.t) : Gemini.Content :=
  {| Gemini.c_role := Message.role msg;
     Gemini.c_parts := [Message.text msg] |}.

End Spec.

(* ===================================================================== *)
(** ** Concrete data used in the examples *)
(* ===================================================================== *)

Module Sample.

Import App.

Definition paris : GeoLocation :=
  {| lat := of_decimal false 488584 4; lng := of_decimal false 22945 4 |}.

Definition tokyo : GeoLocation :=
  {| lat := of_decimal false 356895 4; lng := of_decimal false 1396917 4 |}.

(** Finite, but outside [[-90,90] x [-180,180]]. *)
Definition far_away : GeoLocation := {| lat := of_Z 200; lng := of_Z 500 |}.

Definition unbounded : GeoLocation :=
  {| lat := Infinity; lng := of_Z 0 |}.

Definition msg (i : string) (r : Role) (t : string)
           (sl : option GeoLocation) (rl : option (list GeoLocation))
  : Message.t :=
  {| Message.id := js i;
     Message.role := r;
     Message.text := js t;
     Message.groundingChunks := None;
     Message.timestamp := 0;
     Message.suggestedLocation := sl;
     Message.relatedLocations := rl |}.

Definition env0 : Env :=
  {| uuid := js "id-1"; now := 1000;
     service_uuid := js "id-2"; service_now := 2000;
     effect_now := 3000 |}.

Definition st0 : State :=
  {| userLocation := None;
     targetLocation := Some paris;
     input := js "";
     isLoading := false;
     isMobileMapOpen := false;
     isSidebarOpen := false;
     sessions := [];
     currentSessionId := None;
     messages := [msg "m1" model "Two places nearby." None (Some [tokyo]);
                  msg "m2" user "And now?" None None] |}.

(** A send is awaited. *)
Definition w_pending : World :=
  {| app := set_isLoading true st0;
     inflight := [{| currentHistory := messages st0;
                     contextLocation := Some paris |}];
     console := [] |}.

Definition w_idle : World :=
  {| app := st0; inflight := []; console := [] |}.

(** A session whose newest message carries a location that is not
    finite, after an older one with a valid location. *)
Definition mixed_session : ChatSession.t :=
  {| ChatSession.id := js "s1";
     ChatSession.title := js "Trip";
     ChatSession.messages :=
       [msg "a" model "Paris" (Some paris) None;
        msg "b" model "Nowhere" (Some unbounded) None];
     ChatSession.updatedAt := 5 |}.

Definition st_mixed : State :=
  {| userLocation := None;
     targetLocation := None;
     input := js "";
     isLoading := false;
     isMobileMapOpen := false;
     isSidebarOpen := true;
     sessions := [mixed_session];
     currentSessionId := None;
     messages := [] |}.

(** A legacy history of two messages; the first one carries a
    [suggestedLocation] whose latitude is a string. *)
Definition legacy_messages : list jsval :=
  [JObj [(js "id", JStr (js "m1"));
         (js "role", JStr (js "model"));
         (js "text", JStr (js "Here it is."));
         (js "timestamp", JNum (of_Z 1));
         (js "suggestedLocation",
          JObj [(js "lat", JStr (js "north")); (js "lng", JNum (of_Z 2))]);
         (js "relatedLocations",
          JArr [loc_val tokyo; JNull; loc_val unbounded; loc_val paris])];
   JObj [(js "id", JStr (js "m2"));
         (js "role", JStr (js "user"));
         (js "text", JStr (js "Thanks"));
         (js "timestamp", JNum (of_Z 2))]].

Definition legacy_sanitized : list jsval :=
  [JObj [(js "id", JStr (js "m1"));
         (js "role", JStr (js "model"));
         (js "text", JStr (js "Here it is."));
         (js "timestamp", JNum (of_Z 1));
         (js "suggestedLocation", JUndefined);
         (js "relatedLocations", JArr [loc_val tokyo; loc_val paris])];
   JObj [(js "id", JStr (js "m2"));
         (js "role", JStr (js "user"));
         (js "text", JStr (js "Thanks"));
         (js "timestamp", JNum (of_Z 2));
         (js "suggestedLocation", JUndefined);
         (js "relatedLocations", JUndefined)]].

(** Local storage holding the legacy record only, and a parser that
    reads it. *)
Definition legacy_blob : jsstring := js "<legacy history>".

Definition legacy_storage (key : jsstring) : option jsstring :=
  if str_eqb key Store.HISTORY_KEY then Some legacy_blob else None.

Definition legacy_parse (text : jsstring) : result jsval :=
  if str_eqb text legacy_blob then Ok (JArr legacy_messages)
  else Throw SyntaxError.

(** A stored collection of one session holding the legacy messages. *)
Definition stored_sessions : list jsval :=
  [JObj [(js "id", JStr (js "s1"));
         (js "title", JStr (js "Trip"));
         (js "messages", JArr legacy_messages);
         (js "updatedAt", JNum (of_Z 7))]].

Definition stored_sanitized : list jsval :=
  [JObj [(js "id", JStr (js "s1"));
         (js "title", JStr (js "Trip"));
         (js "messages", JArr legacy_sanitized);
         (js "updatedAt", JNum (of_Z 7))]].

(** Citations: a place with coordinates in its URI, a web page, a place
    without coordinates, and places whose coordinates are out of range
    or overflow. *)
Definition place (u : string) : GroundingChunk :=
  {| web := None;
     maps := Some {| Source.uri := Some (js u);
                     Source.title := Some (js "A place") |} |}.

Definition web_page : GroundingChunk :=
  {| web := Some {| Source.uri := Some (js "https://example.org/!3d1!4d2");
                    Source.title := None |};
     maps := None |}.

Definition tokyo_place : GroundingChunk :=
  place "https://www.google.com/maps/place/Tokyo/@35.6,139.6,12z/data=!3m1!4b1!4m5!3m4!1s0x0:0x0!8m2!3d35.6895!4d139.6917?hl=en".

Definition far_place : GroundingChunk :=
  place "https://maps.google.com/?q=x!3d200!4d500".

(** Three hundred and ten nines. *)
Definition huge_digits : jsstring := repeat 57%N 310.

Definition huge_place : GroundingChunk :=
  {| web := None;
     maps := Some {| Source.uri :=
                       Some (js "!3d" ++ huge_digits ++ js "!4d0");
                     Source.title := None |} |}.

End Sample.

(* ===================================================================== *)
(** ** App.tsx: session lifecycle, start-up and persistence *)
(* ===================================================================== *)

Module Lifecycle.

Import App.

Definition WELCOME : jsstring :=
  js "Hello! I'm GeoChat. I can help you find places, check detailed information, and navigate using Google Maps data. Where are we heading today?".

(** The object literal of [createNewSession]; [now1] and [now2] are the
    two readings of [Date.now()]. *)
Definition newSession (uuid : jsstring) (now1 now2 : Z) : ChatSession.t :=
  {| ChatSession.id := uuid;
     ChatSession.title := DEFAULT_TITLE;
     ChatSession.messages :=
       [{| Message.id := js "welcome";
           Message.role := model;
           Message.text := WELCOME;
           Message.groundingChunks := None;
           Message.timestamp := now1;
           Message.suggestedLocation := None;
           Message.relatedLocations := None |}];
     ChatSession.updatedAt := now2 |}.

(** [createNewSession()] *)
Definition createNewSession (uuid : jsstring) (now1 now2 : Z) (st : State)
  : State :=
  let newSession := newSession uuid now1 now2 in
  {| userLocation := userLocation st;
     targetLocation := None;
     input := input st;
     isLoading := isLoading st;
     isMobileMapOpen := isMobileMapOpen st;
     isSidebarOpen := false;
     sessions := newSession :: sessions st;
     currentSessionId := Some (ChatSession.id newSession);
     messages := ChatSession.messages newSession |}.

Definition set_sessions (l : list ChatSession.t) (st : State) : State :=
  {| userLocation := userLocation st;
     targetLocation := targetLocation st;
     input := input st;
     isLoading := isLoading st;
     isMobileMapOpen := isMobileMapOpen st;
     isSidebarOpen := isSidebarOpen st;
     sessions := l;
     currentSessionId := currentSessionId st;
     messages := messages st |}.

(** [loadSession(sessionId)] as a closure of a render: the session is
    looked up in [closed], the [sessions] of that render, and the
    setters act on the state [st] of the moment. *)
Definition loadSession_in (closed : list ChatSession.t)
           (sessionId : jsstring) (st : State) : State :=
  match find (fun s => str_eqb (ChatSession.id s) sessionId) closed with
  | Some session =>
      let lastLocMsg :=
        find (fun m => truthy (optional_val (Message.suggestedLocation m)))
             (rev (ChatSession.messages session)) in
      let target :=
        match lastLocMsg with
        | Some m =>
            if present_and_valid (Message.suggestedLocation m)
            then Message.suggestedLocation m else None
        | None => None
        end in
      {| userLocation := userLocation st;
         targetLocation := target;
         input := input st;
         isLoading := isLoading st;
         isMobileMapOpen := isMobileMapOpen st;
         isSidebarOpen := false;
         sessions := sessions st;
         currentSessionId := Some sessionId;
         messages := ChatSession.messages session |}
  | None => st
  end.

(** [sessionId === currentSessionId] *)
Definition is_current (sessionId : jsstring) (st : State) : bool :=
  match currentSessionId st with
  | Some cur => str_eqb sessionId cur
  | None => false
  end.

(** [deleteSession(e, sessionId)]; [confirmed] is the answer of
    [window.confirm]. *)
Definition deleteSession (confirmed : bool) (uuid : jsstring)
           (now1 now2 : Z) (sessionId : jsstring) (st : State) : State :=
  if confirmed then
    let newSessions :=
      filter (fun s => negb (str_eqb (ChatSession.id s) sessionId))
             (sessions st) in
    let st1 := set_sessions newSessions st in
    if is_current sessionId st then
      match newSessions with
      | first :: _ => loadSession_in (sessions st) (ChatSession.id first) st1
      | [] => createNewSession uuid now1 now2 st1
      end
    else st1
  else st.

(** [sessions.sort((a, b) => b.updatedAt - a.updatedAt)]: the stable
    order by decreasing [updatedAt]. *)
Fixpoint insert_recent (x : ChatSession.t) (l : list ChatSession.t)
  : list ChatSession.t :=
  match l with
  | [] => [x]
  | y :: l' =>
      if (ChatSession.updatedAt x <? ChatSession.updatedAt y)%Z
      then y :: insert_recent x l'
      else x :: l
  end.

Fixpoint sort_recent (l : list ChatSession.t) : list ChatSession.t :=
  match l with
  | [] => []
  | x :: l' => insert_recent x (sort_recent l')
  end.

(** [!currentSessionId] *)
Definition no_current (st : State) : bool :=
  match currentSessionId st with
  | Some (_ :: _) => false
  | _ => true
  end.

(** The effect run once on mount.  [sort] reorders the array held by the
    state before [loadSession] looks the session up. *)
Definition ensureActiveSession (uuid : jsstring) (now1 now2 : Z) (st : State)
  : State :=
  if (length (sessions st) =? 0)%nat && no_current st then
    createNewSession uuid now1 now2 st
  else if (0 <? length (sessions st))%nat && no_current st then
    let sorted := sort_recent (sessions st) in
    match sorted with
    | mostRecent :: _ =>
        loadSession (ChatSession.id mostRecent) (set_sessions sorted st)
    | [] => st
    end
  else st.

(** [handleManualLocationSelect] and [handleClearTarget]. *)
Definition handleManualLocationSelect (loc : GeoLocation) (st : State)
  : State := set_targetLocation (Some loc) st.

Definition handleClearTarget (st : State) : State :=
  set_targetLocation None st.

(** Local storage as a function of the key, and [setItem]. *)
Definition setItem (key value : jsstring)
           (storage : jsstring -> option jsstring)
  : jsstring -> option jsstring :=
  fun k => if str_eqb k key then Some value else storage k.

(** The effect that saves the sessions whenever they change. *)
Definition saveSessions (JSON_stringify : list ChatSession.t -> jsstring)
           (sessions : list ChatSession.t)
           (storage : jsstring -> option jsstring)
  : jsstring -> option jsstring :=
  if (0 <? length sessions)%nat
  then setItem Store.SESSIONS_KEY (JSON_stringify sessions) storage
  else storage.

(** One event of the running application: a send, the settling of the
    awaited call, or a handler or effect that only touches the state. *)
Inductive event : Type :=
| ESend (env : Env) (textOverride : option jsstring)
| ESettle (ai : Gemini.Request -> Gemini.outcome) (env : Env)
| ESwitch (sessionId : jsstring)
| ECreate (uuid : jsstring) (now1 now2 : Z)
| EDelete (confirmed : bool) (uuid : jsstring) (now1 now2 : Z)
          (sessionId : jsstring)
| ESync (now : Z)
| ESelect (loc : GeoLocation)
| EClear.

Definition on_app (f : State -> State) (w : World) : World :=
  {| app := f (app w); inflight := inflight w; console := console w |}.

Definition run_event (e : event) (w : World) : World :=
  match e with
  | ESend env textOverride => send env textOverride w
  | ESettle ai env => settle ai env w
  | ESwitch sessionId => on_app (loadSession sessionId) w
  | ECreate uuid now1 now2 => on_app (createNewSession uuid now1 now2) w
  | EDelete confirmed uuid now1 now2 sessionId =>
      on_app (deleteSession confirmed uuid now1 now2 sessionId) w
  | ESync now => on_app (syncSessions now) w
  | ESelect loc => on_app (handleManualLocationSelect loc) w
  | EClear => on_app handleClearTarget w
  end.

Definition run_events (es : list event) (w : World) : World :=
  fold_left (fun w e => run_event e w) es w.

(** The same effect with its guard [if (!currentSessionId) return]
    written apart from the rewriting of the sessions. *)
Definition syncEffect (now : Z) (st : State) : State :=
  if no_current st then st else syncSessions now st.

(** The [relatedLocations] handed to the map after a render of [st]. *)
Definition pins (st : State) : list GeoLocation :=
  MapComponent.validRelated (relatedLocations st).

End Lifecycle.

(* ===================================================================== *)
(** ** The map component: controls *)
(* ===================================================================== *)

Module MapControls.

Import MapComponent.

(** The effect of [MapRecenter]. *)
Definition MapRecenter (trigger : nat) (location : option GeoLocation)
  : ViewportCommand :=
  match location with
  | Some l =>
      if (0 <? trigger)%nat && isValidLocation (nullable_val location)
      then FlyTo (point l) 16%Z (of_decimal false 15 1)
      else NoOp
  | None => NoOp
  end.

Definition NO_USER_LOCATION : jsstring :=
  js "User location not available yet.".

(** [handleRecenter]: the new trigger and the alert shown, if any. *)
Definition handleRecenter (recenterTrigger : nat)
           (userLocation : option GeoLocation) : nat * option jsstring :=
  if isValidLocation (nullable_val userLocation)
  then (recenterTrigger + 1, None)
  else (recenterTrigger, Some NO_USER_LOCATION).

(** The click handler of [LocationSelector]: what is passed to
    [onSelect], if anything. *)
Definition click (latlng : GeoLocation) : option GeoLocation :=
  if typeof_number (JNum (lat latlng)) && negb (isNaN (lat latlng))
     && typeof_number (JNum (lng latlng)) && negb (isNaN (lng latlng))
  then Some {| lat := lat latlng; lng := lng latlng |}
  else None.

(** The text [handleQuickExplore] hands to [onTriggerChat]. *)
Definition quickExploreText (targetLocation : option GeoLocation)
           (query : jsstring) : jsstring :=
  let context :=
    if truthy (nullable_val targetLocation)
    then js "around the selected location" else js "around here" in
  js "Find " ++ query ++ js " " ++ context.

(** [defaultPosition] and the [center] of the [MapContainer]. *)
Definition defaultPosition : number * number :=
  (of_decimal false 51505 3, of_decimal true 9 2).

Definition center (userLocation : option GeoLocation) : number * number :=
  match userLocation with
  | Some u =>
      if isValidLocation (nullable_val userLocation) then point u
      else defaultPosition
  | None => defaultPosition
  end.




(** What the component hands to [MapUpdater]. *)
Definition viewport (userLocation targetLocation : option GeoLocation)
           (relatedLocations : option (list GeoLocation))
  : result ViewportCommand :=
  MapUpdater (activeTarget userLocation targetLocation)
             (Some (validRelated relatedLocations)).

End MapControls.

(* ===================================================================== *)
(** ** components/ChatBubble.tsx: the source cards *)
(* ===================================================================== *)

Module ChatBubble.

(** What [GroundingSourceCard] renders: a link to a map place, a link to
    a web page, or nothing. *)
Inductive card : Type :=
| MapsCard (href title : option jsstring)
| WebCard (href title : option jsstring)
| NoCard.

Definition GroundingSourceCard (chunk : GroundingChunk) : card :=
  match maps chunk with
  | Some m => MapsCard (Source.uri m) (Source.title m)
  | None =>
      match web chunk with
      | Some w => WebCard (Source.uri w) (Source.title w)
      | None => NoCard
      end
  end.

(** The cards of the "Sources" block of a bubble: shown for a model
    message with at least one grounding chunk. *)
Definition sources (message : Message.t) : list card :=
  match Message.role message, Message.groundingChunks message with
  | model, Some (c :: chunks) => map GroundingSourceCard (c :: chunks)
  | _, _ => []
  end.

Definition is_maps_card (c : card) : bool :=
  match c with MapsCard _ _ => true | _ => false end.

End ChatBubble.

(* ===================================================================== *)
(** ** Further vocabulary *)
(* ===================================================================== *)

Module Spec2.

Import App Lifecycle.

(** The last character of a string. *)
Definition last_char (s : jsstring) : option char :=
  match rev s with c :: _ => Some c | [] => None end.

(** A string that neither starts nor ends with white space. *)
Definition no_outer_space (s : jsstring) : Prop :=
  (forall c r, s = c :: r -> is_space c = false)
  /\ (forall c, last_char s = Some c -> is_space c = false).

(** A message that can be sanitized: not [null] nor [undefined], and its
    [relatedLocations], when there is one, is an array. *)
Definition message_ok (m : jsval) : Prop :=
  m <> JNull /\ m <> JUndefined
  /\ (field m (js "relatedLocations") = JUndefined
      \/ field m (js "relatedLocations") = JNull
      \/ exists l, field m (js "relatedLocations") = JArr l).

(** A session that can be sanitized: its [messages] is an array of such
    messages. *)
Definition session_ok (s : jsval) : Prop :=
  exists ms, field s (js "messages") = JArr ms /\ Forall message_ok ms.

(** The messages of a loaded session are clean. *)
Definition session_clean (s : jsval) : Prop :=
  exists ms,
    field s (js "messages") = JArr ms
    /\ Forall (fun m => Spec.clean_suggested m /\ Spec.clean_related m) ms.

(** At most one call is awaited, and exactly when [isLoading] holds. *)
Definition one_call_at_most (w : World) : Prop :=
  (isLoading (app w) = false /\ inflight w = [])
  \/ (isLoading (app w) = true /\ exists call, inflight w = [call]).

(** The title derived from the text of the first user message. *)
Definition derived_title (t : jsstring) : jsstring :=
  slice0 30 t ++ (if (30 <? length t)%nat then js "..." else []).

(** Sessions in order of decreasing [updatedAt]. *)
Fixpoint recent_first (l : list ChatSession.t) : Prop :=
  match l with
  | [] => True
  | x :: l' =>
      Forall (fun y => (ChatSession.updatedAt y <= ChatSession.updatedAt x)%Z)
             l'
      /\ recent_first l'
  end.

(** The message [handleSendMessage] builds from the text to send. *)
Definition user_message (uuid : jsstring) (now : Z) (textToSend : jsstring)
  : Message.t :=
  {| Message.id := uuid;
     Message.role := user;
     Message.text := trim textToSend;
     Message.groundingChunks := None;
     Message.timestamp := now;
     Message.suggestedLocation := None;
     Message.relatedLocations := None |}.

(** [targetLocation || userLocation] *)
Definition context_location (st : State) : option GeoLocation :=
  match targetLocation st with
  | Some t => Some t
  | None => userLocation st
  end.

End Spec2.

(* ===================================================================== *)
(** ** Further sample data *)
(* ===================================================================== *)

Module Sample2.

Import App Sample.

(** A stored collection whose second session holds [null] where a
    message should be. *)
Definition broken_sessions : list jsval :=
  stored_sessions
  ++ [JObj [(js "id", JStr (js "s2"));
            (js "title", JStr (js "Broken"));
            (js "messages", JArr [JNull]);
            (js "updatedAt", JNum (of_Z 8))]].

Definition sessions_blob : jsstring := js "<sessions>".

Definition sessions_storage (key : jsstring) : option jsstring :=
  if str_eqb key Store.SESSIONS_KEY then Some sessions_blob
  else if str_eqb key Store.HISTORY_KEY then Some legacy_blob
  else None.

Definition broken_parse (text : jsstring) : result jsval :=
  if str_eqb text sessions_blob then Ok (JArr broken_sessions)
  else legacy_parse text.

(** A session being written, and a state in which it is active. *)
Definition fresh_session : ChatSession.t :=
  {| ChatSession.id := js "s7";
     ChatSession.title := DEFAULT_TITLE;
     ChatSession.messages := [];
     ChatSession.updatedAt := 5 |}.

Definition st_active : State :=
  {| userLocation := Some tokyo;
     targetLocation := None;
     input := js "";
     isLoading := false;
     isMobileMapOpen := true;
     isSidebarOpen := false;
     sessions := [mixed_session; fresh_session];
     currentSessionId := Some (js "s7");
     messages := [msg "m0" model "Welcome." None None;
                  msg "m1" user
                      "Where can I find a good bakery in the old town?"
                      None None] |}.

(** A serializer that writes one fixed text, and a parser that reads it
    back as the stored collection. *)
Definition const_stringify (l : list ChatSession.t) : jsstring :=
  sessions_blob.

Definition stored_parse (text : jsstring) : result jsval :=
  if str_eqb text sessions_blob then Ok (JArr stored_sessions)
  else legacy_parse text.

End Sample2.

(* ===================================================================== *)
(** * Properties *)
(* ===================================================================== *)

Unset Implicit Arguments.

(** ** The location validator *)

Section ValidatorFacts.

Import Spec.

Lemma validators_agree (v : jsval) : isValidStoredLoc v = isValidLocation v.
Proof. reflexivity. Qed.

Lemma finite_not_nan (n : number) : isFinite n = true -> isNaN n = false.
Proof. destruct n; simpl; congruence. Qed.




Lemma valid_loc_val (l : GeoLocation) :
  isValidStoredLoc (loc_val l) = isFinite (lat l) && isFinite (lng l).
Proof.
  destruct l as [la ln]. unfold isValidStoredLoc, loc_val. simpl.
  destruct la, ln; reflexivity.
Qed.

End ValidatorFacts.

(** ** Strings and property lists *)

Section StringFacts.

Lemma str_eqb_eq (a b : jsstring) : str_eqb a b = true <-> a = b.
Proof.
  unfold str_eqb. destruct (list_eq_dec N.eq_dec a b); split;
    congruence.
Qed.

Lemma str_eqb_refl (a : jsstring) : str_eqb a a = true.
Proof. apply str_eqb_eq. reflexivity. Qed.

Lemma str_eqb_neq (a b : jsstring) : a <> b -> str_eqb a b = false.
Proof.
  intros H. destruct (str_eqb a b) eqn:E; [|reflexivity].
  apply str_eqb_eq in E. contradiction.
Qed.

End StringFacts.

Section PropsFacts.

Import Store.

Lemma lookup_obj_set_same (k : jsstring) (v : jsval) (o : props) :
  lookup k (obj_set k v o) = v.
Proof.
  induction o as [|[k' v'] o IH]; simpl.
  - rewrite str_eqb_refl. reflexivity.
  - destruct (str_eqb k' k) eqn:E; simpl.
    + rewrite str_eqb_refl. reflexivity.
    + rewrite E. exact IH.
Qed.

Lemma lookup_obj_set_other (k k0 : jsstring) (v : jsval) (o : props) :
  k0 <> k -> lookup k0 (obj_set k v o) = lookup k0 o.
Proof.
  intros N. induction o as [|[k' v'] o IH]; simpl.
  - rewrite str_eqb_neq by congruence. reflexivity.
  - destruct (str_eqb k' k) eqn:E; simpl.
    + apply str_eqb_eq in E. subst k'.
      rewrite !(str_eqb_neq k k0) by congruence. reflexivity.
    + destruct (str_eqb k' k0); [reflexivity | exact IH].
Qed.

(** Writing twice under one key keeps the last value only. *)
Lemma obj_set_twice (k : jsstring) (v v' : jsval) (o : props) :
  obj_set k v (obj_set k v' o) = obj_set k v o.
Proof.
  induction o as [|[k' w] o IH]; simpl.
  - rewrite str_eqb_refl. reflexivity.
  - destruct (str_eqb k' k) eqn:E; simpl.
    + rewrite str_eqb_refl. reflexivity.
    + rewrite E, IH. reflexivity.
Qed.

(** Writes under different keys commute once the first key exists. *)
Lemma obj_set_swap (k1 k2 : jsstring) (v1 v2 w : jsval) (o : props) :
  k1 <> k2 ->
  obj_set k1 v1 (obj_set k2 v2 (obj_set k1 w o))
  = obj_set k2 v2 (obj_set k1 v1 o).
Proof.
  intros N. induction o as [|[k' u] o IH]; simpl.
  - rewrite (str_eqb_neq _ _ N). simpl. rewrite str_eqb_refl. reflexivity.
  - destruct (str_eqb k' k1) eqn:E1; simpl.
    + apply str_eqb_eq in E1. subst k'.
      rewrite (str_eqb_neq _ _ N). simpl. rewrite str_eqb_refl. reflexivity.
    + destruct (str_eqb k' k2) eqn:E2; simpl.
      * apply str_eqb_eq in E2. subst k'.
        assert (N' : k2 <> k1) by congruence.
        rewrite (str_eqb_neq _ _ N'). rewrite obj_set_twice. reflexivity.
      * rewrite E1, IH. reflexivity.
Qed.

End PropsFacts.

(** ** Sanitization of stored data *)

Section SanitizeFacts.

Import Store Spec.

Local Abbreviation SL := (js "suggestedLocation").
Local Abbreviation RL := (js "relatedLocations").
Local Abbreviation MS := (js "messages").

Lemma SL_RL : SL <> RL.
Proof. discriminate. Qed.

Lemma RL_SL : RL <> SL.
Proof. discriminate. Qed.

Lemma kept_kept (v : jsval) : kept (kept v) = kept v.
Proof.
  unfold kept. destruct (isValidStoredLoc v) eqn:E.
  - rewrite E. reflexivity.
  - reflexivity.
Qed.

Lemma bind_ok {A B} (r : result A) (f : A -> result B) (b : B) :
  bind r f = Ok b -> exists a, r = Ok a /\ f a = Ok b.
Proof. destruct r; simpl; [eauto | discriminate]. Qed.

Lemma get_ok (v : jsval) (k : jsstring) (x : jsval) :
  get v k = Ok x -> x = field v k /\ v <> JNull /\ v <> JUndefined.
Proof.
  destruct v; simpl; try discriminate;
    intros H; injection H as <-; repeat split; discriminate.
Qed.

Lemma opt_filter_ok (v x : jsval) (p : jsval -> bool) :
  opt_filter v p = Ok x ->
  ((v = JUndefined \/ v = JNull) /\ x = JUndefined)
  \/ exists l, v = JArr l /\ x = JArr (filter p l).
Proof.
  destruct v; simpl; try discriminate; intros H; injection H as <-; eauto.
Qed.

Lemma opt_filter_idem (v x : jsval) (p : jsval -> bool) :
  opt_filter v p = Ok x -> opt_filter x p = Ok x.
Proof.
  intros H. apply opt_filter_ok in H.
  destruct H as [[_ ->] | (l & _ & ->)]; simpl; [reflexivity|].
  f_equal. f_equal. induction l as [|a l IH]; simpl; [reflexivity|].
  destruct (p a) eqn:E; simpl; [rewrite E; f_equal|]; exact IH.
Qed.

(** The shape of a sanitized message. *)
Lemma sanitize_message_ok (m m' : jsval) :
  sanitize_message m = Ok m' ->
  exists rl',
    opt_filter (field m RL) isValidStoredLoc = Ok rl'
    /\ m' = JObj (obj_set RL rl' (obj_set SL (kept (field m SL)) (spread m))).
Proof.
  unfold sanitize_message. intros H.
  apply bind_ok in H. destruct H as (sl & Hsl & H).
  apply bind_ok in H. destruct H as (rl & Hrl & H).
  apply bind_ok in H. destruct H as (rl' & Hf & H).
  apply get_ok in Hsl. destruct Hsl as (-> & _).
  apply get_ok in Hrl. destruct Hrl as (-> & _).
  injection H as <-. exists rl'. split; [exact Hf | reflexivity].
Qed.

Lemma sanitize_message_obj (o : props) :
  sanitize_message (JObj o) =
  (rl' <- opt_filter (lookup RL o) isValidStoredLoc ;;
   Ok (JObj (obj_set RL rl' (obj_set SL (kept (lookup SL o)) o)))).
Proof. reflexivity. Qed.

Lemma sanitize_message_idem (m m' : jsval) :
  sanitize_message m = Ok m' -> sanitize_message m' = Ok m'.
Proof.
  intros H. apply sanitize_message_ok in H.
  destruct H as (rl' & Hf & ->).
  rewrite sanitize_message_obj.
  rewrite lookup_obj_set_same.
  rewrite (lookup_obj_set_other RL SL) by exact SL_RL.
  rewrite lookup_obj_set_same, kept_kept.
  rewrite (opt_filter_idem _ _ _ Hf). simpl.
  rewrite obj_set_swap by exact RL_SL.
  rewrite obj_set_swap by exact SL_RL. reflexivity.
Qed.

Lemma mapM_idem {A} (f : A -> result A) (l l' : list A) :
  (forall a b, f a = Ok b -> f b = Ok b) ->
  mapM f l = Ok l' -> mapM f l' = Ok l'.
Proof.
  intros Hf. revert l'. induction l as [|a l IH]; simpl; intros l' H.
  - injection H as <-. reflexivity.
  - apply bind_ok in H. destruct H as (b & Hb & H).
    apply bind_ok in H. destruct H as (bs & Hbs & H).
    injection H as <-. simpl.
    rewrite (Hf _ _ Hb). simpl. rewrite (IH _ Hbs). reflexivity.
Qed.

Lemma sanitize_session_ok (s s' : jsval) :
  sanitize_session s = Ok s' ->
  exists l l',
    field s MS = JArr l /\ mapM sanitize_message l = Ok l'
    /\ s' = JObj (obj_set MS (JArr l') (spread s)).
Proof.
  unfold sanitize_session. intros H.
  apply bind_ok in H. destruct H as (ms & Hms & H).
  apply bind_ok in H. destruct H as (ms' & Hmap & H).
  apply get_ok in Hms. destruct Hms as (-> & _).
  injection H as <-.
  destruct (field s (js "messages")) eqn:E; simpl in Hmap;
    try discriminate.
  apply bind_ok in Hmap. destruct Hmap as (l' & Hl' & Hmap).
  injection Hmap as <-. exists l, l'. auto.
Qed.

Lemma sanitize_session_idem (s s' : jsval) :
  sanitize_session s = Ok s' -> sanitize_session s' = Ok s'.
Proof.
  intros H. apply sanitize_session_ok in H.
  destruct H as (l & l' & _ & Hmap & ->).
  unfold sanitize_session, get, field, spread.
  cbn [bind]. rewrite lookup_obj_set_same.
  unfold arr_map.
  rewrite (@mapM_idem _ _ _ _ sanitize_message_idem Hmap). cbn [bind].
  rewrite obj_set_twice. reflexivity.
Qed.

End SanitizeFacts.

(** ** Loading the session collection *)

Section LoadFacts.

Import Store Spec.

Local Abbreviation SL := (js "suggestedLocation").
Local Abbreviation RL := (js "relatedLocations").
Local Abbreviation MS := (js "messages").

Lemma sanitize_message_shaped (m : jsval) :
  message_shaped m ->
  exists m', sanitize_message m = Ok m' /\ sanitized_from m m'.
Proof.
  intros (o & -> & Hrl). rewrite sanitize_message_obj.
  assert (Hother : forall rl' k, k <> SL -> k <> RL ->
            lookup k (obj_set RL rl' (obj_set SL (kept (lookup SL o)) o))
            = lookup k o).
  { intros rl' k N1 N2. rewrite !lookup_obj_set_other by assumption.
    reflexivity. }
  assert (Hsl : forall rl',
            lookup SL (obj_set RL rl' (obj_set SL (kept (lookup SL o)) o))
            = kept (lookup SL o)).
  { intros rl'. rewrite lookup_obj_set_other by exact SL_RL.
    apply lookup_obj_set_same. }
  destruct Hrl as [E | [E | (l & E)]]; rewrite E; cbn [opt_filter bind];
    eexists; (split; [reflexivity|]);
    eexists o, _; repeat split; auto;
    rewrite lookup_obj_set_same; eauto.
Qed.

Lemma sanitize_messages_shaped (ms : list jsval) :
  Forall message_shaped ms ->
  exists ms', mapM sanitize_message ms = Ok ms'
              /\ Forall2 sanitized_from ms ms'.
Proof.
  induction 1 as [|m ms Hm _ (ms' & E & F)]; simpl.
  - exists []. split; [reflexivity | constructor].
  - destruct (sanitize_message_shaped _ Hm) as (m' & Em & Fm).
    rewrite Em. cbn [bind]. rewrite E. cbn [bind].
    exists (m' :: ms'). split; [reflexivity | constructor; assumption].
Qed.

Lemma sanitize_session_shaped (s : jsval) :
  session_shaped s ->
  exists s', sanitize_session s = Ok s' /\ session_sanitized_from s s'.
Proof.
  intros (o & ms & -> & Hms & Hshape).
  destruct (sanitize_messages_shaped _ Hshape) as (ms' & E & F).
  unfold sanitize_session, get, field. cbn [bind]. rewrite Hms.
  unfold arr_map. rewrite E. cbn [bind spread].
  eexists. split; [reflexivity|].
  exists o, (obj_set MS (JArr ms') o), ms, ms'. repeat split; auto.
  - intros k N. apply lookup_obj_set_other. exact N.
  - apply lookup_obj_set_same.
Qed.

Lemma sanitize_sessions_shaped (l : list jsval) :
  Forall session_shaped l ->
  exists l', sanitize_sessions l = Ok l'
             /\ Forall2 session_sanitized_from l l'.
Proof.
  unfold sanitize_sessions.
  induction 1 as [|s l Hs _ (l' & E & F)]; simpl.
  - exists []. split; [reflexivity | constructor].
  - destruct (sanitize_session_shaped _ Hs) as (s' & Es & Fs).
    rewrite Es. cbn [bind]. rewrite E. cbn [bind].
    exists (s' :: l'). split; [reflexivity | constructor; assumption].
Qed.

Variable getItem : jsstring -> option jsstring.
Variable JSON_parse : jsstring -> result jsval.
Variable uuid : jsstring.
Variable now : Z.

Local Abbreviation load := (load getItem JSON_parse uuid now).
Local Abbreviation load_try := (load_try getItem JSON_parse uuid now).
Local Abbreviation migrate := (migrate getItem JSON_parse uuid now).

Lemma load_try_no_array :
  no_session_array getItem JSON_parse -> load_try = migrate.
Proof.
  unfold Store.load_try.
  intros [E | [E | (saved & v & E & P & NA)]]; rewrite E;
    try reflexivity.
  destruct saved as [|c saved]; [reflexivity|].
  rewrite P. cbn [bind]. destruct v; try reflexivity.
  exfalso. eapply NA. reflexivity.
Qed.

End LoadFacts.

(** ** The viewport decision *)

Section ViewportFacts.

Import Leaflet MapComponent.

Lemma valid_point_not_nan (l : GeoLocation) :
  valid l = true -> isNaN (lat l) || isNaN (lng l) = false.
Proof.
  unfold valid. rewrite <- validators_agree, valid_loc_val.
  intros H. apply andb_true_iff in H. destruct H as [Fa Fn].
  rewrite (finite_not_nan _ Fa), (finite_not_nan _ Fn). reflexivity.
Qed.

(** Once a corner is set, extending with valid points keeps the bounds
    initialised and never throws. *)
Lemma extend_all_valid (ls : list GeoLocation) (b : LatLng * LatLng) :
  Forall (fun l => valid l = true) ls ->
  exists b', extend_all (Some b) (map point ls) = Ok (Some b').
Proof.
  intros H. revert b.
  induction H as [|l ls Hl _ IH]; intros b; simpl.
  - eauto.
  - unfold toLatLng, point at 1. simpl fst. simpl snd.
    rewrite (valid_point_not_nan _ Hl). cbn [bind].
    destruct b as [sw ne]. unfold extend. apply IH.
Qed.

Lemma latLngBounds_valid (ls : list GeoLocation) :
  Forall (fun l => valid l = true) ls -> ls <> [] ->
  exists b, latLngBounds (map point ls) = Ok b /\ isValid b = true.
Proof.
  intros H N. destruct H as [|l ls Hl Hls]; [congruence|].
  unfold latLngBounds. simpl.
  unfold toLatLng, point at 1. simpl fst. simpl snd.
  rewrite (valid_point_not_nan _ Hl). cbn [bind extend].
  destruct (extend_all_valid _ (point l, point l) Hls) as (b' & E).
  exists (Some b'). split; [exact E | reflexivity].
Qed.

Lemma validRelated_valid (related : option (list GeoLocation)) :
  Forall (fun l => valid l = true) (validRelated related).
Proof.
  destruct related as [l|]; simpl; [|constructor].
  apply Forall_forall. intros x Hx. apply filter_In in Hx. tauto.
Qed.

Lemma length_pos {A} (l : list A) : (0 <? length l)%nat = true <-> l <> [].
Proof.
  destruct l; simpl; split; intros; try congruence; try discriminate.
  reflexivity.
Qed.

End ViewportFacts.

Section ViewportDecision.

Import Leaflet MapComponent Spec Sample.

Lemma MapUpdater_points (target : option GeoLocation)
      (related : option (list GeoLocation)) :
  validRelated related <> [] ->
  MapUpdater target related =
  (bounds <- latLngBounds (map point (fit_points target related)) ;;
   if isValid bounds
   then Ok (FitBounds bounds (50, 50)%Z 15%Z true (of_decimal false 15 1))
   else Ok NoOp).
Proof.
  intros N. unfold MapUpdater, fit_points, valid_target.
  apply length_pos in N. rewrite N.
  assert (P : forall ps : list (number * number),
             ps <> [] -> (0 <? length ps)%nat = true).
  { intros ps Hps. apply length_pos. exact Hps. }
  assert (Q : map point (validRelated related) <> []).
  { apply length_pos in N. destruct (validRelated related);
      [congruence | discriminate]. }
  destruct target as [t|].
  - change (isValidLocation (nullable_val (Some t))) with (valid t).
    destruct (valid t).
    + rewrite map_app. simpl map.
      rewrite P; [reflexivity|].
      intros E. apply app_eq_nil in E. destruct E as [_ E]. discriminate.
    + rewrite app_nil_r. rewrite (P _ Q). reflexivity.
  - rewrite app_nil_r. rewrite (P _ Q). reflexivity.
Qed.

Lemma fit_points_valid (target : option GeoLocation)
      (related : option (list GeoLocation)) :
  Forall (fun l => valid l = true) (fit_points target related).
Proof.
  unfold fit_points. apply Forall_app. split.
  - apply validRelated_valid.
  - unfold valid_target. destruct target as [t|]; [|constructor].
    destruct (valid t) eqn:E; constructor; [exact E | constructor].
Qed.

(** C3 (amended): with a valid related location, [fitBounds] is called
    on the bounds of the valid related locations followed by the valid
    target, whatever the target is and also when the bounds reduce to a
    point; without one, a valid target gives [flyTo] at zoom 15 for 2
    seconds; otherwise nothing is called. *)
Theorem viewport_decision (target : option GeoLocation)
        (related : option (list GeoLocation)) :
  (validRelated related <> [] ->
   exists b,
     latLngBounds (map point (fit_points target related)) = Ok b
     /\ isValid b = true
     /\ MapUpdater target related
        = Ok (FitBounds b (50, 50)%Z 15%Z true (of_decimal false 15 1)))
  /\ (validRelated related = [] ->
      forall t, target = Some t -> valid t = true ->
                MapUpdater target related
                = Ok (FlyTo (point t) 15%Z (of_Z 2)))
  /\ (validRelated related = [] -> valid_target target = [] ->
      MapUpdater target related = Ok NoOp).
Proof.
  split; [|split].
  - intros N. rewrite (MapUpdater_points target related N).
    destruct (latLngBounds_valid (fit_points target related))
      as (b & E & V).
    + apply fit_points_valid.
    + unfold fit_points. intros H. apply app_eq_nil in H. tauto.
    + exists b. rewrite E. cbn [bind]. rewrite V. auto.
  - intros E t -> V. unfold MapUpdater. rewrite E. simpl.
    change (isValidLocation (loc_val t)) with (valid t). rewrite V.
    reflexivity.
  - intros E T. unfold MapUpdater. rewrite E. simpl.
    unfold valid_target in T. destruct target as [t|]; [|reflexivity].
    change (isValidLocation (nullable_val (Some t))) with (valid t).
    destruct (valid t); [discriminate | reflexivity].
Qed.

(** The three cases on the sample places: a cluster, a lone target, and
    nothing at all. *)
Lemma viewport_decision_witness :
  (exists b,
      MapUpdater (Some paris) (Some [tokyo; far_away])
      = Ok (FitBounds b (50, 50)%Z 15%Z true (of_decimal false 15 1)))
  /\ MapUpdater (Some paris) (Some [unbounded])
     = Ok (FlyTo (point paris) 15%Z (of_Z 2))
  /\ MapUpdater None None = Ok NoOp.
Proof.
  split; [|split].
  - destruct (proj1 (viewport_decision (Some paris)
                                       (Some [tokyo; far_away])))
      as (b & _ & _ & E).
    + discriminate.
    + exists b. exact E.
  - apply (proj1 (proj2 (viewport_decision (Some paris)
                                           (Some [unbounded]))));
      reflexivity.
  - apply (proj2 (proj2 (viewport_decision None None))); reflexivity.
Defined.

(** C3, counterexample: one valid related location and no target span
    a single point, and [fitBounds] is called all the same. *)
Lemma viewport_single_point_fits :
  MapUpdater None (Some [tokyo])
  = Ok (FitBounds (Some (point tokyo, point tokyo)) (50, 50)%Z 15%Z true
                  (of_decimal false 15 1))
  /\ MapUpdater None (Some [tokyo]) <> Ok NoOp.
Proof. split; [reflexivity | discriminate]. Qed.

End ViewportDecision.

(** ** The calls [MapUpdater] can make *)

Section ViewportCases.

Import Leaflet MapComponent Spec.

Lemma MapUpdater_fly (target : option GeoLocation)
      (related : option (list GeoLocation)) (x : GeoLocation) :
  validRelated related = [] -> target = Some x -> valid x = true ->
  MapUpdater target related = Ok (FlyTo (point x) 15%Z (of_Z 2)).
Proof.
  intros E -> V. unfold MapUpdater. rewrite E. simpl.
  change (isValidLocation (loc_val x)) with (valid x). rewrite V.
  reflexivity.
Qed.




End ViewportCases.

(** ** The conversation controller *)

Section ControllerFacts.

Import Gemini App Spec Sample.

(** C7: a send with blank text, or while [isLoading] holds, returns
    before any setter is called: the whole world (messages, sessions,
    map state, awaited calls) is left as it was. *)
Theorem send_rejected_is_noop (env : Env) (textOverride : option jsstring)
        (w : World) :
  trim (match textOverride with
        | Some t => t
        | None => input (app w)
        end) = []
  \/ isLoading (app w) = true ->
  send env textOverride w = w.
Proof.
  intros H. unfold send, handleSendMessage_begin.
  destruct H as [H | H].
  - rewrite H. reflexivity.
  - rewrite H, orb_true_r. reflexivity.
Qed.

Lemma send_rejected_is_noop_witness :
  send env0 (Some (js "   ")) w_idle = w_idle
  /\ send env0 (Some (js "Where is Tokyo?")) w_pending = w_pending.
Proof.
  split.
  - apply (send_rejected_is_noop env0 (Some (js "   ")) w_idle).
    left. reflexivity.
  - apply (send_rejected_is_noop env0 (Some (js "Where is Tokyo?"))
                                 w_pending).
    right. reflexivity.
Defined.

(** An accepted send does append the user message and awaits one more
    call. *)
Lemma send_accepted (env : Env) (textOverride : option jsstring)
      (w : World) (st : State) (call : Call) :
  handleSendMessage_begin (uuid env) (now env) textOverride (app w)
  = Some (st, call) ->
  inflight (send env textOverride w) = inflight w ++ [call]
  /\ messages st = currentHistory call
  /\ exists userMsg, messages st = messages (app w) ++ [userMsg]
                     /\ Message.role userMsg = user.
Proof.
  intros H. unfold send. rewrite H. simpl. split; [reflexivity|].
  unfold handleSendMessage_begin in H.
  destruct (negb _ || isLoading (app w)); [discriminate|].
  injection H as <- <-. simpl. split; [reflexivity|].
  eexists. split; reflexivity.
Qed.

End ControllerFacts.

Section FailureFacts.

Import Gemini App Spec Sample.

Lemma syncSessions_keeps (t : Z) (st : State) :
  messages (syncSessions t st) = messages st
  /\ targetLocation (syncSessions t st) = targetLocation st
  /\ userLocation (syncSessions t st) = userLocation st
  /\ isLoading (syncSessions t st) = isLoading st.
Proof.
  unfold syncSessions. destruct (currentSessionId st) as [[|c cur]|]; auto.
Qed.

Lemma syncSessions_current (t : Z) (st : State) :
  currentSessionId (syncSessions t st) = currentSessionId st.
Proof.
  unfold syncSessions.
  destruct (currentSessionId st) as [[|c cur]|] eqn:Hc;
    [exact Hc | reflexivity | exact Hc].
Qed.

(** Without an active id the effect changes nothing. *)
Lemma syncSessions_idle (t : Z) (st : State) :
  currentSessionId st = None \/ currentSessionId st = Some [] ->
  syncSessions t st = st.
Proof. intros [H | H]; unfold syncSessions; rewrite H; reflexivity. Qed.

(** With one, it rewrites the sessions of that id. *)
Lemma syncSessions_active (t : Z) (st : State) (cur : jsstring) :
  currentSessionId st = Some cur -> cur <> [] ->
  syncSessions t st
  = {| userLocation := userLocation st;
       targetLocation := targetLocation st;
       input := input st;
       isLoading := isLoading st;
       isMobileMapOpen := isMobileMapOpen st;
       isSidebarOpen := isSidebarOpen st;
       sessions :=
         map (fun session =>
                if str_eqb (ChatSession.id session) cur then
                  let newTitle :=
                    if str_eqb (ChatSession.title session) DEFAULT_TITLE
                       && (1 <? length (messages st))%nat
                    then
                      match find (fun m => match Message.role m with
                                           | user => true
                                           | model => false
                                           end) (messages st) with
                      | Some firstUserMsg =>
                          slice0 30 (Message.text firstUserMsg)
                          ++ (if (30 <? length (Message.text firstUserMsg))%nat
                              then js "..." else [])
                      | None => ChatSession.title session
                      end
                    else ChatSession.title session in
                  {| ChatSession.id := ChatSession.id session;
                     ChatSession.title := newTitle;
                     ChatSession.messages := messages st;
                     ChatSession.updatedAt := t |}
                else session)
             (sessions st);
       currentSessionId := Some cur;
       messages := messages st |}.
Proof.
  intros Hc N. unfold syncSessions. rewrite Hc.
  destruct cur as [|c cur]; [congruence | reflexivity].
Qed.

Lemma relatedLocations_sync (t : Z) (st : State) :
  App.relatedLocations (syncSessions t st) = App.relatedLocations st.
Proof.
  unfold App.relatedLocations.
  rewrite (proj1 (syncSessions_keeps t st)). reflexivity.
Qed.

Lemma settle_rejected (ai : Request -> outcome) (env : Env) (w : World)
      (call : Call) (rest : list Call) (message : option jsstring) :
  inflight w = call :: rest ->
  ai (build_request (currentHistory call) (contextLocation call))
  = Rejected message ->
  settle ai env w
  = {| app := syncSessions (effect_now env)
                (set_isLoading false
                   (set_messages
                      (messages (app w) ++ [apology (uuid env) (now env)])
                      (app w)));
       inflight := rest;
       console := console w ++ [(js "Gemini API Error:", message)] |}.
Proof.
  intros Hq Hai. unfold settle, sendMessageToGemini. rewrite Hq, Hai.
  reflexivity.
Qed.

(** C8 (amended): when the awaited call is rejected, exactly one message
    is appended, the fixed apology without location fields;
    [userLocation] and [targetLocation] keep their values; the state
    does not depend on the error, which only reaches the console; the
    related locations shown on the map, being those of the newest model
    message, become absent. *)
Theorem failed_send_apologises (ai : Request -> outcome) (env : Env)
        (w : World) (call : Call) (rest : list Call)
        (message : option jsstring) :
  inflight w = call :: rest ->
  ai (build_request (currentHistory call) (contextLocation call))
  = Rejected message ->
  messages (app (settle ai env w))
  = messages (app w) ++ [apology (uuid env) (now env)]
  /\ Message.text (apology (uuid env) (now env)) = APOLOGY
  /\ Message.suggestedLocation (apology (uuid env) (now env)) = None
  /\ Message.relatedLocations (apology (uuid env) (now env)) = None
  /\ targetLocation (app (settle ai env w)) = targetLocation (app w)
  /\ userLocation (app (settle ai env w)) = userLocation (app w)
  /\ App.relatedLocations (app (settle ai env w)) = None
  /\ isLoading (app (settle ai env w)) = false
  /\ inflight (settle ai env w) = rest
  /\ console (settle ai env w)
     = console w ++ [(js "Gemini API Error:", message)]
  /\ (forall ai' message',
         ai' (build_request (currentHistory call) (contextLocation call))
         = Rejected message' ->
         app (settle ai' env w) = app (settle ai env w)).
Proof.
  intros Hq Hai. rewrite (settle_rejected ai env w _ _ _ Hq Hai). cbn [app].
  set (st1 := set_isLoading false _).
  destruct (syncSessions_keeps (effect_now env) st1) as (Em & Et & Eu & El).
  repeat split; try reflexivity.
  - rewrite Em. reflexivity.
  - rewrite Et. reflexivity.
  - rewrite Eu. reflexivity.
  - rewrite relatedLocations_sync. unfold App.relatedLocations.
    subst st1. cbn [messages set_isLoading set_messages].
    rewrite rev_app_distr. reflexivity.
  - rewrite El. reflexivity.
  - intros ai' message' Hai'.
    rewrite (settle_rejected ai' env w _ _ _ Hq Hai'). reflexivity.
Qed.

Lemma failed_send_apologises_witness :
  messages (app (settle (fun _ => Rejected (Some (js "HTTP 503")))
                        env0 w_pending))
  = messages st0 ++ [apology (js "id-1") 1000]
  /\ targetLocation (app (settle (fun _ => Rejected (Some (js "HTTP 503")))
                                 env0 w_pending))
     = Some paris.
Proof.
  destruct (failed_send_apologises
              (fun _ => Rejected (Some (js "HTTP 503"))) env0 w_pending
              {| currentHistory := messages st0;
                 contextLocation := Some paris |}
              [] (Some (js "HTTP 503")) eq_refl eq_refl)
    as (Hm & _ & _ & _ & Ht & _).
  split; [exact Hm | exact Ht].
Defined.

(** C8, counterexample: before the failure the map shows the related
    location of the last answer and fits its bounds; after it there is
    none left and the map flies to the target. *)
Lemma failed_send_changes_map :
  App.relatedLocations (app w_pending) = Some [tokyo]
  /\ App.relatedLocations
       (app (settle (fun _ => Rejected (Some (js "HTTP 503")))
                    env0 w_pending)) = None
  /\ MapComponent.MapUpdater
       (MapComponent.activeTarget (userLocation (app w_pending))
                                  (targetLocation (app w_pending)))
       (App.relatedLocations (app w_pending))
     <> MapComponent.MapUpdater
          (MapComponent.activeTarget
             (userLocation
                (app (settle (fun _ => Rejected (Some (js "HTTP 503")))
                             env0 w_pending)))
             (targetLocation
                (app (settle (fun _ => Rejected (Some (js "HTTP 503")))
                             env0 w_pending))))
          (App.relatedLocations
             (app (settle (fun _ => Rejected (Some (js "HTTP 503")))
                          env0 w_pending))).
Proof.
  split; [reflexivity | split; [reflexivity|]].
  vm_compute. discriminate.
Qed.

End FailureFacts.

Section SwitchFacts.

Import App Spec Sample.

Lemma truthy_optional (l : option GeoLocation) :
  truthy (optional_val l) = match l with Some _ => true | None => false end.
Proof. destruct l; reflexivity. Qed.

Lemma find_ext {A} (p q : A -> bool) (l : list A) :
  (forall a, In a l -> p a = q a) -> find p l = find q l.
Proof.
  induction l as [|a l IH]; simpl; intros H; [reflexivity|].
  rewrite (H a) by auto. destruct (q a); [reflexivity|].
  apply IH. intros b Hb. apply H. auto.
Qed.

Lemma loadSession_found (sessionId : jsstring) (st : State)
      (session : ChatSession.t) :
  find (fun s => str_eqb (ChatSession.id s) sessionId) (sessions st)
  = Some session ->
  messages (loadSession sessionId st) = ChatSession.messages session
  /\ currentSessionId (loadSession sessionId st) = Some sessionId
  /\ targetLocation (loadSession sessionId st)
     = match newest_located (ChatSession.messages session) with
       | Some m =>
           if present_and_valid (Message.suggestedLocation m)
           then Message.suggestedLocation m else None
       | None => None
       end.
Proof.
  intros H. unfold loadSession. rewrite H. cbn.
  repeat split. unfold newest_located.
  rewrite (find_ext
             (fun m => truthy (optional_val (Message.suggestedLocation m)))
             has_location); [reflexivity|].
  intros m _. unfold has_location. apply truthy_optional.
Qed.

Lemma present_and_valid_located (m : Message.t) :
  present_and_valid (Message.suggestedLocation m) = true ->
  has_location m = true.
Proof.
  unfold present_and_valid, has_location.
  destruct (Message.suggestedLocation m); [reflexivity | discriminate].
Qed.

(** C9 (amended): switching to an existing session installs its
    messages and takes the newest message that carries a
    [suggestedLocation]: that location becomes the target when it
    passes the validator, and the target is cleared when it does not or
    when no message carries one.  When every location present in the
    session is valid, this is the newest valid [suggestedLocation]. *)
Theorem switch_restores_target (sessionId : jsstring) (st : State)
        (session : ChatSession.t) :
  find (fun s => str_eqb (ChatSession.id s) sessionId) (sessions st)
  = Some session ->
  messages (loadSession sessionId st) = ChatSession.messages session
  /\ currentSessionId (loadSession sessionId st) = Some sessionId
  /\ targetLocation (loadSession sessionId st)
     = match newest_located (ChatSession.messages session) with
       | Some m =>
           if present_and_valid (Message.suggestedLocation m)
           then Message.suggestedLocation m else None
       | None => None
       end
  /\ (locations_clean (ChatSession.messages session) ->
      targetLocation (loadSession sessionId st)
      = newest_valid (ChatSession.messages session)).
Proof.
  intros H. destruct (loadSession_found sessionId st _ H) as (Hm & Hc & Ht).
  repeat split; try assumption.
  intros Hclean. rewrite Ht. unfold newest_located, newest_valid.
  assert (Hrev : Forall (fun m => has_location m = true ->
                   present_and_valid (Message.suggestedLocation m) = true)
                        (rev (ChatSession.messages session))).
  { apply Forall_forall. intros m Hin. apply in_rev in Hin.
    unfold locations_clean in Hclean.
    rewrite Forall_forall in Hclean. apply Hclean. exact Hin. }
  induction Hrev as [|m ms Hmv _ IH]; simpl; [reflexivity|].
  destruct (has_location m) eqn:E.
  - rewrite (Hmv eq_refl). reflexivity.
  - destruct (present_and_valid (Message.suggestedLocation m)) eqn:V.
    + apply present_and_valid_located in V. congruence.
    + exact IH.
Qed.

Lemma switch_restores_target_witness :
  targetLocation
    (loadSession (js "s1")
       {| userLocation := None; targetLocation := None; input := [];
          isLoading := false; isMobileMapOpen := false;
          isSidebarOpen := true;
          sessions :=
            [{| ChatSession.id := js "s1"; ChatSession.title := js "Trip";
                ChatSession.messages :=
                  [msg "a" model "Paris" (Some paris) None;
                   msg "b" user "thanks" None None];
                ChatSession.updatedAt := 5 |}];
          currentSessionId := None; messages := [] |})
  = Some paris.
Proof.
  match goal with
  | |- targetLocation (loadSession ?i ?s) = _ =>
      destruct (switch_restores_target i s
                  {| ChatSession.id := js "s1";
                     ChatSession.title := js "Trip";
                     ChatSession.messages :=
                       [msg "a" model "Paris" (Some paris) None;
                        msg "b" user "thanks" None None];
                     ChatSession.updatedAt := 5 |} eq_refl)
        as (_ & _ & _ & H)
  end.
  rewrite H; [reflexivity|].
  repeat constructor; simpl; intros; try discriminate; reflexivity.
Defined.

(** C9, counterexample: the newest message carries a location that is
    not finite; the older valid one is not looked for and the target is
    cleared. *)
Lemma switch_stops_at_newest_location :
  newest_valid (ChatSession.messages mixed_session) = Some paris
  /\ targetLocation (loadSession (js "s1") st_mixed) = None.
Proof. split; reflexivity. Qed.

End SwitchFacts.

(** ** The request and the fallback text *)

Section RequestFacts.

Import Gemini App Spec Sample.

Lemma slice_last_suffix {A} (n : nat) (l : list A) :
  l = firstn (length l - n) l ++ slice_last n l.
Proof. unfold slice_last. symmetry. apply firstn_skipn. Qed.

Lemma slice_last_length {A} (n : nat) (l : list A) :
  length (slice_last n l) = Nat.min n (length l).
Proof. unfold slice_last. rewrite length_skipn. lia. Qed.

Lemma parse_tag_fallback : parse_tag FALLBACK_TEXT = (FALLBACK_TEXT, None).
Proof. vm_compute. reflexivity. Qed.

Lemma or_else_empty (t : option jsstring) (d : jsstring) :
  t = None \/ t = Some [] -> or_else t d = d.
Proof. intros [-> | ->]; reflexivity. Qed.

(** C10: when the call resolves with no text or an empty one, the
    returned model message shows the fallback sentence; and the request
    carries the last ten entries of the history (all of them when there
    are fewer), oldest first. *)
Theorem fallback_text_and_history_window
        (ai : Request -> outcome) (uuid : jsstring) (now : Z)
        (chatHistory : list Message.t) (userLocation : option GeoLocation) :
  (forall response,
      ai (build_request chatHistory userLocation) = Resolved response ->
      r_text response = None \/ r_text response = Some [] ->
      exists m,
        fst (sendMessageToGemini ai uuid now chatHistory userLocation)
        = inl m
        /\ Message.role m = model
        /\ Message.text m = FALLBACK_TEXT
        /\ Message.text m <> [])
  /\ (exists older recent,
         chatHistory = older ++ recent
         /\ contents (build_request chatHistory userLocation)
            = map to_content recent
         /\ length recent = Nat.min 10 (length chatHistory))
  /\ (length (contents (build_request chatHistory userLocation)) <= 10)%nat.
Proof.
  split; [|split].
  - intros response Hai Htext.
    unfold sendMessageToGemini. rewrite Hai. cbn [fst].
    eexists. split; [reflexivity|].
    unfold build_message. rewrite (or_else_empty _ _ Htext).
    rewrite parse_tag_fallback. cbn.
    repeat split. discriminate.
  - exists (firstn (length chatHistory - 10) chatHistory),
           (slice_last 10 chatHistory).
    split; [apply slice_last_suffix|].
    split; [reflexivity | apply slice_last_length].
  - cbn [contents build_request]. unfold historyContext.
    rewrite length_map, slice_last_length. lia.
Qed.

Lemma fallback_text_and_history_window_witness :
  exists m,
    fst (sendMessageToGemini
           (fun _ => Resolved {| r_text := Some [];
                                 r_groundingChunks := None |})
           (js "id-2") 2000 (messages st0) (Some paris)) = inl m
    /\ Message.text m = js "I couldn't find an answer for that.".
Proof.
  destruct (proj1 (fallback_text_and_history_window
                     (fun _ => Resolved {| r_text := Some [];
                                           r_groundingChunks := None |})
                     (js "id-2") 2000 (messages st0) (Some paris))
                  {| r_text := Some []; r_groundingChunks := None |}
                  eq_refl (or_intror eq_refl))
    as (m & Hm & _ & Ht & _).
  exists m. split; [exact Hm | exact Ht].
Defined.

End RequestFacts.

(** ** Load precedence, migration and idempotence *)

Section LoadTheorems.

Import Store Spec Sample.

(** C5: sanitizing a collection that came out of sanitization gives it
    back unchanged. *)
Theorem sanitize_idempotent (l l' : list jsval) :
  sanitize_sessions l = Ok l' -> sanitize_sessions l' = Ok l'.
Proof.
  unfold sanitize_sessions. apply mapM_idem.
  exact sanitize_session_idem.
Qed.

Lemma sanitize_idempotent_witness :
  sanitize_sessions stored_sessions = Ok stored_sanitized
  /\ sanitize_sessions stored_sanitized = Ok stored_sanitized.
Proof.
  split.
  - vm_compute. reflexivity.
  - apply (sanitize_idempotent stored_sessions stored_sanitized).
    vm_compute. reflexivity.
Defined.

(** C4: the initializer, case by case.  A multi-session record that
    parses to an array decides the result alone; without one, a legacy
    record that parses to a non-empty array of messages becomes the one
    session [migratedSession], titled "Restored Chat", whose messages are
    the sanitized ones; with neither record the collection is empty;
    and whenever a record that is read fails to parse, or anything else
    throws inside the [try], the collection is empty and the exception
    ends in the console. *)
Theorem load_precedence_and_migration
        (getItem : jsstring -> option jsstring)
        (JSON_parse : jsstring -> result jsval)
        (uuid : jsstring) (now : Z) :
  (forall c saved l,
      getItem SESSIONS_KEY = Some (c :: saved) ->
      JSON_parse (c :: saved) = Ok (JArr l) ->
      load getItem JSON_parse uuid now
      = match sanitize_sessions l with
        | Ok l' => (l', [])
        | Throw e => ([], [e])
        end
      /\ (Forall session_shaped l ->
          exists l', load getItem JSON_parse uuid now = (l', [])
                     /\ Forall2 session_sanitized_from l l'))
  /\ (no_session_array getItem JSON_parse ->
      forall c old m ms,
        getItem HISTORY_KEY = Some (c :: old) ->
        JSON_parse (c :: old) = Ok (JArr (m :: ms)) ->
        Forall message_shaped (m :: ms) ->
        exists msgs',
          load getItem JSON_parse uuid now
          = ([JObj [(js "id", JStr uuid);
                    (js "title", JStr (js "Restored Chat"));
                    (js "messages", JArr msgs');
                    (js "updatedAt", JNum (of_Z now))]], [])
          /\ Forall2 sanitized_from (m :: ms) msgs')
  /\ (no_record getItem SESSIONS_KEY -> no_record getItem HISTORY_KEY ->
      load getItem JSON_parse uuid now = ([], []))
  /\ (forall c saved e,
         getItem SESSIONS_KEY = Some (c :: saved) ->
         JSON_parse (c :: saved) = Throw e ->
         load getItem JSON_parse uuid now = ([], [e]))
  /\ (no_session_array getItem JSON_parse ->
      forall c old e,
        getItem HISTORY_KEY = Some (c :: old) ->
        JSON_parse (c :: old) = Throw e ->
        load getItem JSON_parse uuid now = ([], [e]))
  /\ (forall e,
         load_try getItem JSON_parse uuid now = Throw e ->
         load getItem JSON_parse uuid now = ([], [e])).
Proof.
  repeat match goal with |- _ /\ _ => split end.
  - intros c saved l Hget Hparse.
    assert (E : load_try getItem JSON_parse uuid now = sanitize_sessions l).
    { unfold load_try. rewrite Hget, Hparse. reflexivity. }
    unfold load. rewrite E. split.
    + destruct (sanitize_sessions l); reflexivity.
    + intros Hshape.
      destruct (sanitize_sessions_shaped _ Hshape) as (l' & El & F).
      exists l'. rewrite El. auto.
  - intros Hno c old m ms Hget Hparse Hshape.
    destruct (sanitize_messages_shaped _ Hshape) as (msgs' & E & F).
    exists msgs'. split; [|exact F].
    unfold load. rewrite (load_try_no_array _ _ uuid now Hno).
    unfold migrate. rewrite Hget, Hparse. cbn [bind].
    rewrite E. reflexivity.
  - intros Hs Hh. unfold load, load_try, migrate.
    destruct Hs as [-> | ->], Hh as [-> | ->]; reflexivity.
  - intros c saved e Hget Hparse.
    unfold load, load_try. rewrite Hget, Hparse. reflexivity.
  - intros Hno c old e Hget Hparse.
    unfold load. rewrite (load_try_no_array _ _ uuid now Hno).
    unfold migrate. rewrite Hget, Hparse. reflexivity.
  - intros e H. unfold load. rewrite H. reflexivity.
Qed.

(** The legacy record of the sample storage migrates into one session;
    the corrupted [suggestedLocation] reads as [undefined], the invalid
    related entries are gone, everything else is as stored. *)
Lemma load_precedence_and_migration_witness :
  load legacy_storage legacy_parse (js "fresh-id") 42
  = ([JObj [(js "id", JStr (js "fresh-id"));
            (js "title", JStr (js "Restored Chat"));
            (js "messages", JArr legacy_sanitized);
            (js "updatedAt", JNum (of_Z 42))]], []).
Proof.
  destruct (proj1 (proj2 (load_precedence_and_migration
                            legacy_storage legacy_parse (js "fresh-id") 42))
                  (or_introl eq_refl)
                  (N_of_ascii "<") (js "legacy history>")
                  (hd JNull legacy_messages) (tl legacy_messages)
                  eq_refl eq_refl)
    as (msgs' & E & _).
  - repeat constructor; eexists; (split; [reflexivity|]);
      cbn; eauto.
  - pose proof E as E2. vm_compute in E2. injection E2 as E2.
    rewrite E, <- E2. vm_compute. reflexivity.
Defined.

End LoadTheorems.

(** ** The matcher against the words of a pattern *)

Section MatcherFacts.

Import Spec.

Lemma firstn_app_exact {A} (w s : list A) :
  firstn (length (w ++ s) - length s) (w ++ s) = w.
Proof.
  rewrite length_app.
  replace (length w + length s - length s)%nat with (length w) by lia.
  rewrite firstn_app, Nat.sub_diag, firstn_all. simpl.
  apply app_nil_r.
Qed.

Lemma star_sound {A} (p : char -> bool) (s : jsstring)
      (k : jsstring -> option A) (a : A) :
  star p s k = Some a ->
  exists w s', s = w ++ s' /\ forallb p w = true /\ k s' = Some a.
Proof.
  induction s as [|c s IH]; simpl; intros H.
  - exists [], []. auto.
  - destruct (p c) eqn:Pc.
    + destruct (star p s k) as [a'|] eqn:E.
      * injection H as ->. destruct (IH eq_refl) as (w & s' & -> & Fw & Hk).
        exists (c :: w), s'. simpl. rewrite Pc. auto.
      * exists [], (c :: s). auto.
    + exists [], (c :: s). auto.
Qed.

Lemma star_complete {A} (p : char -> bool) (w s' : jsstring)
      (k : jsstring -> option A) :
  forallb p w = true -> k s' <> None -> star p (w ++ s') k <> None.
Proof.
  induction w as [|c w IH]; simpl; intros Fw Hk.
  - destruct s' as [|c s']; simpl; [exact Hk|].
    destruct (p c); [|exact Hk].
    destruct (star p s' k); [discriminate | exact Hk].
  - apply andb_true_iff in Fw. destruct Fw as [Pc Fw]. rewrite Pc.
    specialize (IH Fw Hk).
    destruct (star p (w ++ s') k); [discriminate | contradiction].
Qed.

(** Whatever the matcher returns went through a word of the pattern. *)
Lemma rmatch_sound {A} (r : regex) :
  forall (s : jsstring) (caps : list jsstring)
         (k : jsstring -> list jsstring -> option A) (a : A),
    rmatch r s caps k = Some a ->
    exists w s' caps',
      s = w ++ s' /\ rx_sem r w caps caps' /\ k s' caps' = Some a.
Proof.
  induction r as [| c | p | r1 IH1 r2 IH2 | r1 IH1 | p | p | r1 IH1];
    intros s caps k a H; simpl in H.
  - exists [], s, caps. simpl. auto.
  - destruct s as [|x s]; [discriminate|].
    destruct (x =? c)%N eqn:E; [|discriminate].
    apply N.eqb_eq in E. subst x.
    exists [c], s, caps. simpl. auto.
  - destruct s as [|x s]; [discriminate|].
    destruct (p x) eqn:E; [|discriminate].
    exists [x], s, caps. simpl. repeat split; auto. exists x. auto.
  - apply IH1 in H. destruct H as (w1 & s1 & c1 & -> & S1 & H).
    apply IH2 in H. destruct H as (w2 & s2 & c2 & -> & S2 & H).
    exists (w1 ++ w2), s2, c2. rewrite app_assoc. split; [reflexivity|].
    split; [|exact H]. simpl. exists w1, w2, c1. auto.
  - destruct (rmatch r1 s caps k) as [a'|] eqn:E.
    + injection H as ->. apply IH1 in E.
      destruct E as (w & s' & c' & -> & S1 & Hk).
      exists w, s', c'. simpl. auto.
    + exists [], s, caps. simpl. auto.
  - apply star_sound in H. destruct H as (w & s' & -> & Fw & Hk).
    exists w, s', caps. simpl. auto.
  - destruct s as [|x s]; [discriminate|].
    destruct (p x) eqn:Px; [|discriminate].
    apply star_sound in H. destruct H as (w & s' & -> & Fw & Hk).
    exists (x :: w), s', caps. simpl. rewrite Px, Fw.
    repeat split; auto. discriminate.
  - apply IH1 in H. destruct H as (w & s' & c1 & -> & S1 & Hk).
    rewrite firstn_app_exact in Hk.
    exists w, s', (c1 ++ [w]). simpl. eauto.
Qed.

(** A word of the pattern followed by something the continuation accepts
    makes the matcher succeed. *)
Lemma rmatch_complete {A} (r : regex) :
  forall (w s' : jsstring) (caps caps' : list jsstring)
         (k : jsstring -> list jsstring -> option A),
    rx_sem r w caps caps' -> k s' caps' <> None ->
    rmatch r (w ++ s') caps k <> None.
Proof.
  induction r as [| c | p | r1 IH1 r2 IH2 | r1 IH1 | p | p | r1 IH1];
    intros w s' caps caps' k S Hk; simpl in S |- *.
  - destruct S as [-> ->]. exact Hk.
  - destruct S as [-> ->]. simpl. rewrite N.eqb_refl. exact Hk.
  - destruct S as (x & -> & Px & ->). simpl. rewrite Px. exact Hk.
  - destruct S as (w1 & w2 & c1 & -> & S1 & S2).
    rewrite <- app_assoc. eapply IH1; [exact S1|].
    eapply IH2; [exact S2 | exact Hk].
  - destruct S as [[-> ->] | S].
    + simpl. destruct (rmatch r1 s' caps k); [discriminate | exact Hk].
    + specialize (IH1 _ _ _ _ _ S Hk).
      destruct (rmatch r1 (w ++ s') caps k); [discriminate | contradiction].
  - destruct S as [Fw ->]. apply star_complete; assumption.
  - destruct S as (Nw & Fw & ->).
    destruct w as [|x w]; [congruence|]. simpl in Fw |- *.
    apply andb_true_iff in Fw. destruct Fw as [Px Fw]. rewrite Px.
    apply star_complete; assumption.
  - destruct S as (c1 & S & ->).
    eapply IH1; [exact S|]. rewrite firstn_app_exact. exact Hk.
Qed.

Lemma match_at_sound (r : regex) (s m0 : jsstring) (caps : list jsstring) :
  match_at r s = Some (m0, caps) ->
  exists rest, s = m0 ++ rest /\ rx_sem r m0 [] caps.
Proof.
  unfold match_at. intros H. apply rmatch_sound in H.
  destruct H as (w & s' & c' & -> & S & H).
  rewrite firstn_app_exact in H. injection H as <- <-.
  exists s'. auto.
Qed.

Lemma match_at_complete (r : regex) (w rest : jsstring)
      (caps : list jsstring) :
  rx_sem r w [] caps -> match_at r (w ++ rest) <> None.
Proof.
  intros S. unfold match_at. eapply rmatch_complete; [exact S|].
  discriminate.
Qed.

(** [s.match(r)] finds a word of [r] at the least offset where one
    starts. *)
Lemma search_from_sound (r : regex) (s : jsstring) :
  forall (i : nat) (m : match_result),
    search_from r i s = Some m ->
    exists pre post,
      s = pre ++ matched m ++ post
      /\ index m = (i + length pre)%nat
      /\ rx_sem r (matched m) [] (groups m)
      /\ match_at r (matched m ++ post) = Some (matched m, groups m)
      /\ forall pre' w post' caps,
           s = pre' ++ w ++ post' -> rx_sem r w [] caps ->
           (length pre <= length pre')%nat.
Proof.
  induction s as [|c s IH]; intros i m H; simpl in H.
  - destruct (match_at r []) as [[m0 caps]|] eqn:E; [|discriminate].
    injection H as <-. simpl.
    pose proof E as E'. apply match_at_sound in E'.
    destruct E' as (rest & Hs & S).
    exists [], rest. simpl. rewrite <- Hs.
    repeat split; auto; lia.
  - destruct (match_at r (c :: s)) as [[m0 caps]|] eqn:E.
    + injection H as <-. simpl.
      pose proof E as E'. apply match_at_sound in E'.
      destruct E' as (rest & Hs & S).
      exists [], rest. simpl. rewrite <- Hs.
      repeat split; auto; lia.
    + apply IH in H. destruct H as (pre & post & -> & Hi & S & Hm & Hleast).
      exists (c :: pre), post. simpl.
      repeat split; auto; try lia.
      intros pre' w post' caps Hs Sw.
      destruct pre' as [|c' pre'].
      * simpl in Hs. exfalso.
        apply (match_at_complete r w post' caps Sw).
        rewrite <- Hs. exact E.
      * simpl in Hs. injection Hs as _ Hs. simpl.
        specialize (Hleast _ _ _ _ Hs Sw). lia.
Qed.

Lemma search_from_none (r : regex) (s : jsstring) :
  forall (i : nat),
    search_from r i s = None ->
    forall pre w post caps, s = pre ++ w ++ post -> ~ rx_sem r w [] caps.
Proof.
  induction s as [|c s IH]; intros i H pre w post caps Hs Sw; simpl in H.
  - destruct (match_at r []) as [[m0 cs]|] eqn:E; [discriminate|].
    destruct pre; [|discriminate]. simpl in Hs.
    apply (match_at_complete r w post caps Sw). rewrite <- Hs. exact E.
  - destruct (match_at r (c :: s)) as [[m0 cs]|] eqn:E; [discriminate|].
    destruct pre as [|c' pre].
    + simpl in Hs.
      apply (match_at_complete r w post caps Sw). rewrite <- Hs. exact E.
    + simpl in Hs. injection Hs as _ Hs.
      exact (IH _ H _ _ _ _ Hs Sw).
Qed.

End MatcherFacts.

(** ** The words of the two patterns *)

Section PatternFacts.

Import Spec Gemini.

Lemma rx_sem_lit (s w : jsstring) (c c' : list jsstring) :
  rx_sem (RLit s) w c c' <-> w = s /\ c' = c.
Proof.
  revert w. induction s as [|x s IH]; intros w; simpl.
  - tauto.
  - split.
    + intros (w1 & w2 & c1 & -> & (-> & ->) & S).
      apply IH in S. destruct S as (-> & ->). auto.
    + intros (-> & ->). exists [x], s, c. repeat split; auto.
      apply IH. auto.
Qed.

Lemma rx_sem_number (w : jsstring) (c c' : list jsstring) :
  rx_sem NUMBER w c c' <-> number_text w /\ c' = c.
Proof.
  unfold NUMBER, number_text. simpl. split.
  - intros (w1 & w2 & c1 & -> & Hsign
            & w3 & w4 & c2 & -> & (Nip & Fip & ->)
            & w5 & w6 & c3 & -> & Hdot & Ffp & ->).
    split.
    + exists w1, w3, w5, w6. repeat split; auto.
      * destruct Hsign as [[-> _] | [-> _]]; auto.
      * destruct Hdot as [[-> _] | [-> _]]; auto.
    + destruct Hsign as [[_ ->] | [_ ->]], Hdot as [[_ ->] | [_ ->]];
        reflexivity.
  - intros ((sign & ip & dot & fp & -> & Hsign & Nip & Fip & Hdot & Ffp)
            & ->).
    exists sign, (ip ++ dot ++ fp), c. repeat split.
    + destruct Hsign as [-> | ->]; auto.
    + exists ip, (dot ++ fp), c. repeat split; auto.
      exists dot, fp, c. repeat split; auto.
      destruct Hdot as [-> | ->]; auto.
Qed.

Lemma rx_sem_coordinate (w : jsstring) (caps : list jsstring) :
  rx_sem COORDINATE_REGEX w [] caps
  <-> exists a b, coordinate_tag w a b /\ caps = [a; b].
Proof.
  unfold COORDINATE_REGEX, coordinate_tag.
  cbn [rx_sem]. split.
  - intros (w1 & r1 & c1 & -> & L1
            & a & r2 & c2 & -> & (c2' & Na & ->)
            & w3 & r3 & c3 & -> & (-> & ->)
            & ws & r4 & c4 & -> & (Fws & ->)
            & w5 & r5 & c5 & -> & L5
            & b & w7 & c6 & -> & (c6' & Nb & ->) & L7).
    apply rx_sem_lit in L1. destruct L1 as (-> & ->).
    apply rx_sem_number in Na. destruct Na as (Na & ->).
    apply rx_sem_lit in L5. destruct L5 as (-> & ->).
    apply rx_sem_number in Nb. destruct Nb as (Nb & ->).
    apply rx_sem_lit in L7. destruct L7 as (-> & ->).
    exists a, b. split; [|reflexivity].
    exists ws. repeat split; auto.
  - intros (a & b & (ws & -> & Na & Fws & Nb) & ->).
    exists (js "{{LAT:"), (a ++ js "," ++ ws ++ js "LNG:" ++ b ++ js "}}"), [].
    split; [reflexivity|]. split; [apply rx_sem_lit; auto|].
    exists a, (js "," ++ ws ++ js "LNG:" ++ b ++ js "}}"), [a].
    split; [reflexivity|]. split.
    { exists []. split; [apply rx_sem_number; auto | reflexivity]. }
    exists (js ","), (ws ++ js "LNG:" ++ b ++ js "}}"), [a].
    split; [reflexivity|]. split; [split; reflexivity|].
    exists ws, (js "LNG:" ++ b ++ js "}}"), [a].
    split; [reflexivity|]. split; [split; auto|].
    exists (js "LNG:"), (b ++ js "}}"), [a].
    split; [reflexivity|]. split; [apply rx_sem_lit; auto|].
    exists b, (js "}}"), [a; b].
    split; [reflexivity|]. split.
    { exists [a]. split; [apply rx_sem_number; auto | reflexivity]. }
    apply rx_sem_lit. auto.
Qed.

Lemma rx_sem_maps (w : jsstring) (caps : list jsstring) :
  rx_sem MAPS_REGEX w [] caps
  <-> exists a b, maps_pair w a b /\ caps = [a; b].
Proof.
  unfold MAPS_REGEX, maps_pair. cbn [rx_sem]. split.
  - intros (w1 & r1 & c1 & -> & L1
            & a & r2 & c2 & -> & (c2' & Na & ->)
            & w3 & b & c3 & -> & L3 & (c4 & Nb & ->)).
    apply rx_sem_lit in L1. destruct L1 as (-> & ->).
    apply rx_sem_number in Na. destruct Na as (Na & ->).
    apply rx_sem_lit in L3. destruct L3 as (-> & ->).
    apply rx_sem_number in Nb. destruct Nb as (Nb & ->).
    exists a, b. auto.
  - intros (a & b & (-> & Na & Nb) & ->).
    exists (js "!3d"), (a ++ js "!4d" ++ b), [].
    split; [reflexivity|]. split; [apply rx_sem_lit; auto|].
    exists a, (js "!4d" ++ b), [a].
    split; [reflexivity|]. split.
    { exists []. split; [apply rx_sem_number; auto | reflexivity]. }
    exists (js "!4d"), b, [a].
    split; [reflexivity|]. split; [apply rx_sem_lit; auto|].
    exists [a]. split; [apply rx_sem_number; auto | reflexivity].
Qed.

End PatternFacts.

(** ** Rounding never produces NaN *)

Section RoundingFacts.

Lemma iter_pos_invariant {A} (P : A -> Prop) (f : A -> A) :
  (forall x, P x -> P (f x)) ->
  forall (n : positive) (x : A), P x -> P (iter_pos f n x).
Proof.
  intros Hf. induction n as [n IH | n IH |]; intros x Hx; simpl.
  - apply IH, IH, Hf, Hx.
  - apply IH, IH, Hx.
  - apply Hf, Hx.
Qed.

Lemma shr_1_nonneg (mrs : shr_record) :
  (0 <= shr_m mrs)%Z -> (0 <= shr_m (shr_1 mrs))%Z.
Proof.
  destruct mrs as [m r s]. simpl.
  destruct m as [|p|p]; simpl; intros H; try lia.
  - destruct p; simpl; lia.
Qed.

Lemma shr_fexp_nonneg (m e : Z) (l : location) :
  (0 <= m)%Z -> (0 <= shr_m (fst (shr_fexp prec emax m e l)))%Z.
Proof.
  intros Hm. unfold shr_fexp, shr.
  assert (H0 : (0 <= shr_m (shr_record_of_loc m l))%Z).
  { destruct l as [|[]]; exact Hm. }
  destruct (fexp prec emax (Zdigits2 m + e) - e)%Z; simpl;
    try exact H0.
  apply iter_pos_invariant; [exact shr_1_nonneg | exact H0].
Qed.

Lemma round_nearest_even_nonneg (m : Z) (l : location) :
  (0 <= m)%Z -> (0 <= round_nearest_even m l)%Z.
Proof.
  intros Hm. destruct l as [|[]]; simpl; try lia.
  destruct (Z.even m); lia.
Qed.

Lemma binary_round_aux_not_nan (sx : bool) (mx ex : Z) (lx : location) :
  (0 <= mx)%Z -> isNaN (binary_round_aux prec emax sx mx ex lx) = false.
Proof.
  intros Hm. unfold binary_round_aux.
  pose proof (shr_fexp_nonneg mx ex lx Hm) as H1.
  destruct (shr_fexp prec emax mx ex lx) as [mrs' e'].
  simpl fst in H1.
  pose proof (shr_fexp_nonneg
                (round_nearest_even (shr_m mrs') (loc_of_shr_record mrs'))
                e' loc_Exact
                (round_nearest_even_nonneg _ _ H1)) as H2.
  destruct (shr_fexp prec emax _ e' loc_Exact) as [mrs'' e''].
  simpl fst in H2.
  destruct (shr_m mrs'') as [|p|p]; try reflexivity.
  - destruct (e'' <=? emax - prec)%Z; reflexivity.
  - lia.
Qed.

Lemma of_decimal_not_nan (neg : bool) (m : N) (k : nat) :
  isNaN (of_decimal neg m k) = false.
Proof.
  unfold of_decimal. destruct m as [|p]; [reflexivity|].
  unfold SFdiv, SFdiv_core_binary.
  match goal with
  | |- context [Z.div_eucl ?a0 ?b0] => set (a := a0); set (b := b0)
  end.
  assert (Ha : (0 <= a)%Z).
  { subst a.
    match goal with
    | |- (0 <= match ?s with _ => _ end)%Z => destruct s; try lia
    end.
    rewrite Z.shiftl_mul_pow2 by lia.
    apply Z.mul_nonneg_nonneg; [lia|]. apply Z.pow_nonneg. lia. }
  assert (Hb : (0 < b)%Z) by (subst b; lia).
  assert (Hq : (0 <= fst (Z.div_eucl a b))%Z).
  { change (fst (Z.div_eucl a b)) with (a / b)%Z.
    apply Z.div_pos; assumption. }
  destruct (Z.div_eucl a b) as [q r]. simpl fst in Hq.
  apply binary_round_aux_not_nan. exact Hq.
Qed.

Lemma scale_not_nan (neg : bool) (m : N) (sc : Z) :
  isNaN (scale neg m sc) = false.
Proof.
  unfold scale. destruct sc; apply of_decimal_not_nan.
Qed.

End RoundingFacts.

(** ** [parseFloat] on the text of a [<number>] *)

Section ParseFloatFacts.

Import Spec.

Lemma digit_cases (d : char) :
  is_digit d = true ->
  (d = 48 \/ d = 49 \/ d = 50 \/ d = 51 \/ d = 52 \/ d = 53 \/ d = 54
   \/ d = 55 \/ d = 56 \/ d = 57)%N.
Proof.
  unfold is_digit. rewrite andb_true_iff, !N.leb_le. lia.
Qed.

Ltac each_digit d H :=
  let C := fresh "C" in
  pose proof (digit_cases d H) as C;
  repeat (destruct C as [C | C]; [subst d|]); [..|subst d].

Lemma digit_not_space (d : char) : is_digit d = true -> is_space d = false.
Proof. intros H. each_digit d H; reflexivity. Qed.

Lemma digit_number_char (d : char) :
  is_digit d = true -> number_char d = true.
Proof. intros H. unfold number_char. rewrite H. reflexivity. Qed.

Lemma trimStart_nonspace (c : char) (s : jsstring) :
  is_space c = false -> trimStart (c :: s) = c :: s.
Proof. intros H. unfold trimStart. simpl. rewrite H. reflexivity. Qed.

Lemma split_sign_digit (d : char) (s : jsstring) :
  is_digit d = true -> split_sign (d :: s) = (false, d :: s).
Proof. intros H. each_digit d H; reflexivity. Qed.

Lemma starts_with_Infinity_digit (d : char) (s : jsstring) :
  is_digit d = true -> starts_with (js "Infinity") (d :: s) = false.
Proof. intros H. each_digit d H; reflexivity. Qed.

Lemma parse_digits_not_nan (neg : bool) (d : char) (s : jsstring) :
  is_digit d = true ->
  isNaN
    (if starts_with (js "Infinity") (d :: s) then S754_infinity neg
     else
       let ip := take_while is_digit (d :: s) in
       let s1 := drop_while is_digit (d :: s) in
       let '(fp, s2) := split_fraction s1 in
       match ip ++ fp with
       | [] => NaN
       | ds => scale neg (digits_value 0 ds)
                     (Z.of_nat (length fp) - exponent s2)
       end) = false.
Proof.
  intros H. rewrite (starts_with_Infinity_digit d s H).
  cbv zeta. destruct (split_fraction _) as [fp s2].
  cbn [take_while]. rewrite H. cbn [app].
  apply scale_not_nan.
Qed.

(** A sign and a digit at the head are enough for a number. *)
Lemma parseFloat_signed_digit (sign : jsstring) (d : char) (s : jsstring) :
  sign = [] \/ sign = js "-" -> is_digit d = true ->
  isNaN (parseFloat (sign ++ d :: s)) = false.
Proof.
  intros [-> | ->] H; unfold parseFloat.
  - cbn [app]. rewrite (trimStart_nonspace _ _ (digit_not_space _ H)).
    rewrite (split_sign_digit d s H). apply parse_digits_not_nan. exact H.
  - cbn [app js]. rewrite trimStart_nonspace by reflexivity.
    change (split_sign (N_of_ascii "-" :: d :: s)) with (true, d :: s).
    apply parse_digits_not_nan. exact H.
Qed.

(** The NaN test of the two extraction steps never fails on a matched
    group. *)
Lemma parseFloat_number_text (w : jsstring) :
  number_text w -> isNaN (parseFloat w) = false.
Proof.
  intros (sign & ip & dot & fp & -> & Hsign & Nip & Fip & _).
  destruct ip as [|d ip]; [congruence|].
  simpl in Fip. apply andb_true_iff in Fip. destruct Fip as [Hd _].
  cbn [app]. apply parseFloat_signed_digit; assumption.
Qed.

Lemma number_text_chars (w : jsstring) :
  number_text w -> forallb number_char w = true.
Proof.
  intros (sign & ip & dot & fp & -> & Hsign & _ & Fip & Hdot & Ffp).
  rewrite !forallb_app.
  assert (D : forall l, forallb is_digit l = true ->
                        forallb number_char l = true).
  { intros l Hl. rewrite forallb_forall in Hl |- *.
    intros x Hx. apply digit_number_char, Hl, Hx. }
  rewrite (D _ Fip), (D _ Ffp).
  destruct Hsign as [-> | ->], Hdot as [-> | ->]; reflexivity.
Qed.

Lemma number_text_nonempty (w : jsstring) : number_text w -> w <> [].
Proof.
  intros (sign & ip & dot & fp & -> & _ & Nip & _) H.
  apply app_eq_nil in H. destruct H as [_ H].
  apply app_eq_nil in H. destruct H as [H _]. contradiction.
Qed.

End ParseFloatFacts.

(** ** A tag is determined by where it starts *)

Section TagFacts.

Import Spec Gemini.

(** Two runs of [good] characters, each closed by a character that is not
    [good], are the same run when they start at the same place. *)
Lemma run_unique (good : char -> bool) :
  forall (u u' : jsstring) (c c' : char) (r r' : jsstring),
    forallb good u = true -> forallb good u' = true ->
    good c = false -> good c' = false ->
    u ++ c :: r = u' ++ c' :: r' ->
    u = u' /\ c = c' /\ r = r'.
Proof.
  induction u as [|x u IH]; intros u' c c' r r' Fu Fu' Gc Gc' E.
  - destruct u' as [|x' u']; simpl in E.
    + injection E as -> ->. auto.
    + injection E as -> _. simpl in Fu'.
      apply andb_true_iff in Fu'. destruct Fu' as [Gx _]. congruence.
  - simpl in Fu. apply andb_true_iff in Fu. destruct Fu as [Gx Fu].
    destruct u' as [|x' u']; simpl in E.
    + injection E as -> _. congruence.
    + injection E as -> E. simpl in Fu'.
      apply andb_true_iff in Fu'. destruct Fu' as [_ Fu'].
      destruct (IH _ _ _ _ _ Fu Fu' Gc Gc' E) as (-> & -> & ->). auto.
Qed.

Lemma coordinate_tag_unique (t t' a a' b b' r r' : jsstring) :
  coordinate_tag t a b -> coordinate_tag t' a' b' ->
  t ++ r = t' ++ r' ->
  t = t' /\ a = a' /\ b = b' /\ r = r'.
Proof.
  intros (ws & -> & Na & Fws & Nb) (ws' & -> & Na' & Fws' & Nb') E.
  repeat rewrite <- app_assoc in E.
  apply app_inv_head in E.
  apply number_text_chars in Na, Na', Nb, Nb'.
  cbn [js app] in E.
  destruct (run_unique number_char a a' (N_of_ascii ",") (N_of_ascii ",")
                       _ _ Na Na' eq_refl eq_refl E)
    as (-> & _ & E1).
  destruct (run_unique is_space ws ws' (N_of_ascii "L") (N_of_ascii "L")
                       _ _ Fws Fws' eq_refl eq_refl E1)
    as (-> & _ & E2).
  injection E2 as E2.
  destruct (run_unique number_char b b' (N_of_ascii "}") (N_of_ascii "}")
                       _ _ Nb Nb' eq_refl eq_refl E2)
    as (-> & _ & E3).
  injection E3 as ->. auto.
Qed.

Lemma starts_with_iff (pat s : jsstring) :
  starts_with pat s = true <-> exists r, s = pat ++ r.
Proof.
  revert s. induction pat as [|p pat IH]; intros s; simpl.
  - split; eauto.
  - destruct s as [|c s].
    + split; [discriminate | intros (r & E); discriminate].
    + rewrite andb_true_iff, N.eqb_eq, IH. split.
      * intros (-> & r & ->). eauto.
      * intros (r & E). injection E as -> ->. eauto.
Qed.

(** Replacing a string by nothing removes its first occurrence. *)
Lemma replace_first_occurrence (pat : jsstring) :
  forall (pre post : jsstring),
    (forall p1 p2, pre ++ pat ++ post = p1 ++ pat ++ p2 ->
                   (length pre <= length p1)%nat) ->
    replace pat [] (pre ++ pat ++ post) = pre ++ post.
Proof.
  induction pre as [|c pre IH]; intros post Hleast.
  - simpl app.
    assert (E : starts_with pat (pat ++ post) = true).
    { apply starts_with_iff. eauto. }
    destruct (pat ++ post) eqn:Es; simpl; rewrite E;
      rewrite <- Es, skipn_app, Nat.sub_diag, skipn_all; reflexivity.
  - cbn [app replace].
    destruct (starts_with pat (c :: pre ++ pat ++ post)) eqn:E.
    + apply starts_with_iff in E. destruct E as (r & E).
      specialize (Hleast [] r). simpl in Hleast.
      specialize (Hleast E). lia.
    + f_equal. apply IH. intros p1 p2 E'.
      specialize (Hleast (c :: p1) p2). simpl in Hleast.
      rewrite E' in Hleast. specialize (Hleast eq_refl). lia.
Qed.

Lemma same_prefix {A} (p p' q q' : list A) :
  p ++ q = p' ++ q' -> length p = length p' -> p = p' /\ q = q'.
Proof.
  revert p'. induction p as [|x p IH]; intros [|x' p'] E L;
    simpl in L; try discriminate.
  - auto.
  - simpl in E. injection E as -> E. injection L as L.
    destruct (IH _ E L) as [-> ->]. auto.
Qed.

End TagFacts.

(** ** The hidden tag of a reply *)

Section TagTheorem.

Import Spec Gemini Sample.

Lemma coordinate_tag_numbers (t a b : jsstring) :
  coordinate_tag t a b -> number_text a /\ number_text b.
Proof. intros (ws & _ & Na & _ & Nb). auto. Qed.

(** What [parse_tag] does when the pattern matches. *)
Lemma parse_tag_found (text : jsstring) (m : match_result) :
  str_match text COORDINATE_REGEX = Some m ->
  exists pre post a b,
    text = pre ++ matched m ++ post
    /\ coordinate_tag (matched m) a b
    /\ (forall pre' t' post',
           text = pre' ++ t' ++ post' -> is_tag t' ->
           (length pre <= length pre')%nat)
    /\ parse_tag text
       = (trim (pre ++ post),
          Some {| lat := parseFloat a; lng := parseFloat b |}).
Proof.
  intros H. unfold parse_tag. rewrite H.
  apply search_from_sound in H.
  destruct H as (pre & post & Ht & _ & S & _ & Hleast).
  apply rx_sem_coordinate in S. destruct S as (a & b & Tag & Hg).
  exists pre, post, a, b.
  assert (Hleast' : forall pre' t' post',
             text = pre' ++ t' ++ post' -> is_tag t' ->
             (length pre <= length pre')%nat).
  { intros pre' t' post' E (a' & b' & Tag').
    apply (Hleast pre' t' post' [a'; b'] E).
    apply rx_sem_coordinate. eauto. }
  repeat split; auto.
  unfold group. rewrite Hg. cbn [nth Nat.sub].
  destruct (coordinate_tag_numbers _ _ _ Tag) as [Na Nb].
  rewrite (parseFloat_number_text _ Na), (parseFloat_number_text _ Nb).
  cbn [negb andb]. f_equal. f_equal.
  rewrite Ht at 1. apply replace_first_occurrence.
  intros p1 p2 E. apply (Hleast' p1 (matched m) p2).
  - rewrite Ht. exact E.
  - exists a, b. exact Tag.
Qed.

(** C2: when the reply contains a tag, the visible text is the reply
    without the first tag, trimmed, and the suggested location is made of
    the two numbers of that tag (the NaN test never fails on them); when
    it contains none, the reply is left as it is and no location is
    suggested. *)
Theorem tag_removed_and_location_parsed (text : jsstring) :
  (forall pre t post a b,
      text = pre ++ t ++ post ->
      coordinate_tag t a b ->
      (forall pre' t' post',
          text = pre' ++ t' ++ post' -> is_tag t' ->
          (length pre <= length pre')%nat) ->
      parse_tag text
      = (trim (pre ++ post),
         Some {| lat := parseFloat a; lng := parseFloat b |}))
  /\ ((forall pre t post, text = pre ++ t ++ post -> ~ is_tag t) ->
      parse_tag text = (text, None))
  /\ parse_tag (js "Visit the tower. {{LAT:48.8584, LNG:2.2945}}")
     = (js "Visit the tower.", Some paris)
  /\ (forall uuid now response,
         Message.text (build_message uuid now response)
         = fst (parse_tag (or_else (r_text response) FALLBACK_TEXT))
         /\ Message.suggestedLocation (build_message uuid now response)
            = snd (parse_tag (or_else (r_text response) FALLBACK_TEXT))).
Proof.
  split; [|split; [|split]].
  - intros pre t post a b Ht Tag Hleast.
    destruct (str_match text COORDINATE_REGEX) as [m|] eqn:E.
    + destruct (parse_tag_found text m E)
        as (pre1 & post1 & a1 & b1 & Ht1 & Tag1 & Hleast1 & ->).
      assert (L : length pre1 = length pre).
      { apply Nat.le_antisymm.
        - apply (Hleast1 pre t post Ht). exists a, b. exact Tag.
        - apply (Hleast pre1 (matched m) post1 Ht1). exists a1, b1.
          exact Tag1. }
      rewrite Ht in Ht1.
      destruct (same_prefix _ _ _ _ Ht1 (eq_sym L)) as [-> Hrest].
      destruct (coordinate_tag_unique _ _ _ _ _ _ _ _ Tag Tag1 Hrest)
        as (_ & -> & -> & ->).
      reflexivity.
    + exfalso.
      apply (search_from_none _ _ _ E pre t post [a; b] Ht).
      apply rx_sem_coordinate. eauto.
  - intros Hnone.
    destruct (str_match text COORDINATE_REGEX) as [m|] eqn:E.
    + destruct (parse_tag_found text m E)
        as (pre1 & post1 & a1 & b1 & Ht1 & Tag1 & _).
      exfalso. apply (Hnone pre1 (matched m) post1 Ht1).
      exists a1, b1. exact Tag1.
    + unfold parse_tag. rewrite E. reflexivity.
  - vm_compute. reflexivity.
  - intros uuid now response. unfold build_message.
    destruct (parse_tag _) as [cleanText suggestedLocation]. auto.
Qed.

Lemma tag_removed_and_location_parsed_witness :
  parse_tag (js "  Go there {{LAT:-12.5,LNG:130.}} now. ")
  = (js "Go there  now.",
     Some {| lat := parseFloat (js "-12.5"); lng := parseFloat (js "130.") |})
  /\ parse_tag (js " No location here. ") = (js " No location here. ", None).
Proof.
  split.
  - apply (proj1 (tag_removed_and_location_parsed
                    (js "  Go there {{LAT:-12.5,LNG:130.}} now. "))
                 (js "  Go there ") (js "{{LAT:-12.5,LNG:130.}}")
                 (js " now. ") (js "-12.5") (js "130.") eq_refl).
    + exists []. repeat split.
      * exists (js "-"), (js "12"), (js "."), (js "5"). repeat split; auto.
        discriminate.
      * exists [], (js "130"), (js "."), []. repeat split; auto.
        discriminate.
    + intros pre' t' post' E (a' & b' & ws & -> & _).
      destruct (Nat.le_gt_cases (length (js "  Go there ")) (length pre'))
        as [L | L]; [exact L | exfalso].
      repeat (destruct pre' as [|? pre'];
              [ discriminate E
              | try (exfalso; simpl in L; lia);
                injection E as <- E ]).
  - apply (proj1 (proj2 (tag_removed_and_location_parsed
                           (js " No location here. ")))).
    intros pre t post E (a & b & ws & -> & _).
    repeat (destruct pre as [|? pre];
            [ discriminate E | injection E as <- E ]).
    destruct pre; discriminate E.
Defined.

End TagTheorem.

(** ** What the validators let through *)

Section ValidatorTheorem.

Import Spec Store App Gemini Sample.
Import Leaflet MapComponent MapControls.

Lemma sanitize_message_clean (m m' : jsval) :
  sanitize_message m = Ok m' -> clean_suggested m' /\ clean_related m'.
Proof.
  intros H. apply sanitize_message_ok in H. destruct H as (rl' & Hf & ->).
  unfold clean_suggested, clean_related, field. split.
  - rewrite lookup_obj_set_other by exact SL_RL.
    rewrite lookup_obj_set_same. unfold kept.
    destruct (isValidStoredLoc _) eqn:E; auto.
  - rewrite lookup_obj_set_same.
    apply opt_filter_ok in Hf.
    destruct Hf as [[_ ->] | (l & _ & ->)]; [left; reflexivity | right].
    eexists. split; [reflexivity|].
    apply forallb_forall. intros x Hx. apply filter_In in Hx. tauto.
Qed.













(** A reply can make the parser suggest a location that is not finite:
    a latitude of 310 digits overflows. *)
Lemma parser_can_suggest_infinity :
  snd (parse_tag (js "{{LAT:" ++ huge_digits ++ js ", LNG:0}}"))
  = Some unbounded.
Proof. vm_compute. reflexivity. Qed.

End ValidatorTheorem.

(** ** The greedy number at the end of a pattern *)

Section GreedyFacts.

Import Spec.

Lemma take_drop_while (p : char -> bool) (s : jsstring) :
  take_while p s ++ drop_while p s = s.
Proof.
  induction s as [|c s IH]; simpl; [reflexivity|].
  destruct (p c); simpl; [rewrite IH|]; reflexivity.
Qed.

Lemma take_while_all (p : char -> bool) (s : jsstring) :
  forallb p (take_while p s) = true.
Proof.
  induction s as [|c s IH]; simpl; [reflexivity|].
  destruct (p c) eqn:E; simpl; [rewrite E|]; auto.
Qed.

Lemma drop_while_head (p : char -> bool) (s r : jsstring) (c : char) :
  drop_while p s = c :: r -> p c = false.
Proof.
  induction s as [|x s IH]; simpl; [discriminate|].
  destruct (p x) eqn:E; [exact IH|]. intros H. injection H as <- _.
  exact E.
Qed.

(** With a continuation that cannot fail, the star takes the whole run. *)
Lemma star_greedy {A} (p : char -> bool) (s : jsstring)
      (k : jsstring -> option A) :
  (forall s', k s' <> None) -> star p s k = k (drop_while p s).
Proof.
  intros Hk. induction s as [|c s IH]; simpl; [reflexivity|].
  destruct (p c); [|reflexivity].
  rewrite IH. destruct (k (drop_while p s)) eqn:E; [reflexivity|].
  exfalso. exact (Hk _ E).
Qed.

Lemma rmatch_fraction_greedy {A} (s : jsstring) (caps : list jsstring)
      (k : jsstring -> list jsstring -> option A) :
  (forall s' c', k s' c' <> None) ->
  rmatch (RSeq (ROpt (RChar 46%N)) (RStar is_digit)) s caps k
  = k (drop_while is_digit (snd (split_dot s))) caps.
Proof.
  intros Hk. cbn [rmatch].
  assert (G : forall t, star is_digit t (fun s' => k s' caps)
                        = k (drop_while is_digit t) caps).
  { intros t. apply (star_greedy is_digit t (fun s' => k s' caps)).
    intros s'. apply Hk. }
  destruct s as [|c t]; unfold split_dot.
  - rewrite G. reflexivity.
  - destruct (c =? 46)%N; cbn [snd]; rewrite G.
    + destruct (k (drop_while is_digit t) caps) eqn:E;
        [reflexivity|]. exfalso. exact (Hk _ _ E).
    + reflexivity.
Qed.

Lemma rmatch_unsigned_greedy {A} (s : jsstring) (caps : list jsstring)
      (k : jsstring -> list jsstring -> option A) :
  (forall s' c', k s' c' <> None) ->
  rmatch (RSeq (RPlus is_digit)
               (RSeq (ROpt (RChar 46%N)) (RStar is_digit))) s caps k
  = match scan_unsigned s with
    | Some (w, r) => k r caps
    | None => None
    end.
Proof.
  intros Hk. cbn [rmatch]. unfold scan_unsigned.
  destruct s as [|x t]; [reflexivity|].
  destruct (is_digit x); [|reflexivity].
  pose proof (fun s2 =>
                rmatch_fraction_greedy s2 caps k Hk) as F.
  cbn [rmatch] in F.
  rewrite (star_greedy is_digit t
             (fun s2 =>
                match
                  match s2 with
                  | [] => None
                  | x0 :: s' =>
                      if (x0 =? 46)%N
                      then star is_digit s' (fun s'0 => k s'0 caps)
                      else None
                  end
                with
                | Some a => Some a
                | None => star is_digit s2 (fun s' => k s' caps)
                end)).
  - rewrite F. unfold scan_tail.
    destruct (split_dot (drop_while is_digit t)) as [dot s3].
    reflexivity.
  - intros s'. rewrite F. apply Hk.
Qed.

Lemma rmatch_number_greedy {A} (s : jsstring) (caps : list jsstring)
      (k : jsstring -> list jsstring -> option A) :
  (forall s' c', k s' c' <> None) ->
  rmatch NUMBER s caps k
  = match scan_number s with
    | Some (w, r) => k r caps
    | None => None
    end.
Proof.
  intros Hk. unfold NUMBER.
  pose proof (fun s1 => rmatch_unsigned_greedy s1 caps k Hk) as U.
  change (rmatch (RSeq (ROpt (RChar 45%N)) ?r) s caps k)
    with (match rmatch (RChar 45%N) s caps
                       (fun s' c' => rmatch r s' c' k) with
          | Some a => Some a
          | None => rmatch r s caps k
          end).
  unfold scan_number. destruct s as [|c t].
  - cbn [rmatch]. reflexivity.
  - cbn [rmatch] in *. destruct (c =? 45)%N eqn:E.
    + rewrite U. apply N.eqb_eq in E. subst c.
      destruct (scan_unsigned t) as [[w r]|] eqn:Es.
      * destruct (k r caps) eqn:Ek; [reflexivity|].
        exfalso. exact (Hk _ _ Ek).
      * reflexivity.
    + apply (U (c :: t)).
Qed.

Lemma scan_tail_split (s w r : jsstring) :
  scan_tail s = (w, r) ->
  s = w ++ r
  /\ (exists ip dot fp,
         w = ip ++ dot ++ fp /\ forallb is_digit ip = true
         /\ (dot = [] \/ dot = js ".") /\ forallb is_digit fp = true)
  /\ number_ends w r.
Proof.
  unfold scan_tail.
  destruct (split_dot (drop_while is_digit s)) as [dot s3] eqn:Ed.
  intros H. injection H as <- <-.
  assert (Hd : drop_while is_digit s = dot ++ s3
               /\ (dot = [] \/ dot = js ".")
               /\ (dot = [] ->
                   forall c t, s3 = c :: t ->
                               is_digit c = false /\ c <> 46%N)).
  { unfold split_dot in Ed.
    destruct (drop_while is_digit s) as [|c t] eqn:E.
    - injection Ed as <- <-. repeat split; auto; discriminate.
    - destruct (c =? 46)%N eqn:E46.
      + injection Ed as <- <-. apply N.eqb_eq in E46. subst c.
        split; [reflexivity|]. split; [right; reflexivity | discriminate].
      + injection Ed as <- <-.
        split; [reflexivity|]. split; [left; reflexivity|].
        intros _ c' t' Hc. injection Hc as <- <-. split.
        * exact (drop_while_head _ _ _ _ E).
        * apply N.eqb_neq. exact E46. }
  destruct Hd as (Hs & Hdot & Hnext).
  split; [|split].
  - rewrite <- !app_assoc, take_drop_while, <- Hs.
    symmetry. apply take_drop_while.
  - exists (take_while is_digit s), dot, (take_while is_digit s3).
    repeat split; auto using take_while_all.
  - unfold number_ends.
    destruct (drop_while is_digit s3) as [|c t] eqn:E; [exact I|].
    split; [exact (drop_while_head _ _ _ _ E)|].
    intros ->. destruct Hdot as [-> | ->].
    + exfalso. destruct s3 as [|c3 t3]; [discriminate|].
      destruct (Hnext eq_refl c3 t3 eq_refl) as [D N46].
      simpl in E. rewrite D in E. injection E as E _. congruence.
    + apply in_or_app. right. apply in_or_app. left. left. reflexivity.
Qed.

Lemma scan_number_spec (s w r : jsstring) :
  scan_number s = Some (w, r) ->
  s = w ++ r /\ number_text w /\ number_ends w r.
Proof.
  assert (U : forall s w r,
             scan_unsigned s = Some (w, r) ->
             s = w ++ r
             /\ (exists ip dot fp,
                    w = ip ++ dot ++ fp /\ ip <> []
                    /\ forallb is_digit ip = true
                    /\ (dot = [] \/ dot = js ".")
                    /\ forallb is_digit fp = true)
             /\ number_ends w r).
  { clear. intros s w r. unfold scan_unsigned.
    destruct s as [|x t]; [discriminate|].
    destruct (is_digit x) eqn:Dx; [|discriminate].
    destruct (scan_tail t) as [w' r'] eqn:Et. intros H.
    injection H as <- <-.
    destruct (scan_tail_split _ _ _ Et)
      as (-> & (ip & dot & fp & -> & Fip & Hdot & Ffp) & He).
    split; [reflexivity|]. split.
    - exists (x :: ip), dot, fp. repeat split; auto; try discriminate.
      simpl. rewrite Dx. exact Fip.
    - unfold number_ends in *. destruct r' as [|c r']; [exact I|].
      destruct He as [Hc H46]. split; [exact Hc|].
      intros E. right. exact (H46 E). }
  unfold scan_number. destruct s as [|c t]; [discriminate|].
  destruct (c =? 45)%N eqn:E.
  - apply N.eqb_eq in E. subst c.
    destruct (scan_unsigned t) as [[w' r']|] eqn:Es; [|discriminate].
    intros H. injection H as <- <-.
    destruct (U _ _ _ Es)
      as (-> & (ip & dot & fp & -> & Nip & Fip & Hdot & Ffp) & He).
    split; [reflexivity|]. split.
    + exists (js "-"), ip, dot, fp. repeat split; auto.
    + unfold number_ends in *. destruct r' as [|c r']; [exact I|].
      destruct He as [Hc H46]. split; [exact Hc|].
      intros E. right. exact (H46 E).
  - intros H. destruct (U _ _ _ H)
      as (-> & (ip & dot & fp & -> & Nip & Fip & Hdot & Ffp) & He).
    split; [reflexivity|]. split; [|exact He].
    exists [], ip, dot, fp. repeat split; auto.
Qed.

(** A capturing [<number>] at the end of a pattern takes the longest
    number there is. *)
Lemma rmatch_last_number {A} (s : jsstring) (caps : list jsstring)
      (k : jsstring -> list jsstring -> option A) (res : A) :
  (forall s' c', k s' c' <> None) ->
  rmatch (RGroup NUMBER) s caps k = Some res ->
  exists b rest,
    s = b ++ rest /\ number_text b /\ number_ends b rest
    /\ k rest (caps ++ [b]) = Some res.
Proof.
  intros Hk H. cbn [rmatch] in H.
  rewrite rmatch_number_greedy in H.
  - destruct (scan_number s) as [[w r]|] eqn:E; [|discriminate].
    destruct (scan_number_spec _ _ _ E) as (-> & Nw & He).
    rewrite firstn_app_exact in H. exists w, r. auto.
  - intros s' c'. apply Hk.
Qed.

End GreedyFacts.

(** ** Related locations from the citations *)

Section RelatedTheorem.

Import Spec Gemini Sample.

Lemma rmatch_seq {A} (r1 r2 : regex) (s : jsstring) (caps : list jsstring)
      (k : jsstring -> list jsstring -> option A) :
  rmatch (RSeq r1 r2) s caps k
  = rmatch r1 s caps (fun s' c' => rmatch r2 s' c' k).
Proof. reflexivity. Qed.

(** A match of the maps pattern at the head of [s]. *)
Lemma match_at_maps (s m0 : jsstring) (caps : list jsstring) :
  match_at MAPS_REGEX s = Some (m0, caps) ->
  exists a b rest,
    s = m0 ++ rest /\ maps_pair m0 a b /\ caps = [a; b]
    /\ number_ends b rest.
Proof.
  unfold match_at, MAPS_REGEX. intros H.
  rewrite rmatch_seq in H. apply rmatch_sound in H.
  destruct H as (w1 & s1 & c1 & Hs & L1 & H).
  apply rx_sem_lit in L1. destruct L1 as (-> & ->).
  rewrite rmatch_seq in H. apply rmatch_sound in H.
  destruct H as (a & s2 & c2 & -> & (c2' & Na & ->) & H).
  apply rx_sem_number in Na. destruct Na as (Na & ->).
  rewrite rmatch_seq in H. apply rmatch_sound in H.
  destruct H as (w3 & s3 & c3 & -> & L3 & H).
  apply rx_sem_lit in L3. destruct L3 as (-> & ->).
  apply rmatch_last_number in H; [|discriminate].
  destruct H as (b & rest & -> & Nb & He & H).
  assert (E : s = (js "!3d" ++ a ++ js "!4d" ++ b) ++ rest).
  { rewrite Hs, <- !app_assoc. reflexivity. }
  rewrite E, firstn_app_exact in H. injection H as <- <-.
  exists a, b, rest. unfold maps_pair. auto.
Qed.

(** What a place citation with a matching URI contributes. *)
Lemma chunk_locations_found (chunk : GroundingChunk) (mp : Source.t)
      (u : jsstring) (m : match_result) :
  maps chunk = Some mp -> Source.uri mp = Some u ->
  str_match u MAPS_REGEX = Some m ->
  exists pre a b post,
    u = pre ++ (js "!3d" ++ a ++ js "!4d" ++ b) ++ post
    /\ number_text a /\ number_text b /\ number_ends b post
    /\ (forall pre' t' post' a' b',
           u = pre' ++ t' ++ post' -> maps_pair t' a' b' ->
           (length pre <= length pre')%nat)
    /\ chunk_locations chunk
       = [{| lat := parseFloat a; lng := parseFloat b |}].
Proof.
  intros Hm Hu H. unfold chunk_locations. rewrite Hm, Hu.
  destruct u as [|c u].
  { unfold str_match in H. simpl in H. discriminate. }
  rewrite H.
  apply search_from_sound in H.
  destruct H as (pre & post & Ht & _ & _ & Hat & Hleast).
  apply match_at_maps in Hat.
  destruct Hat as (a & b & rest & Hrest & (Hm0 & Na & Nb) & Hg & He).
  apply app_inv_head in Hrest. subst rest.
  exists pre, a, b, post. rewrite <- Hm0.
  repeat split; auto.
  - intros pre' t' post' a' b' E P.
    apply (Hleast pre' t' post' [a'; b'] E).
    apply rx_sem_maps. eauto.
  - unfold group. rewrite Hg. cbn [nth Nat.sub].
    rewrite (parseFloat_number_text _ Na), (parseFloat_number_text _ Nb).
    reflexivity.
Qed.

Lemma chunk_locations_none (chunk : GroundingChunk) (mp : Source.t)
      (u : jsstring) :
  maps chunk = Some mp -> Source.uri mp = Some u ->
  str_match u MAPS_REGEX = None -> chunk_locations chunk = [].
Proof.
  intros Hm Hu H. unfold chunk_locations. rewrite Hm, Hu.
  destruct u; [reflexivity|]. rewrite H. reflexivity.
Qed.

(** C6 (amended): the related locations of the returned message are the
    contributions of the citations, in citation order, and are absent
    when there is none.  A citation without a place, without a URI, or
    whose URI holds no pair [!3d<number>!4d<number>] contributes nothing;
    any other contributes the two numbers of the first pair of its URI,
    each taken as far as it goes, whatever their size. *)
Theorem related_locations_extracted :
  (forall uuid now response,
      Message.relatedLocations (build_message uuid now response)
      = match parse_related (r_groundingChunks response) with
        | [] => None
        | l => Some l
        end)
  /\ parse_related None = []
  /\ (forall chunks,
         parse_related (Some chunks) = concat (map chunk_locations chunks))
  /\ (forall chunk, maps chunk = None -> chunk_locations chunk = [])
  /\ (forall chunk mp,
         maps chunk = Some mp ->
         Source.uri mp = None \/ Source.uri mp = Some [] ->
         chunk_locations chunk = [])
  /\ (forall chunk mp u,
         maps chunk = Some mp -> Source.uri mp = Some u ->
         (forall pre t post a b,
             u = pre ++ t ++ post -> ~ maps_pair t a b) ->
         chunk_locations chunk = [])
  /\ (forall chunk mp u pre0 t0 post0 a0 b0,
         maps chunk = Some mp -> Source.uri mp = Some u ->
         u = pre0 ++ t0 ++ post0 -> maps_pair t0 a0 b0 ->
         exists pre a b post,
           u = pre ++ (js "!3d" ++ a ++ js "!4d" ++ b) ++ post
           /\ number_text a /\ number_text b /\ number_ends b post
           /\ (forall pre' t' post' a' b',
                  u = pre' ++ t' ++ post' -> maps_pair t' a' b' ->
                  (length pre <= length pre')%nat)
           /\ chunk_locations chunk
              = [{| lat := parseFloat a; lng := parseFloat b |}])
  /\ parse_related (Some [web_page; tokyo_place]) = [tokyo].
Proof.
  repeat match goal with |- _ /\ _ => split end.
  - intros uuid now response. unfold build_message.
    destruct (parse_tag _). cbn [Message.relatedLocations].
    destruct (parse_related _); reflexivity.
  - reflexivity.
  - intros chunks. unfold parse_related. apply flat_map_concat_map.
  - intros chunk H. unfold chunk_locations. rewrite H. reflexivity.
  - intros chunk mp Hm [Hu | Hu]; unfold chunk_locations;
      rewrite Hm, Hu; reflexivity.
  - intros chunk mp u Hm Hu Hnone.
    destruct (str_match u MAPS_REGEX) as [m|] eqn:E.
    + destruct (chunk_locations_found chunk mp u m Hm Hu E)
        as (pre & a & b & post & Hs & Na & Nb & _).
      exfalso. apply (Hnone pre _ post a b Hs).
      unfold maps_pair. auto.
    + exact (chunk_locations_none chunk mp u Hm Hu E).
  - intros chunk mp u pre0 t0 post0 a0 b0 Hm Hu Hs P.
    destruct (str_match u MAPS_REGEX) as [m|] eqn:E.
    + exact (chunk_locations_found chunk mp u m Hm Hu E).
    + exfalso.
      apply (search_from_none _ _ _ E pre0 t0 post0 [a0; b0] Hs).
      apply rx_sem_maps. eauto.
  - vm_compute. reflexivity.
Qed.

(** A place whose URI holds a pair after some other text; the second
    number stops before the second dot. *)
Lemma related_locations_extracted_witness :
  exists pre a b post,
    js "x!3d1.5!4d-2.25.7" = pre ++ (js "!3d" ++ a ++ js "!4d" ++ b) ++ post
    /\ number_ends b post
    /\ chunk_locations (place "x!3d1.5!4d-2.25.7")
       = [{| lat := parseFloat a; lng := parseFloat b |}].
Proof.
  destruct (proj1 (proj2 (proj2 (proj2 (proj2 (proj2 (proj2
              related_locations_extracted))))))
              (place "x!3d1.5!4d-2.25.7")
              {| Source.uri := Some (js "x!3d1.5!4d-2.25.7");
                 Source.title := Some (js "A place") |}
              (js "x!3d1.5!4d-2.25.7")
              (js "x") (js "!3d1.5!4d-2") (js ".25.7")
              (js "1.5") (js "-2") eq_refl eq_refl eq_refl)
    as (pre & a & b & post & Hs & _ & _ & He & _ & Hc).
  - split; [reflexivity|]. split.
    + exists [], (js "1"), (js "."), (js "5"). repeat split; auto.
      discriminate.
    + exists (js "-"), (js "2"), [], []. repeat split; auto.
      discriminate.
  - exists pre, a, b, post. auto.
Defined.

(** C6, counterexample: a pair outside the coordinate ranges and a pair
    whose latitude overflows to infinity are both kept, although the
    validators of the specification and of the code reject them. *)
Lemma related_keeps_invalid_pairs :
  parse_related (Some [far_place]) = [far_away]
  /\ ~ spec_valid (loc_val far_away)
  /\ parse_related (Some [huge_place])
     = [{| lat := Infinity; lng := S754_zero false |}]
  /\ isValidLocation (loc_val {| lat := Infinity; lng := S754_zero false |})
     = false.
Proof.
  split; [vm_compute; reflexivity|]. split.
  - intros (o & la & ln & E & Ela & Eln & _ & _ & R).
    injection E as <-. vm_compute in Ela. vm_compute in Eln.
    injection Ela as <-. injection Eln as <-.
    vm_compute in R. discriminate.
  - split; vm_compute; reflexivity.
Qed.

End RelatedTheorem.

(* ===================================================================== *)
(** * Further properties of the code *)
(* ===================================================================== *)

(** ** The message built from a response *)

Section MessageFacts.

Import Spec Gemini Sample.

Lemma parse_tag_not_nan (text : jsstring) (l : GeoLocation) :
  snd (parse_tag text) = Some l ->
  isNaN (lat l) = false /\ isNaN (lng l) = false.
Proof.
  unfold parse_tag. destruct (str_match text COORDINATE_REGEX) as [m|];
    [|discriminate].
  cbn [snd].
  destruct (isNaN (parseFloat (group m 1))) eqn:E1;
    destruct (isNaN (parseFloat (group m 2))) eqn:E2;
    cbn [negb andb]; try discriminate.
  intros H. injection H as <-. auto.
Qed.

Lemma chunk_locations_cases (chunk : GroundingChunk) :
  chunk_locations chunk = []
  \/ exists l, chunk_locations chunk = [l]
               /\ isNaN (lat l) = false /\ isNaN (lng l) = false
               /\ maps chunk <> None.
Proof.
  unfold chunk_locations. destruct (maps chunk) as [mp|]; [|auto].
  destruct (Source.uri mp) as [[|c u]|]; auto.
  destruct (str_match (c :: u) MAPS_REGEX) as [m|]; auto.
  destruct (isNaN (parseFloat (group m 1))) eqn:E1;
    destruct (isNaN (parseFloat (group m 2))) eqn:E2;
    cbn [negb andb]; auto.
  right. eexists. split; [reflexivity|]. cbn. repeat split; auto.
  discriminate.
Qed.

Lemma flat_map_chunk_locations (chunks : list GroundingChunk)
      (l : GeoLocation) :
  In l (flat_map chunk_locations chunks) ->
  isNaN (lat l) = false /\ isNaN (lng l) = false.
Proof.
  intros H. apply in_flat_map in H. destruct H as (chunk & _ & H).
  destruct (chunk_locations_cases chunk) as [E | (l' & E & Na & Nn & _)];
    rewrite E in H; simpl in H; [contradiction|].
  destruct H as [<- | []]. auto.
Qed.

Lemma build_message_related (uuid : jsstring) (now : Z)
      (response : Response) :
  Message.relatedLocations (build_message uuid now response)
  = match parse_related (r_groundingChunks response) with
    | [] => None
    | l => Some l
    end.
Proof.
  unfold build_message. destruct (parse_tag _).
  cbn [Message.relatedLocations].
  destruct (parse_related _); reflexivity.
Qed.

Lemma build_message_suggested (uuid : jsstring) (now : Z)
      (response : Response) :
  Message.suggestedLocation (build_message uuid now response)
  = snd (parse_tag (or_else (r_text response) FALLBACK_TEXT)).
Proof. unfold build_message. destruct (parse_tag _). reflexivity. Qed.

Lemma build_message_text (uuid : jsstring) (now : Z) (response : Response) :
  Message.text (build_message uuid now response)
  = fst (parse_tag (or_else (r_text response) FALLBACK_TEXT)).
Proof. unfold build_message. destruct (parse_tag _). reflexivity. Qed.

(** X1: no location of a returned message has a NaN coordinate, neither
    the suggested one nor a related one. *)
Theorem message_locations_not_nan (uuid : jsstring) (now : Z)
        (response : Response) :
  (forall l,
      Message.suggestedLocation (build_message uuid now response) = Some l ->
      isNaN (lat l) = false /\ isNaN (lng l) = false)
  /\ (forall ls l,
         Message.relatedLocations (build_message uuid now response)
         = Some ls ->
         In l ls -> isNaN (lat l) = false /\ isNaN (lng l) = false).
Proof.
  split.
  - intros l H. rewrite build_message_suggested in H.
    exact (parse_tag_not_nan _ _ H).
  - intros ls l H Hin. rewrite build_message_related in H.
    unfold parse_related in H.
    destruct (r_groundingChunks response) as [chunks|]; [|discriminate].
    destruct (flat_map chunk_locations chunks) as [|x xs] eqn:E;
      [discriminate|].
    injection H as <-. apply (flat_map_chunk_locations chunks).
    rewrite E. exact Hin.
Qed.

Lemma flat_map_length_le (chunks : list GroundingChunk) :
  (length (flat_map chunk_locations chunks)
   <= length (filter (fun c => match maps c with
                               | Some _ => true
                               | None => false
                               end) chunks))%nat.
Proof.
  induction chunks as [|c chunks IH]; simpl; [lia|].
  rewrite length_app.
  destruct (chunk_locations_cases c) as [E | (l & E & _ & _ & Hm)];
    rewrite E; simpl.
  - destruct (maps c); simpl; lia.
  - destruct (maps c); [simpl; lia | congruence].
Qed.

(** X2: the related locations of a returned message, when present, are
    not empty, and there are at most as many as there are place
    citations. *)
Theorem related_present_nonempty_bounded (uuid : jsstring) (now : Z)
        (response : Response) (ls : list GeoLocation) :
  Message.relatedLocations (build_message uuid now response) = Some ls ->
  ls <> []
  /\ exists chunks,
       r_groundingChunks response = Some chunks
       /\ (length ls
           <= length (filter (fun c => match maps c with
                                       | Some _ => true
                                       | None => false
                                       end) chunks))%nat.
Proof.
  intros H. rewrite build_message_related in H. unfold parse_related in H.
  destruct (r_groundingChunks response) as [chunks|]; [|discriminate].
  pose proof (flat_map_length_le chunks) as L.
  destruct (flat_map chunk_locations chunks) as [|x xs]; [discriminate|].
  injection H as <-. split; [discriminate|].
  exists chunks. auto.
Qed.

Lemma related_present_nonempty_bounded_witness :
  [tokyo] <> []
  /\ exists chunks,
       Some [web_page; tokyo_place] = Some chunks
       /\ (length [tokyo]
           <= length (filter (fun c => match maps c with
                                       | Some _ => true
                                       | None => false
                                       end) chunks))%nat.
Proof.
  apply (related_present_nonempty_bounded
           (js "id") 0
           {| r_text := Some (js "Tokyo.");
              r_groundingChunks := Some [web_page; tokyo_place] |}
           [tokyo]).
  vm_compute. reflexivity.
Defined.

End MessageFacts.

(** ** Trimming *)

Section TrimFacts.

Import Spec2.

Lemma drop_while_app_stop (p : char -> bool) (a r : jsstring) (c : char) :
  p c = false -> drop_while p (a ++ c :: r) = drop_while p a ++ c :: r.
Proof.
  intros Hc. induction a as [|x a IH]; simpl.
  - rewrite Hc. reflexivity.
  - destruct (p x); [exact IH | reflexivity].
Qed.

Lemma drop_while_nil_iff (p : char -> bool) (s : jsstring) :
  drop_while p s = [] <-> forallb p s = true.
Proof.
  induction s as [|x s IH]; simpl; [tauto|].
  destruct (p x); simpl; [exact IH|]. split; discriminate.
Qed.

Lemma forallb_rev (p : char -> bool) (s : jsstring) :
  forallb p (rev s) = forallb p s.
Proof.
  induction s as [|x s IH]; simpl; [reflexivity|].
  rewrite forallb_app, IH. simpl. rewrite andb_true_r. apply andb_comm.
Qed.

Lemma drop_while_keeps_nonspace (p : char -> bool) (s : jsstring) :
  forallb p (drop_while p s) = true -> drop_while p s = [].
Proof.
  induction s as [|x s IH]; simpl; [reflexivity|].
  destruct (p x) eqn:E; [exact IH|]. simpl. rewrite E. discriminate.
Qed.

(** Trimming leaves nothing exactly when there is only white space. *)
Lemma trim_nil_iff (s : jsstring) :
  trim s = [] <-> forallb is_space s = true.
Proof.
  unfold trim, trimEnd, trimStart. split.
  - intros H. apply (f_equal (@rev char)) in H.
    rewrite rev_involutive in H. simpl in H.
    apply drop_while_nil_iff in H. rewrite forallb_rev in H.
    apply drop_while_keeps_nonspace in H.
    apply drop_while_nil_iff. exact H.
  - intros H. apply drop_while_nil_iff in H. rewrite H. reflexivity.
Qed.

(** Trimming does not reach into a part that neither starts nor ends
    with white space. *)
Lemma trim_keeps (a t b : jsstring) (c e : char) (t' : jsstring) :
  t = c :: t' -> is_space c = false ->
  last_char t = Some e -> is_space e = false ->
  trim (a ++ t ++ b)
  = drop_while is_space a ++ t ++ rev (drop_while is_space (rev b)).
Proof.
  intros Ht Hc He Hs. unfold trim, trimStart, trimEnd.
  rewrite Ht at 1. cbn [app].
  rewrite (drop_while_app_stop is_space a (t' ++ b) c Hc).
  change (c :: t' ++ b) with ((c :: t') ++ b). rewrite <- Ht.
  rewrite !rev_app_distr.
  unfold last_char in He. destruct (rev t) as [|e' u] eqn:Er;
    [discriminate|]. injection He as ->.
  rewrite <- app_assoc. cbn [app].
  rewrite (drop_while_app_stop is_space (rev b) _ e Hs).
  rewrite rev_app_distr.
  change (e :: u ++ rev (drop_while is_space a))
    with ((e :: u) ++ rev (drop_while is_space a)).
  rewrite <- Er, rev_app_distr, !rev_involutive, <- app_assoc.
  reflexivity.
Qed.

(** A string that neither starts nor ends with white space is its own
    trimmed form. *)
Lemma trim_solid (t : jsstring) (c e : char) (t' : jsstring) :
  t = c :: t' -> is_space c = false ->
  last_char t = Some e -> is_space e = false ->
  trim t = t.
Proof.
  intros Ht Hc He Hs.
  pose proof (trim_keeps [] t [] c e t' Ht Hc He Hs) as H.
  simpl in H. rewrite !app_nil_r in H. exact H.
Qed.

Lemma last_char_app (s : jsstring) (e : char) :
  last_char (s ++ [e]) = Some e.
Proof. unfold last_char. rewrite rev_app_distr. reflexivity. Qed.

(** What trimming returns has no white space at either end. *)
Lemma trim_no_outer_space (s : jsstring) : no_outer_space (trim s).
Proof.
  unfold no_outer_space, trim, trimEnd, trimStart, last_char.
  set (d := drop_while is_space s). split.
  - intros c r H.
    assert (Hd : forall x y, d = x :: y -> is_space x = false).
    { intros x y E. exact (drop_while_head is_space s y x E). }
    destruct (drop_while is_space (rev d)) as [|x u] eqn:E;
      [discriminate|].
    assert (Hsuf : exists v, rev d = v ++ x :: u).
    { clear - E. induction (rev d) as [|y l IH]; simpl in E;
        [discriminate|].
      destruct (is_space y).
      - destruct (IH E) as (v & ->). exists (y :: v). reflexivity.
      - injection E as <- <-. exists []. reflexivity. }
    destruct Hsuf as (v & Ev).
    apply (f_equal (@rev char)) in Ev.
    rewrite rev_involutive, rev_app_distr in Ev.
    cbn [rev] in Ev, H. rewrite H in Ev. exact (Hd _ _ Ev).
  - intros c H. rewrite rev_involutive in H.
    destruct (drop_while is_space (rev d)) as [|x u] eqn:E;
      [discriminate|]. injection H as <-.
    exact (drop_while_head is_space (rev d) u x E).
Qed.

End TrimFacts.

(** ** The visible text after the tag is removed *)

Section VisibleTextFacts.

Import Spec Spec2 Gemini Sample.

Lemma coordinate_tag_ends (t a b : jsstring) :
  coordinate_tag t a b ->
  (exists t', t = 123%N :: t')
  /\ last_char t = Some 125%N
  /\ is_space 123%N = false /\ is_space 125%N = false.
Proof.
  intros (ws & -> & _). split; [|split; [|split; reflexivity]].
  - eexists. reflexivity.
  - replace (js "{{LAT:" ++ a ++ js "," ++ ws ++ js "LNG:" ++ b ++ js "}}")
      with ((js "{{LAT:" ++ a ++ js "," ++ ws ++ js "LNG:" ++ b ++ js "}")
              ++ [125%N]).
    + apply last_char_app.
    + repeat rewrite <- app_assoc. reflexivity.
Qed.

(** [parse_tag] at the leftmost tag of a text. *)
Lemma parse_tag_leftmost (text pre t post a b : jsstring) :
  text = pre ++ t ++ post ->
  coordinate_tag t a b ->
  (forall pre' t' post',
      text = pre' ++ t' ++ post' -> is_tag t' ->
      (length pre <= length pre')%nat) ->
  parse_tag text
  = (trim (pre ++ post),
     Some {| lat := parseFloat a; lng := parseFloat b |}).
Proof.
  intros Ht Tag Hleast.
  destruct (str_match text COORDINATE_REGEX) as [m|] eqn:E.
  - destruct (parse_tag_found text m E)
      as (pre1 & post1 & a1 & b1 & Ht1 & Tag1 & Hleast1 & ->).
    assert (L : length pre1 = length pre).
    { apply Nat.le_antisymm.
      - apply (Hleast1 pre t post Ht). exists a, b. exact Tag.
      - apply (Hleast pre1 (matched m) post1 Ht1). exists a1, b1.
        exact Tag1. }
    rewrite Ht in Ht1.
    destruct (same_prefix _ _ _ _ Ht1 (eq_sym L)) as [-> Hrest].
    destruct (coordinate_tag_unique _ _ _ _ _ _ _ _ Tag Tag1 Hrest)
      as (_ & -> & -> & ->).
    reflexivity.
  - exfalso.
    apply (search_from_none _ _ _ E pre t post [a; b] Ht).
    apply rx_sem_coordinate. eauto.
Qed.

(** A tag that only white space precedes is the leftmost one. *)
Lemma tag_after_spaces_leftmost (pre t post : jsstring) :
  forallb is_space pre = true ->
  forall pre' t' post',
    pre ++ t ++ post = pre' ++ t' ++ post' -> is_tag t' ->
    (length pre <= length pre')%nat.
Proof.
  intros Hsp pre' t' post' E (a' & b' & Tag').
  destruct (Nat.le_gt_cases (length pre) (length pre')) as [L | L];
    [exact L | exfalso].
  destruct (coordinate_tag_ends _ _ _ Tag') as ((u & ->) & _).
  symmetry in E. apply app_eq_app in E.
  destruct E as (d & [[-> E] | [-> E]]).
  - rewrite length_app in L. destruct d; simpl in L; lia.
  - destruct d as [|x d]; [rewrite app_nil_r in L; lia|].
    simpl in E. injection E as <- _.
    rewrite forallb_app in Hsp. simpl in Hsp.
    rewrite andb_false_r in Hsp. discriminate.
Qed.

Lemma or_else_nonempty (t : option jsstring) (d : jsstring) :
  d <> [] -> or_else t d <> [].
Proof. intros H. destruct t as [[|c s]|]; simpl; auto; discriminate. Qed.

Lemma parse_tag_match_or_same (text : jsstring) :
  (exists pre t post a b,
      text = pre ++ t ++ post /\ coordinate_tag t a b
      /\ (forall pre' t' post',
             text = pre' ++ t' ++ post' -> is_tag t' ->
             (length pre <= length pre')%nat)
      /\ fst (parse_tag text) = trim (pre ++ post))
  \/ ((forall pre t post, text = pre ++ t ++ post -> ~ is_tag t)
      /\ parse_tag text = (text, None)).
Proof.
  destruct (str_match text COORDINATE_REGEX) as [m|] eqn:E.
  - left. destruct (parse_tag_found text m E)
      as (pre & post & a & b & Ht & Tag & Hleast & Hp).
    exists pre, (matched m), post, a, b. rewrite Hp. auto.
  - right. split.
    + intros pre t post Ht (a & b & Tag).
      apply (search_from_none _ _ _ E pre t post [a; b] Ht).
      apply rx_sem_coordinate. eauto.
    + unfold parse_tag. rewrite E. reflexivity.
Qed.

(** X3: the text of a returned message is empty exactly when the reply
    is one tag with nothing but white space around it; the fallback
    sentence is not used in that case. *)
Theorem empty_text_iff_only_tag (uuid : jsstring) (now : Z)
        (response : Response) :
  Message.text (build_message uuid now response) = []
  <-> exists pre t post,
        or_else (r_text response) FALLBACK_TEXT = pre ++ t ++ post
        /\ is_tag t
        /\ forallb is_space pre = true /\ forallb is_space post = true.
Proof.
  rewrite build_message_text.
  set (text := or_else (r_text response) FALLBACK_TEXT).
  assert (Ntext : text <> []).
  { apply or_else_nonempty. discriminate. }
  split.
  - intros H.
    destruct (parse_tag_match_or_same text)
      as [(pre & t & post & a & b & Ht & Tag & _ & Hp) | (_ & Hp)].
    + rewrite Hp in H. apply trim_nil_iff in H.
      rewrite forallb_app in H. apply andb_true_iff in H.
      exists pre, t, post. repeat split; try tauto. exists a, b. exact Tag.
    + rewrite Hp in H. simpl in H. contradiction.
  - intros (pre & t & post & Ht & (a & b & Tag) & Hpre & Hpost).
    rewrite (parse_tag_leftmost text pre t post a b Ht Tag).
    + cbn [fst]. apply trim_nil_iff. rewrite forallb_app, Hpre, Hpost.
      reflexivity.
    + rewrite Ht. apply tag_after_spaces_leftmost. exact Hpre.
Qed.

(** X4: only the first tag is removed; a tag that comes later in the
    reply stays in the visible text. *)
Theorem later_tag_stays_visible
        (text pre t1 a1 b1 mid t2 post : jsstring) :
  text = pre ++ t1 ++ mid ++ t2 ++ post ->
  coordinate_tag t1 a1 b1 ->
  (forall pre' t' post',
      text = pre' ++ t' ++ post' -> is_tag t' ->
      (length pre <= length pre')%nat) ->
  is_tag t2 ->
  fst (parse_tag text)
  = drop_while is_space (pre ++ mid) ++ t2
    ++ rev (drop_while is_space (rev post)).
Proof.
  intros Ht Tag1 Hleast (a2 & b2 & Tag2).
  rewrite (parse_tag_leftmost text pre t1 (mid ++ t2 ++ post) a1 b1
                              Ht Tag1 Hleast).
  cbn [fst]. rewrite app_assoc.
  destruct (coordinate_tag_ends _ _ _ Tag2) as ((u & Eu) & El & S1 & S2).
  exact (trim_keeps (pre ++ mid) t2 post _ _ u Eu S1 El S2).
Qed.

Lemma later_tag_stays_visible_witness :
  fst (parse_tag (js " A {{LAT:1,LNG:2}} B {{LAT:3, LNG:4}} "))
  = js "A  B {{LAT:3, LNG:4}}".
Proof.
  rewrite (later_tag_stays_visible
             (js " A {{LAT:1,LNG:2}} B {{LAT:3, LNG:4}} ")
             (js " A ") (js "{{LAT:1,LNG:2}}") (js "1") (js "2")
             (js " B ") (js "{{LAT:3, LNG:4}}") (js " ") eq_refl).
  - reflexivity.
  - exists []. repeat split; auto.
    + exists [], (js "1"), [], []. repeat split; auto. discriminate.
    + exists [], (js "2"), [], []. repeat split; auto. discriminate.
  - intros pre' t' post' E (a' & b' & ws & -> & _).
    destruct (Nat.le_gt_cases (length (js " A ")) (length pre'))
      as [L | L]; [exact L | exfalso].
    repeat (destruct pre' as [|? pre'];
            [ discriminate E
            | try (exfalso; simpl in L; lia);
              injection E as <- E ]).
  - exists (js "3"), (js "4"), (js " "). repeat split; auto.
    + exists [], (js "3"), [], []. repeat split; auto. discriminate.
    + exists [], (js "4"), [], []. repeat split; auto. discriminate.
Defined.

(** X5: when the reply holds a tag, the visible text neither starts nor
    ends with white space. *)
Theorem visible_text_trimmed (text pre t post : jsstring) :
  text = pre ++ t ++ post -> is_tag t ->
  no_outer_space (fst (parse_tag text)).
Proof.
  intros Ht Tag.
  destruct (parse_tag_match_or_same text)
    as [(pre1 & t1 & post1 & a & b & _ & _ & _ & Hp) | (Hnone & _)].
  - rewrite Hp. apply trim_no_outer_space.
  - exfalso. exact (Hnone pre t post Ht Tag).
Qed.

Lemma visible_text_trimmed_witness :
  no_outer_space (fst (parse_tag (js "  Go {{LAT:1,LNG:2}}  "))).
Proof.
  apply (visible_text_trimmed (js "  Go {{LAT:1,LNG:2}}  ")
                              (js "  Go ") (js "{{LAT:1,LNG:2}}") (js "  ")
                              eq_refl).
  exists (js "1"), (js "2"), []. repeat split; auto.
  - exists [], (js "1"), [], []. repeat split; auto. discriminate.
  - exists [], (js "2"), [], []. repeat split; auto. discriminate.
Defined.

End VisibleTextFacts.

(** ** The request sent to the service *)

Section RequestContextFacts.

Import Spec Gemini Sample.

Lemma slice_last_snoc {A} (n : nat) (older : list A) (newest : A) :
  slice_last (S n) (older ++ [newest]) = slice_last n older ++ [newest].
Proof.
  unfold slice_last. rewrite length_app. simpl length.
  replace (length older + 1 - S n)%nat with (length older - n)%nat by lia.
  rewrite skipn_app.
  replace (length older - n - length older)%nat with 0%nat by lia.
  reflexivity.
Qed.

(** X6: the location sent with a request never has a NaN coordinate, and
    the newest message of the history is always the last entry of the
    request. *)
Theorem request_location_and_newest (chatHistory : list Message.t)
        (userLocation : option GeoLocation) :
  (forall la ln,
      latLng (build_request chatHistory userLocation) = Some (la, ln) ->
      isNaN la = false /\ isNaN ln = false
      /\ userLocation = Some {| lat := la; lng := ln |})
  /\ (forall l,
         userLocation = Some l ->
         isNaN (lat l) = false -> isNaN (lng l) = false ->
         latLng (build_request chatHistory userLocation)
         = Some (lat l, lng l))
  /\ (forall older newest,
         chatHistory = older ++ [newest] ->
         contents (build_request chatHistory userLocation)
         = map to_content (slice_last 9 older) ++ [to_content newest]).
Proof.
  split; [|split].
  - intros la ln H. cbn [latLng build_request] in H.
    destruct userLocation as [[la' ln']|]; [|discriminate].
    cbn [lat lng] in H.
    destruct (isNaN la') eqn:Ea; destruct (isNaN ln') eqn:En;
      cbn [negb andb] in H; try discriminate.
    injection H as <- <-. auto.
  - intros l -> Ha Hn. cbn [latLng build_request].
    rewrite Ha, Hn. reflexivity.
  - intros older newest ->. cbn [contents build_request].
    unfold historyContext. rewrite slice_last_snoc, map_app. reflexivity.
Qed.

Lemma request_location_and_newest_witness :
  latLng (build_request [] (Some unbounded)) = Some (Infinity, of_Z 0)
  /\ contents (build_request
                 [msg "a" user "one" None None; msg "b" user "two" None None]
                 None)
     = [to_content (msg "a" user "one" None None);
        to_content (msg "b" user "two" None None)].
Proof.
  split.
  - apply (proj1 (proj2 (request_location_and_newest [] (Some unbounded)))
                 unbounded eq_refl eq_refl eq_refl).
  - apply (proj2 (proj2 (request_location_and_newest
                           [msg "a" user "one" None None;
                            msg "b" user "two" None None] None))
                 [msg "a" user "one" None None]
                 (msg "b" user "two" None None) eq_refl).
Defined.

End RequestContextFacts.

(** ** Sends and awaited calls *)

Section CallFacts.

Import Gemini App Lifecycle Spec Spec2 Sample.

Lemma loadSession_in_isLoading (closed : list ChatSession.t)
      (sessionId : jsstring) (st : State) :
  isLoading (loadSession_in closed sessionId st) = isLoading st.
Proof.
  unfold loadSession_in. destruct (find _ closed); reflexivity.
Qed.

Lemma loadSession_isLoading (sessionId : jsstring) (st : State) :
  isLoading (loadSession sessionId st) = isLoading st.
Proof.
  unfold loadSession. destruct (find _ (sessions st)); reflexivity.
Qed.

Lemma deleteSession_isLoading (confirmed : bool) (uuid : jsstring)
      (now1 now2 : Z) (sessionId : jsstring) (st : State) :
  isLoading (deleteSession confirmed uuid now1 now2 sessionId st)
  = isLoading st.
Proof.
  unfold deleteSession. destruct confirmed; [|reflexivity].
  destruct (is_current sessionId st); [|reflexivity].
  destruct (filter _ (sessions st)); [reflexivity|].
  rewrite loadSession_in_isLoading. reflexivity.
Qed.

Lemma send_accepted_shape (env : Env) (textOverride : option jsstring)
      (w : World) :
  send env textOverride w = w
  \/ (isLoading (app w) = false
      /\ isLoading (app (send env textOverride w)) = true
      /\ exists call, inflight (send env textOverride w)
                      = inflight w ++ [call]).
Proof.
  unfold send, handleSendMessage_begin.
  destruct (negb _) eqn:Eb; [left; reflexivity|].
  destruct (isLoading (app w)) eqn:El; [left; reflexivity|].
  right. cbn [orb app inflight]. split; [reflexivity|]. split.
  - rewrite (proj2 (proj2 (proj2 (syncSessions_keeps _ _)))). reflexivity.
  - eexists. reflexivity.
Qed.

Lemma settle_shape (ai : Request -> outcome) (env : Env) (w : World) :
  (inflight w = [] /\ settle ai env w = w)
  \/ exists call rest,
       inflight w = call :: rest
       /\ inflight (settle ai env w) = rest
       /\ isLoading (app (settle ai env w)) = false.
Proof.
  unfold settle. destruct (inflight w) as [|call rest]; [left; auto|].
  right. exists call, rest. split; [reflexivity|].
  destruct (sendMessageToGemini _ _ _ _ _) as [awaited logged].
  cbn [inflight app]. split; [reflexivity|].
  rewrite (proj2 (proj2 (proj2 (syncSessions_keeps _ _)))).
  unfold handleSendMessage_end. destruct awaited as [response|e].
  - destruct (present_and_valid _); reflexivity.
  - reflexivity.
Qed.

Lemma run_event_one_call (e : event) (w : World) :
  one_call_at_most w -> one_call_at_most (run_event e w).
Proof.
  intros I.
  assert (K : forall f, (forall st, isLoading (f st) = isLoading st) ->
                        one_call_at_most (on_app f w)).
  { intros f Hf. unfold one_call_at_most, on_app. cbn [app inflight].
    rewrite Hf. exact I. }
  destruct e; cbn [run_event].
  - destruct (send_accepted_shape env textOverride w)
      as [-> | (El & El' & call & Ec)]; [exact I|].
    destruct I as [[_ Hq] | [Ht _]]; [|congruence].
    right. split; [exact El'|]. exists call. rewrite Ec, Hq. reflexivity.
  - destruct (settle_shape ai env w)
      as [[_ ->] | (call & rest & Hq & Hq' & El)]; [exact I|].
    destruct I as [[_ Hn] | [_ (c & Hc)]]; [congruence|].
    left. split; [exact El|]. rewrite Hq'. rewrite Hc in Hq.
    injection Hq as _ <-. reflexivity.
  - apply K. intros st. apply loadSession_isLoading.
  - apply K. reflexivity.
  - apply K. intros st. apply deleteSession_isLoading.
  - apply K. intros st.
    exact (proj2 (proj2 (proj2 (syncSessions_keeps _ st)))).
  - apply K. reflexivity.
  - apply K. reflexivity.
Qed.

(** X7: whatever the user and the service do, at most one call to the
    service is awaited at a time, and one is awaited exactly while
    [isLoading] holds. *)
Theorem one_call_outstanding (es : list event) (w : World) :
  one_call_at_most w ->
  one_call_at_most (run_events es w)
  /\ (length (inflight (run_events es w)) <= 1)%nat.
Proof.
  intros I.
  assert (J : one_call_at_most (run_events es w)).
  { unfold run_events. revert w I.
    induction es as [|e es IH]; intros w I; simpl; [exact I|].
    apply IH. apply run_event_one_call. exact I. }
  split; [exact J|].
  destruct J as [[_ ->] | [_ (c & ->)]]; simpl; lia.
Qed.

Lemma one_call_outstanding_witness :
  (length (inflight
             (run_events
                [ESend env0 (Some (js "Where is Tokyo?"));
                 ESend env0 (Some (js "And Paris?"));
                 ESwitch (js "s1");
                 ESend env0 (Some (js "Hello?"))]
                w_idle)) <= 1)%nat.
Proof.
  apply (one_call_outstanding
           [ESend env0 (Some (js "Where is Tokyo?"));
            ESend env0 (Some (js "And Paris?"));
            ESwitch (js "s1");
            ESend env0 (Some (js "Hello?"))]
           w_idle).
  left. split; reflexivity.
Defined.

(** X8: a send accepted by an idle application, followed by a resolved
    call, appends the trimmed user message and then the model message,
    ends with no call awaited, and moves the target only to a valid
    suggested location. *)
Theorem send_then_resolved (ai : Request -> outcome) (env1 env2 : Env)
        (w : World) (text : jsstring) (response : Response) :
  isLoading (app w) = false ->
  inflight w = [] ->
  trim text <> [] ->
  ai (build_request
        (messages (app w) ++ [user_message (uuid env1) (now env1) text])
        (context_location (app w)))
  = Resolved response ->
  messages (app (settle ai env2 (send env1 (Some text) w)))
  = messages (app w)
    ++ [user_message (uuid env1) (now env1) text;
        build_message (service_uuid env2) (service_now env2) response]
  /\ isLoading (app (settle ai env2 (send env1 (Some text) w))) = false
  /\ inflight (settle ai env2 (send env1 (Some text) w)) = []
  /\ console (settle ai env2 (send env1 (Some text) w)) = console w
  /\ targetLocation (app (settle ai env2 (send env1 (Some text) w)))
     = (if present_and_valid
             (Message.suggestedLocation
                (build_message (service_uuid env2) (service_now env2)
                               response))
        then Message.suggestedLocation
               (build_message (service_uuid env2) (service_now env2)
                              response)
        else targetLocation (app w)).
Proof.
  intros El Hq Ht Hai.
  assert (Es : send env1 (Some text) w
               = {| app := syncSessions (effect_now env1)
                      {| userLocation := userLocation (app w);
                         targetLocation := targetLocation (app w);
                         input := [];
                         isLoading := true;
                         isMobileMapOpen :=
                           if truthy (JStr text) && isMobileMapOpen (app w)
                           then false else isMobileMapOpen (app w);
                         isSidebarOpen := isSidebarOpen (app w);
                         sessions := sessions (app w);
                         currentSessionId := currentSessionId (app w);
                         messages :=
                           messages (app w)
                           ++ [user_message (uuid env1) (now env1) text] |};
                    inflight :=
                      [{| currentHistory :=
                            messages (app w)
                            ++ [user_message (uuid env1) (now env1) text];
                          contextLocation := context_location (app w) |}];
                    console := console w |}).
  { unfold send, handleSendMessage_begin. rewrite El, orb_false_r.
    destruct (trim text) as [|c r] eqn:E; [congruence|].
    cbn [truthy negb]. rewrite Hq. unfold user_message. rewrite E.
    reflexivity. }
  rewrite Es. unfold settle. cbn [inflight app console].
  unfold sendMessageToGemini. cbn [currentHistory contextLocation].
  rewrite Hai.
  set (st1 := syncSessions (effect_now env1) _).
  set (resp := build_message _ _ response).
  destruct (syncSessions_keeps (effect_now env1)
              {| userLocation := userLocation (app w);
                 targetLocation := targetLocation (app w);
                 input := [];
                 isLoading := true;
                 isMobileMapOpen :=
                   if truthy (JStr text) && isMobileMapOpen (app w)
                   then false else isMobileMapOpen (app w);
                 isSidebarOpen := isSidebarOpen (app w);
                 sessions := sessions (app w);
                 currentSessionId := currentSessionId (app w);
                 messages :=
                   messages (app w)
                   ++ [user_message (uuid env1) (now env1) text] |})
    as (Em & Etg & _ & _).
  fold st1 in Em, Etg. cbn [messages targetLocation] in Em, Etg.
  destruct (syncSessions_keeps (effect_now env2)
              (handleSendMessage_end (uuid env2) (now env2) (inl resp) st1))
    as (Em2 & Et2 & _ & El2).
  cbn [App.app inflight console].
  rewrite Em2, Et2, El2, app_nil_r. unfold handleSendMessage_end.
  destruct (present_and_valid (Message.suggestedLocation resp));
    cbn [messages targetLocation isLoading set_isLoading set_messages
         set_targetLocation];
    rewrite ?Em, ?Etg, <- ?app_assoc; auto.
Qed.

Lemma send_then_resolved_witness :
  inflight
    (settle (fun _ => Resolved {| r_text := Some (js "Hi. {{LAT:1,LNG:2}}");
                                  r_groundingChunks := None |})
            env0 (send env0 (Some (js " Hello ")) w_idle)) = []
  /\ targetLocation
       (app (settle (fun _ => Resolved
                                {| r_text := Some (js "Hi. {{LAT:1,LNG:2}}");
                                   r_groundingChunks := None |})
                    env0 (send env0 (Some (js " Hello ")) w_idle)))
     = Some {| lat := of_Z 1; lng := of_Z 2 |}.
Proof.
  destruct (send_then_resolved
              (fun _ => Resolved {| r_text := Some (js "Hi. {{LAT:1,LNG:2}}");
                                    r_groundingChunks := None |})
              env0 env0 w_idle (js " Hello ")
              {| r_text := Some (js "Hi. {{LAT:1,LNG:2}}");
                 r_groundingChunks := None |}
              eq_refl eq_refl)
    as (_ & _ & Hq & _ & Ht).
  - discriminate.
  - reflexivity.
  - split; [exact Hq|]. rewrite Ht. vm_compute. reflexivity.
Defined.

End CallFacts.

(** ** Deleting a session *)

Section DeleteFacts.

Import App Lifecycle Spec Spec2 Sample.

Lemma loadSession_in_same (sessionId : jsstring) (st : State) :
  loadSession_in (sessions st) sessionId st = loadSession sessionId st.
Proof. reflexivity. Qed.

(** The first session that survives the filter is the one [find] gives
    for its id in the unfiltered list. *)
Lemma find_first_remaining (sessionId : jsstring) (l : list ChatSession.t)
      (first : ChatSession.t) (rest : list ChatSession.t) :
  filter (fun s => negb (str_eqb (ChatSession.id s) sessionId)) l
  = first :: rest ->
  find (fun s => str_eqb (ChatSession.id s) (ChatSession.id first)) l
  = Some first.
Proof.
  induction l as [|y l IH]; simpl; [discriminate|].
  destruct (str_eqb (ChatSession.id y) sessionId) eqn:E; simpl.
  - intros H.
    assert (Hf : negb (str_eqb (ChatSession.id first) sessionId) = true).
    { assert (Hin : In first (filter
                (fun s => negb (str_eqb (ChatSession.id s) sessionId)) l)).
      { rewrite H. left. reflexivity. }
      apply filter_In in Hin. tauto. }
    apply str_eqb_eq in E.
    destruct (str_eqb (ChatSession.id y) (ChatSession.id first)) eqn:E2.
    + apply str_eqb_eq in E2. rewrite <- E2, E, str_eqb_refl in Hf.
      discriminate.
    + exact (IH H).
  - intros H. injection H as -> _. rewrite str_eqb_refl. reflexivity.
Qed.

(** X9: a declined deletion changes nothing; a confirmed one removes
    the sessions with that id and no other, and when the deleted session
    is not the active one, the active session, its messages and the
    target stay as they are. *)
Theorem delete_removes_only_that_session
        (confirmed : bool) (uuid : jsstring) (now1 now2 : Z)
        (sessionId : jsstring) (st : State) :
  (confirmed = false ->
   deleteSession confirmed uuid now1 now2 sessionId st = st)
  /\ (confirmed = true ->
      (forall s,
          In s (sessions st) -> ChatSession.id s <> sessionId ->
          In s (sessions
                  (deleteSession confirmed uuid now1 now2 sessionId st)))
      /\ (uuid <> sessionId ->
          forall s,
            In s (sessions
                    (deleteSession confirmed uuid now1 now2 sessionId st)) ->
            ChatSession.id s <> sessionId)
      /\ (is_current sessionId st = false ->
          deleteSession confirmed uuid now1 now2 sessionId st
          = set_sessions
              (filter (fun s => negb (str_eqb (ChatSession.id s) sessionId))
                      (sessions st)) st)).
Proof.
  split; [intros ->; reflexivity|]. intros ->.
  set (remaining := filter
         (fun s => negb (str_eqb (ChatSession.id s) sessionId))
         (sessions st)).
  assert (Hrem : forall s, In s remaining <->
                           In s (sessions st)
                           /\ ChatSession.id s <> sessionId).
  { intros s. unfold remaining. rewrite filter_In, negb_true_iff.
    split; intros [H1 H2]; split; auto.
    - intros E. apply str_eqb_eq in E. congruence.
    - apply str_eqb_neq. exact H2. }
  assert (Hs : sessions (deleteSession true uuid now1 now2 sessionId st)
               = remaining
               \/ (remaining = []
                   /\ sessions (deleteSession true uuid now1 now2
                                              sessionId st)
                      = [newSession uuid now1 now2])).
  { unfold deleteSession. fold remaining.
    destruct (is_current sessionId st); [|left; reflexivity].
    destruct remaining as [|first rest] eqn:Er.
    - right. split; reflexivity.
    - left. unfold loadSession_in. destruct (find _ (sessions st));
        reflexivity. }
  split; [|split].
  - intros s Hin Hid. destruct Hs as [-> | [Hn ->]].
    + apply Hrem. auto.
    + exfalso. assert (Hr : In s remaining) by (apply Hrem; auto).
      rewrite Hn in Hr. exact Hr.
  - intros Hu s Hin. destruct Hs as [E | [_ E]]; rewrite E in Hin.
    + apply Hrem in Hin. tauto.
    + destruct Hin as [<- | []]. exact Hu.
  - intros Hc. unfold deleteSession. rewrite Hc. reflexivity.
Qed.

Lemma delete_removes_only_that_session_witness :
  sessions (deleteSession true (js "new") 1 2 (js "s1") st_mixed) = []
  /\ deleteSession false (js "new") 1 2 (js "s1") st_mixed = st_mixed.
Proof.
  destruct (delete_removes_only_that_session
              true (js "new") 1 2 (js "s1") st_mixed) as [_ H].
  destruct (H eq_refl) as (_ & _ & H3).
  split.
  - rewrite (H3 eq_refl). reflexivity.
  - apply (proj1 (delete_removes_only_that_session
                    false (js "new") 1 2 (js "s1") st_mixed) eq_refl).
Defined.

(** X10: after the active session is deleted there is an active session
    again: the first one that remains, with its messages, or, when none
    remains, a fresh one that holds the welcome message and is then the
    only session. *)
Theorem delete_active_keeps_one_active
        (uuid : jsstring) (now1 now2 : Z) (sessionId : jsstring)
        (st : State) :
  is_current sessionId st = true ->
  match filter (fun s => negb (str_eqb (ChatSession.id s) sessionId))
               (sessions st) with
  | first :: rest =>
      sessions (deleteSession true uuid now1 now2 sessionId st)
      = first :: rest
      /\ currentSessionId (deleteSession true uuid now1 now2 sessionId st)
         = Some (ChatSession.id first)
      /\ messages (deleteSession true uuid now1 now2 sessionId st)
         = ChatSession.messages first
  | [] =>
      sessions (deleteSession true uuid now1 now2 sessionId st)
      = [newSession uuid now1 now2]
      /\ currentSessionId (deleteSession true uuid now1 now2 sessionId st)
         = Some uuid
      /\ messages (deleteSession true uuid now1 now2 sessionId st)
         = ChatSession.messages (newSession uuid now1 now2)
      /\ targetLocation (deleteSession true uuid now1 now2 sessionId st)
         = None
  end.
Proof.
  intros Hc. unfold deleteSession. rewrite Hc.
  destruct (filter _ (sessions st)) as [|first rest] eqn:E.
  - repeat split.
  - unfold loadSession_in.
    rewrite (find_first_remaining sessionId (sessions st) first rest E).
    repeat split.
Qed.

Lemma delete_active_keeps_one_active_witness :
  sessions
    (deleteSession true (js "new") 1 2 (js "s1")
       (loadSession (js "s1") st_mixed))
  = [newSession (js "new") 1 2].
Proof.
  pose proof (delete_active_keeps_one_active
                (js "new") 1 2 (js "s1") (loadSession (js "s1") st_mixed)
                eq_refl) as H.
  cbv beta iota in H.
  change (filter _ (sessions (loadSession (js "s1") st_mixed)))
    with (@nil ChatSession.t) in H.
  exact (proj1 H).
Defined.

End DeleteFacts.

(** ** Start-up: there is always an active session *)

Section StartupFacts.

Import App Lifecycle Spec Spec2 Sample.

Lemma insert_recent_perm (x : ChatSession.t) (l : list ChatSession.t) :
  Permutation (x :: l) (insert_recent x l).
Proof.
  induction l as [|y l IH]; simpl; [apply Permutation_refl|].
  destruct (ChatSession.updatedAt x <? ChatSession.updatedAt y)%Z.
  - apply perm_trans with (y :: x :: l); [apply perm_swap|].
    apply perm_skip. exact IH.
  - apply Permutation_refl.
Qed.

Lemma sort_recent_perm (l : list ChatSession.t) :
  Permutation l (sort_recent l).
Proof.
  induction l as [|x l IH]; simpl; [apply perm_nil|].
  apply perm_trans with (x :: sort_recent l).
  - apply perm_skip. exact IH.
  - apply insert_recent_perm.
Qed.

Lemma insert_recent_sorted (x : ChatSession.t) (l : list ChatSession.t) :
  recent_first l -> recent_first (insert_recent x l).
Proof.
  induction l as [|y l IH]; simpl; intros H.
  - split; [constructor | exact I].
  - destruct H as [Hy Hl].
    destruct (ChatSession.updatedAt x <? ChatSession.updatedAt y)%Z eqn:E.
    + simpl. split; [|exact (IH Hl)].
      apply Z.ltb_lt in E.
      apply (Permutation_Forall (insert_recent_perm x l)).
      constructor; [lia | exact Hy].
    + apply Z.ltb_ge in E. simpl. split; [|split; assumption].
      constructor; [exact E|].
      apply Forall_forall. intros z Hz.
      rewrite Forall_forall in Hy. specialize (Hy z Hz). lia.
Qed.

Lemma sort_recent_sorted (l : list ChatSession.t) :
  recent_first (sort_recent l).
Proof.
  induction l as [|x l IH]; simpl; [exact I|].
  apply insert_recent_sorted. exact IH.
Qed.

Lemma createNewSession_active (uuid : jsstring) (now1 now2 : Z) (st : State) :
  currentSessionId (createNewSession uuid now1 now2 st) = Some uuid
  /\ sessions (createNewSession uuid now1 now2 st)
     = newSession uuid now1 now2 :: sessions st
  /\ messages (createNewSession uuid now1 now2 st)
     = ChatSession.messages (newSession uuid now1 now2)
  /\ targetLocation (createNewSession uuid now1 now2 st) = None.
Proof. repeat split. Qed.

(** X11: the effect run on mount leaves an active session whenever none
    was selected: a fresh one when there is no session at all, otherwise
    a session whose [updatedAt] no other exceeds, with the sessions now
    in order of decreasing [updatedAt]; with a session already selected
    it does nothing. *)
Theorem startup_selects_a_session (uuid : jsstring) (now1 now2 : Z)
        (st : State) :
  (no_current st = false -> ensureActiveSession uuid now1 now2 st = st)
  /\ (no_current st = true -> sessions st = [] ->
      ensureActiveSession uuid now1 now2 st
      = createNewSession uuid now1 now2 st)
  /\ (no_current st = true -> sessions st <> [] ->
      exists s,
        In s (sessions st)
        /\ (forall y, In y (sessions st) ->
                      (ChatSession.updatedAt y <= ChatSession.updatedAt s)%Z)
        /\ currentSessionId (ensureActiveSession uuid now1 now2 st)
           = Some (ChatSession.id s)
        /\ messages (ensureActiveSession uuid now1 now2 st)
           = ChatSession.messages s
        /\ Permutation (sessions st)
                       (sessions (ensureActiveSession uuid now1 now2 st))
        /\ recent_first (sessions (ensureActiveSession uuid now1 now2 st)))
  /\ (no_current st = true ->
      currentSessionId (ensureActiveSession uuid now1 now2 st) <> None
      /\ sessions (ensureActiveSession uuid now1 now2 st) <> []).
Proof.
  assert (Hload : no_current st = true -> sessions st <> [] ->
      exists s,
        In s (sessions st)
        /\ (forall y, In y (sessions st) ->
                      (ChatSession.updatedAt y <= ChatSession.updatedAt s)%Z)
        /\ currentSessionId (ensureActiveSession uuid now1 now2 st)
           = Some (ChatSession.id s)
        /\ messages (ensureActiveSession uuid now1 now2 st)
           = ChatSession.messages s
        /\ Permutation (sessions st)
                       (sessions (ensureActiveSession uuid now1 now2 st))
        /\ recent_first (sessions (ensureActiveSession uuid now1 now2 st))).
  { intros Hn Hs. unfold ensureActiveSession. rewrite Hn, !andb_true_r.
    destruct (sessions st) as [|x l] eqn:El; [congruence|].
    cbn [length Nat.eqb Nat.ltb Nat.leb].
    pose proof (sort_recent_perm (x :: l)) as P.
    pose proof (sort_recent_sorted (x :: l)) as S.
    destruct (sort_recent (x :: l)) as [|mostRecent sorted] eqn:Es.
    { apply Permutation_sym, Permutation_nil in P. discriminate. }
    exists mostRecent.
    unfold loadSession. cbn [sessions set_sessions find].
    rewrite str_eqb_refl. cbn.
    repeat split; auto.
    - apply (Permutation_in _ (Permutation_sym P)). left. reflexivity.
    - intros y Hy. apply (Permutation_in _ P) in Hy.
      destruct Hy as [<- | Hy]; [lia|].
      destruct S as [S _]. rewrite Forall_forall in S. exact (S y Hy).
    - destruct S as [S _]. exact S.
    - destruct S as [_ S]. exact S. }
  split; [|split; [|split; [exact Hload|]]].
  - intros Hn. unfold ensureActiveSession. rewrite Hn, !andb_false_r.
    reflexivity.
  - intros Hn Hs. unfold ensureActiveSession. rewrite Hn, Hs. reflexivity.
  - intros Hn.
    assert (C : sessions st = [] \/ sessions st <> []).
    { destruct (sessions st); [left; reflexivity | right; discriminate]. }
    destruct C as [El | El].
    + unfold ensureActiveSession. rewrite Hn, El. cbn. split; discriminate.
    + destruct (Hload Hn El) as (s & _ & _ & Hc & _ & P & _).
      rewrite Hc. split; [discriminate|].
      intros E. rewrite E in P.
      apply Permutation_sym, Permutation_nil in P. contradiction.
Qed.

Lemma startup_selects_a_session_witness :
  currentSessionId (ensureActiveSession (js "new") 1 2 st_mixed)
  = Some (js "s1")
  /\ currentSessionId (ensureActiveSession (js "new") 1 2 st0)
     = Some (js "new").
Proof.
  split.
  - destruct (proj1 (proj2 (proj2 (startup_selects_a_session
                                     (js "new") 1 2 st_mixed)))
                    eq_refl)
      as (s & Hin & _ & Hc & _).
    + discriminate.
    + rewrite Hc. destruct Hin as [<- | []]. reflexivity.
  - rewrite (proj1 (proj2 (startup_selects_a_session (js "new") 1 2 st0))
                   eq_refl eq_refl).
    reflexivity.
Defined.

End StartupFacts.

(** ** The effect that copies the messages into the active session *)

Section SyncFacts.

Import App Lifecycle Spec Spec2 Sample Sample2.

Lemma derived_title_length (t : jsstring) :
  (length (derived_title t) <= 33)%nat.
Proof.
  unfold derived_title, slice0. rewrite length_app.
  pose proof (length_firstn 30 t) as L.
  assert (E : length (js "...") = 3%nat) by reflexivity.
  destruct (30 <? length t)%nat; [rewrite E | cbn [length]]; lia.
Qed.

Lemma syncEffect_active (now : Z) (st : State) (cur : jsstring) :
  currentSessionId st = Some cur -> cur <> [] ->
  syncEffect now st = syncSessions now st.
Proof.
  intros Hc N. unfold syncEffect, no_current. rewrite Hc.
  destruct cur; [congruence | reflexivity].
Qed.

Lemma syncEffect_idle (now : Z) (st : State) :
  no_current st = true -> syncEffect now st = st.
Proof. intros H. unfold syncEffect. rewrite H. reflexivity. Qed.

(** The session rewritten by the effect, for the state [st] and the
    active id [cur]. *)
Lemma syncSessions_sessions (now : Z) (st : State) (cur : jsstring) :
  currentSessionId st = Some cur -> cur <> [] ->
  Forall2
    (fun s s' =>
       ChatSession.id s' = ChatSession.id s
       /\ (ChatSession.id s <> cur -> s' = s)
       /\ (ChatSession.id s = cur ->
           ChatSession.messages s' = messages st
           /\ ChatSession.updatedAt s' = now
           /\ (ChatSession.title s <> DEFAULT_TITLE ->
               ChatSession.title s' = ChatSession.title s)
           /\ (ChatSession.title s' = ChatSession.title s
               \/ exists m,
                    In m (messages st) /\ Message.role m = user
                    /\ ChatSession.title s'
                       = derived_title (Message.text m))))
    (sessions st) (sessions (syncSessions now st)).
Proof.
  intros Hc Hne. rewrite (syncSessions_active now st cur Hc Hne).
  cbn [sessions].
  induction (sessions st) as [|s l IH]; cbn [map]; constructor;
    [|exact IH].
  destruct (str_eqb (ChatSession.id s) cur) eqn:E.
  - cbn [ChatSession.id ChatSession.title ChatSession.messages
         ChatSession.updatedAt].
    split; [reflexivity|]. split.
    + intros N. apply str_eqb_eq in E. contradiction.
    + intros _. split; [reflexivity|]. split; [reflexivity|]. split.
      * intros N. rewrite (str_eqb_neq _ _ N). reflexivity.
      * destruct (str_eqb (ChatSession.title s) DEFAULT_TITLE
                  && (1 <? length (messages st))%nat); [|left; reflexivity].
        destruct (find _ (messages st)) as [m|] eqn:F; [|left; reflexivity].
        right. apply find_some in F. destruct F as [Hin Hr].
        exists m. split; [exact Hin|]. split.
        -- destruct (Message.role m); [reflexivity | discriminate].
        -- reflexivity.
  - split; [reflexivity|]. split; [reflexivity|].
    intros N. apply str_eqb_eq in N. congruence.
Qed.

(** X12: the effect rewrites the active session only.  Every other
    session is untouched and the ids and their order are kept; the
    active session receives the current messages and the time of the
    effect; its title either stays or becomes the first 30 characters
    of a user message, followed by an ellipsis when the text is longer,
    and a title other than the default one is never replaced.  Without
    an active id nothing changes. *)
Theorem sync_rewrites_active_session_only (now : Z) (st : State) :
  (no_current st = true -> syncEffect now st = st)
  /\ (forall cur,
         currentSessionId st = Some cur -> cur <> [] ->
         Forall2
           (fun s s' =>
              ChatSession.id s' = ChatSession.id s
              /\ (ChatSession.id s <> cur -> s' = s)
              /\ (ChatSession.id s = cur ->
                  ChatSession.messages s' = messages st
                  /\ ChatSession.updatedAt s' = now
                  /\ (ChatSession.title s <> DEFAULT_TITLE ->
                      ChatSession.title s' = ChatSession.title s)
                  /\ (ChatSession.title s' = ChatSession.title s
                      \/ exists m,
                           In m (messages st) /\ Message.role m = user
                           /\ ChatSession.title s'
                              = derived_title (Message.text m)
                           /\ (length (ChatSession.title s') <= 33)%nat)))
           (sessions st) (sessions (syncEffect now st)))
  /\ map ChatSession.id (sessions (syncEffect now st))
     = map ChatSession.id (sessions st)
  /\ messages (syncEffect now st) = messages st
  /\ currentSessionId (syncEffect now st) = currentSessionId st
  /\ targetLocation (syncEffect now st) = targetLocation st.
Proof.
  split; [|split; [|split]].
  - apply syncEffect_idle.
  - intros cur Hc Hne. rewrite (syncEffect_active now st cur Hc Hne).
    eapply Forall2_impl; [|exact (syncSessions_sessions now st cur Hc Hne)].
    intros s s' (Hid & Ho & Ha). split; [exact Hid|]. split; [exact Ho|].
    intros E. destruct (Ha E) as (Hm & Hu & Ht & Hd).
    repeat split; auto.
    destruct Hd as [Hd | (m & Hin & Hr & Hd)]; [left; exact Hd | right].
    exists m. repeat split; auto. rewrite Hd. apply derived_title_length.
  - unfold syncEffect. destruct (no_current st); [reflexivity|].
    destruct (currentSessionId st) as [[|c cur]|] eqn:Hc.
    + rewrite syncSessions_idle by auto. reflexivity.
    + assert (Hne : c :: cur <> []) by discriminate.
      pose proof (syncSessions_sessions now st (c :: cur) Hc Hne) as F.
      induction F as [|s s' l l' (Hid & _) _ IH]; simpl;
        [reflexivity|]. rewrite Hid, IH. reflexivity.
    + rewrite syncSessions_idle by auto. reflexivity.
  - unfold syncEffect. destruct (no_current st); [auto|].
    destruct (syncSessions_keeps now st) as (Hm & Ht & _ & _).
    repeat split; auto.
    apply syncSessions_current.
Qed.

(** What the effect makes of one session. *)
Lemma syncSessions_map (now : Z) (st : State) (cur : jsstring) :
  currentSessionId st = Some cur -> cur <> [] ->
  exists g,
    sessions (syncSessions now st) = map g (sessions st)
    /\ (forall st', currentSessionId st' = Some cur ->
                    messages st' = messages st ->
                    sessions (syncSessions now st') = map g (sessions st'))
    /\ forall s, g (g s) = g s.
Proof.
  intros Hc Hne.
  exists (fun session =>
            if str_eqb (ChatSession.id session) cur then
              let newTitle :=
                if str_eqb (ChatSession.title session) DEFAULT_TITLE
                   && (1 <? length (messages st))%nat
                then
                  match find (fun m => match Message.role m with
                                       | user => true
                                       | model => false
                                       end) (messages st) with
                  | Some firstUserMsg =>
                      slice0 30 (Message.text firstUserMsg)
                      ++ (if (30 <? length (Message.text firstUserMsg))%nat
                          then js "..." else [])
                  | None => ChatSession.title session
                  end
                else ChatSession.title session in
              {| ChatSession.id := ChatSession.id session;
                 ChatSession.title := newTitle;
                 ChatSession.messages := messages st;
                 ChatSession.updatedAt := now |}
            else session).
  split; [|split].
  - rewrite (syncSessions_active now st cur Hc Hne). reflexivity.
  - intros st' Hc' Hm. rewrite (syncSessions_active now st' cur Hc' Hne), Hm.
    reflexivity.
  - intros s. destruct (str_eqb (ChatSession.id s) cur) eqn:E;
      [|rewrite E; reflexivity].
    cbn [ChatSession.id ChatSession.title]. rewrite E.
    destruct (1 <? length (messages st))%nat; rewrite ?andb_false_r.
    + rewrite !andb_true_r.
      destruct (str_eqb (ChatSession.title s) DEFAULT_TITLE) eqn:T.
      * destruct (find _ (messages st)) as [m|].
        -- match goal with
           | |- context [if ?b then _ else _] => destruct b
           end; reflexivity.
        -- rewrite T. reflexivity.
      * rewrite T. reflexivity.
    + reflexivity.
Qed.

Lemma syncSessions_idem (now : Z) (st : State) :
  syncSessions now (syncSessions now st) = syncSessions now st.
Proof.
  destruct (currentSessionId st) as [[|c cur0]|] eqn:Hc;
    [rewrite (syncSessions_idle now st) by auto;
     apply syncSessions_idle; auto
    | | rewrite (syncSessions_idle now st) by auto;
        apply syncSessions_idle; auto].
  set (cur := c :: cur0) in *.
  assert (Hne : cur <> []) by discriminate.
  - destruct (syncSessions_map now st cur Hc Hne) as (g & Hg & Hg' & Hgg).
    assert (Hc1 : currentSessionId (syncSessions now st) = Some cur).
    { rewrite syncSessions_current. exact Hc. }
    assert (Hm1 : messages (syncSessions now st) = messages st).
    { exact (proj1 (syncSessions_keeps now st)). }
    pose proof (Hg' _ Hc1 Hm1) as H2. rewrite Hg in H2.
    rewrite map_map in H2.
    assert (H3 : sessions (syncSessions now (syncSessions now st))
                 = sessions (syncSessions now st)).
    { rewrite H2, Hg. apply map_ext. exact Hgg. }
    revert H3. generalize (syncSessions now st). intros st1.
    unfold syncSessions.
    destruct (currentSessionId st1) as [[|c1 cur1]|] eqn:C;
      try reflexivity.
    cbn [sessions]. intros ->. destruct st1.
    cbn [currentSessionId] in C. rewrite <- C. reflexivity.
Qed.

(** X13: the effect is idempotent: run again with the same clock
    reading, as when a render repeats it, it changes nothing more; in
    particular a title it has derived is not derived anew from another
    message. *)
Theorem sync_idempotent (now : Z) (st : State) :
  syncEffect now (syncEffect now st) = syncEffect now st.
Proof.
  unfold syncEffect. destruct (no_current st) eqn:N; [rewrite N; reflexivity|].
  assert (N' : no_current (syncSessions now st) = false).
  { unfold no_current in *. rewrite syncSessions_current. exact N. }
  rewrite N'. apply syncSessions_idem.
Qed.

End SyncFacts.

(** ** What the initializer can return *)

Section LoadedFacts.

Import Store Spec Spec2 Sample Sample2.

Local Abbreviation SL := (js "suggestedLocation").
Local Abbreviation RL := (js "relatedLocations").
Local Abbreviation MS := (js "messages").

Lemma mapM_Forall {A B} (f : A -> result B) (P : B -> Prop) (l : list A)
      (l' : list B) :
  (forall a b, f a = Ok b -> P b) ->
  mapM f l = Ok l' -> Forall P l' /\ length l' = length l.
Proof.
  intros Hf. revert l'. induction l as [|a l IH]; simpl; intros l' H.
  - injection H as <-. split; [constructor | reflexivity].
  - apply bind_ok in H. destruct H as (b & Hb & H).
    apply bind_ok in H. destruct H as (bs & Hbs & H).
    injection H as <-. destruct (IH _ Hbs) as (F & L). split.
    + constructor; [exact (Hf _ _ Hb) | exact F].
    + simpl. rewrite L. reflexivity.
Qed.

Lemma sanitize_messages_clean (ms ms' : list jsval) :
  mapM sanitize_message ms = Ok ms' ->
  Forall (fun m => clean_suggested m /\ clean_related m) ms'.
Proof.
  intros H.
  exact (proj1 (mapM_Forall sanitize_message _ ms ms'
                            sanitize_message_clean H)).
Qed.

Lemma sanitize_session_clean (s s' : jsval) :
  sanitize_session s = Ok s' -> session_clean s'.
Proof.
  intros H. apply sanitize_session_ok in H.
  destruct H as (l & l' & _ & Hmap & ->).
  exists l'. split.
  - unfold field. apply lookup_obj_set_same.
  - exact (sanitize_messages_clean _ _ Hmap).
Qed.

(** X14: whatever local storage holds and whatever the parser makes of
    it, every message of every session the initializer returns is
    clean: its [suggestedLocation] is [undefined] or passes the
    validator, and its [relatedLocations] is [undefined] or an array of
    locations that all pass it.  When something was logged, no session
    is returned. *)
Theorem loaded_sessions_are_clean
        (getItem : jsstring -> option jsstring)
        (JSON_parse : jsstring -> result jsval)
        (uuid : jsstring) (now : Z) :
  Forall session_clean (fst (load getItem JSON_parse uuid now))
  /\ (snd (load getItem JSON_parse uuid now) <> [] ->
      fst (load getItem JSON_parse uuid now) = []).
Proof.
  unfold load.
  destruct (load_try getItem JSON_parse uuid now) as [l|e] eqn:E;
    cbn [fst snd]; [|split; [constructor | reflexivity]].
  split; [|congruence].
  assert (M : forall r, migrate getItem JSON_parse uuid now = Ok r ->
                        Forall session_clean r).
  { unfold migrate. intros r.
    destruct (getItem HISTORY_KEY) as [[|c old]|];
      try (intros H; injection H as <-; constructor).
    destruct (JSON_parse (c :: old)) as [v|]; cbn [bind]; [|discriminate].
    destruct v as [| | | | |[|m ms]|];
      try (intros H; injection H as <-; constructor).
    intros H. apply bind_ok in H. destruct H as (ms' & Hm & H).
    injection H as <-. constructor; [|constructor].
    exists ms'. split; [reflexivity|].
    exact (sanitize_messages_clean _ _ Hm). }
  unfold load_try in E.
  destruct (getItem SESSIONS_KEY) as [[|c saved]|]; try exact (M _ E).
  destruct (JSON_parse (c :: saved)) as [v|]; cbn [bind] in E;
    [|discriminate].
  destruct v; try exact (M _ E).
  exact (proj1 (mapM_Forall sanitize_session _ _ _
                            sanitize_session_clean E)).
Qed.

Lemma message_ok_cases (m : jsval) :
  (message_ok m /\ exists m', sanitize_message m = Ok m')
  \/ (~ message_ok m /\ sanitize_message m = Throw TypeError).
Proof.
  unfold message_ok.
  destruct m as [| |b|n|s|l|o];
    try (left; split;
         [repeat split; try discriminate; left; reflexivity
         | eexists; reflexivity]).
  - right. split; [intros (_ & N & _); congruence | reflexivity].
  - right. split; [intros (N & _); congruence | reflexivity].
  - rewrite sanitize_message_obj. cbn [field].
    destruct (lookup RL o) as [| |b|n|s|l|o'] eqn:E; cbn [opt_filter bind];
      try (left; split;
           [repeat split; try discriminate; eauto
           | eexists; reflexivity]);
      right; (split; [|reflexivity]);
      intros (_ & _ & [H | [H | (l & H)]]); discriminate.
Qed.

Lemma mapM_cases {A B} (f : A -> result B) (P : A -> Prop) (e : exn)
      (l : list A) :
  (forall a, (P a /\ exists b, f a = Ok b) \/ (~ P a /\ f a = Throw e)) ->
  (Forall P l /\ exists l', mapM f l = Ok l')
  \/ (Exists (fun a => ~ P a) l /\ mapM f l = Throw e).
Proof.
  intros Hf. induction l as [|a l IH]; simpl.
  - left. split; [constructor | eauto].
  - destruct (Hf a) as [(Pa & b & Eb) | (Na & Ea)].
    + rewrite Eb. cbn [bind].
      destruct IH as [(F & l' & El) | (X & El)]; rewrite El; cbn [bind].
      * left. split; [constructor; assumption | eauto].
      * right. split; [apply Exists_cons_tl; exact X | reflexivity].
    + rewrite Ea. right. split; [apply Exists_cons_hd; exact Na|].
      reflexivity.
Qed.

Lemma session_ok_cases (s : jsval) :
  (session_ok s /\ exists s', sanitize_session s = Ok s')
  \/ (~ session_ok s /\ sanitize_session s = Throw TypeError).
Proof.
  assert (NA : forall v, (forall l, field v MS <> JArr l) ->
                         ~ session_ok v).
  { intros v H (ms & E & _). exact (H _ E). }
  unfold sanitize_session.
  destruct s as [| |b|n|t|l|o];
    try (right; split; [apply NA; intros; discriminate | reflexivity]).
  cbn [get field bind].
  destruct (lookup MS o) as [| |b|n|t|ms|o'] eqn:E;
    try (right; split;
         [apply NA; cbn [field]; rewrite E; intros; discriminate
         | reflexivity]).
  unfold arr_map.
  destruct (mapM_cases sanitize_message message_ok TypeError ms
                       message_ok_cases)
    as [(F & ms' & Em) | (X & Em)]; rewrite Em; cbn [bind].
  - left. split; [|eauto]. exists ms. cbn [field]. auto.
  - right. split; [|reflexivity].
    intros (ms0 & E0 & F). cbn [field] in E0. rewrite E in E0.
    injection E0 as <-.
    apply Exists_exists in X. destruct X as (m & Hin & Nm).
    rewrite Forall_forall in F. exact (Nm (F _ Hin)).
Qed.

(** X15: a stored collection is read all or nothing.  When every stored
    session has an array of messages, none of them [null], each with a
    [relatedLocations] that is absent, [null] or an array, the
    initializer returns as many sessions as were stored and logs
    nothing; as soon as one session fails this, no session at all is
    returned and a TypeError is logged. *)
Theorem stored_sessions_all_or_nothing
        (getItem : jsstring -> option jsstring)
        (JSON_parse : jsstring -> result jsval)
        (uuid : jsstring) (now : Z)
        (c : char) (saved : jsstring) (l : list jsval) :
  getItem SESSIONS_KEY = Some (c :: saved) ->
  JSON_parse (c :: saved) = Ok (JArr l) ->
  (Forall session_ok l ->
   exists l', load getItem JSON_parse uuid now = (l', [])
              /\ length l' = length l)
  /\ (Exists (fun s => ~ session_ok s) l ->
      load getItem JSON_parse uuid now = ([], [TypeError])).
Proof.
  intros Hget Hparse.
  assert (E : load_try getItem JSON_parse uuid now = sanitize_sessions l).
  { unfold load_try. rewrite Hget, Hparse. reflexivity. }
  unfold load. rewrite E. unfold sanitize_sessions.
  destruct (mapM_cases sanitize_session session_ok TypeError l
                       session_ok_cases)
    as [(F & l' & El) | (X & El)]; rewrite El.
  - split.
    + intros _. exists l'. split; [reflexivity|].
      exact (proj2 (mapM_Forall sanitize_session (fun _ => True) l l'
                                (fun _ _ _ => I) El)).
    + intros X. exfalso.
      apply Exists_exists in X. destruct X as (s & Hin & Ns).
      rewrite Forall_forall in F. exact (Ns (F _ Hin)).
  - split; [|reflexivity].
    intros F. exfalso.
    apply Exists_exists in X. destruct X as (s & Hin & Ns).
    rewrite Forall_forall in F. exact (Ns (F _ Hin)).
Qed.

(** One [null] among the messages of the second stored session, and the
    first session is lost with it. *)
Lemma stored_sessions_all_or_nothing_witness :
  load sessions_storage broken_parse (js "fresh-id") 42 = ([], [TypeError]).
Proof.
  apply (proj2 (stored_sessions_all_or_nothing
                  sessions_storage broken_parse (js "fresh-id") 42
                  (N_of_ascii "<") (js "sessions>") broken_sessions
                  eq_refl eq_refl)).
  apply Exists_cons_tl. apply Exists_cons_hd.
  intros (ms & E & F). vm_compute in E. injection E as <-.
  inversion F as [|m ms' (N & _) _]. apply N. reflexivity.
Defined.

End LoadedFacts.

(** ** The map component as the application uses it *)

Section MapFacts.

Import Leaflet MapComponent MapControls App Lifecycle Spec Spec2 Sample
       Sample2.

Lemma filter_idem {A} (p : A -> bool) (l : list A) :
  filter p (filter p l) = filter p l.
Proof.
  induction l as [|a l IH]; simpl; [reflexivity|].
  destruct (p a) eqn:E; simpl; [rewrite E, IH|]; auto.
Qed.

Lemma validRelated_again (related : option (list GeoLocation)) :
  validRelated (Some (validRelated related)) = validRelated related.
Proof.
  destruct related as [l|]; simpl; [apply filter_idem | reflexivity].
Qed.

Lemma viewport_MapUpdater (u t : option GeoLocation)
      (related : option (list GeoLocation)) :
  viewport u t related = MapUpdater (activeTarget u t) related.
Proof.
  unfold viewport, MapUpdater. rewrite validRelated_again. reflexivity.
Qed.



Lemma viewport_fly_target (u : option GeoLocation) (x : GeoLocation)
      (related : option (list GeoLocation)) :
  validRelated related = [] -> valid x = true ->
  viewport u (Some x) related = Ok (FlyTo (point x) 15%Z (of_Z 2)).
Proof.
  intros E V. rewrite viewport_MapUpdater.
  apply MapUpdater_fly; [exact E | | exact V].
  unfold activeTarget.
  change (isValidLocation (nullable_val (Some x))) with (valid x).
  rewrite V. reflexivity.
Qed.

Lemma click_same (latlng : GeoLocation) :
  isNaN (lat latlng) = false -> isNaN (lng latlng) = false ->
  click latlng = Some latlng.
Proof.
  intros Ha Hn. unfold click. rewrite Ha, Hn. destruct latlng. reflexivity.
Qed.

(** X17: a click on the map at coordinates that are numbers selects
    exactly that point as the target and leaves the conversation and
    its pins alone; the next request is then about that point, and a
    map without pins flies to it when its coordinates are finite.  A
    click with a NaN coordinate selects nothing. *)
Theorem click_selects_target (latlng : GeoLocation) (st : State) :
  (isNaN (lat latlng) = false -> isNaN (lng latlng) = false ->
   click latlng = Some latlng
   /\ targetLocation (handleManualLocationSelect latlng st) = Some latlng
   /\ messages (handleManualLocationSelect latlng st) = messages st
   /\ sessions (handleManualLocationSelect latlng st) = sessions st
   /\ pins (handleManualLocationSelect latlng st) = pins st
   /\ context_location (handleManualLocationSelect latlng st)
      = Some latlng
   /\ (valid latlng = true -> pins st = [] ->
       viewport (userLocation (handleManualLocationSelect latlng st))
                (targetLocation (handleManualLocationSelect latlng st))
                (relatedLocations (handleManualLocationSelect latlng st))
       = Ok (FlyTo (point latlng) 15%Z (of_Z 2))))
  /\ (isNaN (lat latlng) = true \/ isNaN (lng latlng) = true ->
      click latlng = None).
Proof.
  split.
  - intros Ha Hn. split; [exact (click_same latlng Ha Hn)|].
    repeat split.
    intros V P. apply viewport_fly_target; [exact P | exact V].
  - intros [H | H]; unfold click; rewrite H; cbn;
      rewrite ?andb_false_r; reflexivity.
Qed.

End MapFacts.

(** ** The controls of the map *)

Section ControlFacts.

Import Leaflet MapComponent MapControls App Lifecycle Spec Spec2 Sample
       Sample2.

(** X18: the recenter button.  With a valid user location the trigger
    counts up, nothing is alerted and [MapRecenter] flies to the user
    location at zoom 16 in 1.5 seconds; without one the trigger stays,
    the alert is shown, and [MapRecenter] does not move the map
    whatever the trigger is. *)
Theorem recenter_flies_or_alerts (n : nat) (u : option GeoLocation) :
  (forall y, u = Some y -> valid y = true ->
             handleRecenter n u = (n + 1, None)%nat
             /\ MapRecenter (fst (handleRecenter n u)) u
                = FlyTo (point y) 16%Z (of_decimal false 15 1))
  /\ (valid_target u = [] ->
      handleRecenter n u = (n, Some NO_USER_LOCATION)
      /\ forall k, MapRecenter k u = NoOp).
Proof.
  split.
  - intros y -> V. unfold handleRecenter, MapRecenter.
    change (isValidLocation (nullable_val (Some y))) with (valid y).
    rewrite V. cbn [fst]. split; [reflexivity|].
    replace (0 <? n + 1)%nat with true; [reflexivity|].
    symmetry. apply Nat.ltb_lt. lia.
  - intros T. unfold handleRecenter, MapRecenter, valid_target in *.
    destruct u as [y|].
    + change (isValidLocation (nullable_val (Some y))) with (valid y).
      destruct (valid y); [discriminate|].
      split; [reflexivity|]. intros k. rewrite andb_false_r. reflexivity.
    + split; reflexivity.
Qed.

Lemma quickExploreText_solid (t : option GeoLocation) (query : jsstring) :
  trim (quickExploreText t query) = quickExploreText t query.
Proof.
  unfold quickExploreText.
  destruct (truthy (nullable_val t)).
  - apply (trim_solid _ (N_of_ascii "F")
             (N_of_ascii "n")
             (js "ind " ++ query ++ js " "
                 ++ js "around the selected location"));
      try reflexivity.
    change (js "around the selected location")
      with (js "around the selected locatio" ++ [N_of_ascii "n"]).
    rewrite !app_assoc. apply last_char_app.
  - apply (trim_solid _ (N_of_ascii "F")
             (N_of_ascii "e")
             (js "ind " ++ query ++ js " " ++ js "around here"));
      try reflexivity.
    change (js "around here") with (js "around her" ++ [N_of_ascii "e"]).
    rewrite !app_assoc. apply last_char_app.
Qed.

(** X19: a quick-explore button always sends when no call is awaited:
    the text it builds is never blank and is sent as it is.  The chat is
    shown again on a small screen, and the wording agrees with the
    request: "around the selected location" goes with the target as the
    context location, "around here" with the user location. *)
Theorem quick_explore_is_sent (uuid : jsstring) (now : Z)
        (query : jsstring) (st : State) :
  isLoading st = false ->
  exists st' call,
    handleSendMessage_begin
      uuid now (Some (quickExploreText (targetLocation st) query)) st
    = Some (st', call)
    /\ messages st'
       = messages st
         ++ [user_message uuid now
                          (quickExploreText (targetLocation st) query)]
    /\ Message.text
         (user_message uuid now (quickExploreText (targetLocation st) query))
       = quickExploreText (targetLocation st) query
    /\ currentHistory call = messages st'
    /\ isLoading st' = true
    /\ isMobileMapOpen st' = false
    /\ (forall x, targetLocation st = Some x ->
                  quickExploreText (targetLocation st) query
                  = js "Find " ++ query
                       ++ js " around the selected location"
                  /\ contextLocation call = Some x)
    /\ (targetLocation st = None ->
        quickExploreText (targetLocation st) query
        = js "Find " ++ query ++ js " around here"
        /\ contextLocation call = userLocation st).
Proof.
  intros El. unfold handleSendMessage_begin. rewrite El, orb_false_r.
  rewrite quickExploreText_solid.
  assert (T : truthy (JStr (quickExploreText (targetLocation st) query))
              = true).
  { unfold quickExploreText. reflexivity. }
  rewrite T. cbn [negb].
  eexists. eexists. split; [reflexivity|].
  cbn [messages currentHistory contextLocation isLoading isMobileMapOpen].
  unfold user_message. rewrite quickExploreText_solid.
  repeat split.
  - destruct (isMobileMapOpen st); reflexivity.
  - rewrite H. reflexivity.
  - rewrite H. reflexivity.
  - rewrite H. reflexivity.
  - rewrite H. reflexivity.
Qed.

Lemma quick_explore_is_sent_witness :
  exists st' call,
    handleSendMessage_begin
      (js "id-9") 7 (Some (js "Find Cafes around here")) st_active
    = Some (st', call)
    /\ contextLocation call = Some tokyo
    /\ isMobileMapOpen st' = false.
Proof.
  destruct (quick_explore_is_sent (js "id-9") 7 (js "Cafes") st_active
                                  eq_refl)
    as (st' & call & E & _ & _ & _ & _ & M & _ & H).
  exists st', call. split; [exact E|]. split; [|exact M].
  exact (proj2 (H eq_refl)).
Defined.

End ControlFacts.

(** ** Pins, source cards and the saved collection *)

Section PinFacts.

Import Gemini MapComponent MapControls ChatBubble App Lifecycle Store Spec
       Spec2 Sample Sample2.

Lemma maps_cards_count (chunks : list GroundingChunk) :
  length (filter is_maps_card (map GroundingSourceCard chunks))
  = length (filter (fun c => match maps c with
                             | Some _ => true
                             | None => false
                             end) chunks).
Proof.
  induction chunks as [|c chunks IH]; simpl; [reflexivity|].
  unfold GroundingSourceCard at 1.
  destruct (maps c); simpl; [rewrite IH; reflexivity|].
  destruct (web c); simpl; exact IH.
Qed.

(** X20: every related location of a returned message comes from a
    citation that the bubble shows as a map place card linking to the
    URI the coordinates were read from, also when the citation carries
    a web source as well; so the bubble shows at least as many place
    cards as the map shows pins for that message. *)
Theorem pins_have_place_cards (uuid : jsstring) (now : Z)
        (response : Response) :
  (forall chunk l,
      In l (chunk_locations chunk) ->
      exists href title,
        GroundingSourceCard chunk = MapsCard (Some href) title
        /\ href <> []
        /\ exists m, str_match href MAPS_REGEX = Some m)
  /\ (forall ls,
         Message.relatedLocations (build_message uuid now response)
         = Some ls ->
         (length ls
          <= length (filter is_maps_card
                            (sources (build_message uuid now response))))%nat).
Proof.
  split.
  - intros chunk l Hin. unfold chunk_locations in Hin.
    unfold GroundingSourceCard.
    destruct (maps chunk) as [mp|]; [|contradiction].
    destruct (Source.uri mp) as [[|c u]|]; try contradiction.
    destruct (str_match (c :: u) MAPS_REGEX) as [m|] eqn:E;
      [|contradiction].
    exists (c :: u), (Source.title mp).
    split; [reflexivity|]. split; [discriminate | eauto].
  - intros ls H. rewrite build_message_related in H.
    unfold parse_related in H.
    assert (G : Message.groundingChunks (build_message uuid now response)
                = r_groundingChunks response).
    { unfold build_message. destruct (parse_tag _). reflexivity. }
    assert (R : Message.role (build_message uuid now response) = model).
    { unfold build_message. destruct (parse_tag _). reflexivity. }
    unfold sources. rewrite G, R.
    destruct (r_groundingChunks response) as [chunks|]; [|discriminate].
    pose proof (flat_map_length_le chunks) as L.
    destruct (flat_map chunk_locations chunks) as [|x xs] eqn:F;
      [discriminate|].
    injection H as <-.
    destruct chunks as [|c chunks]; [discriminate|].
    rewrite maps_cards_count. exact L.
Qed.

Lemma relatedLocations_snoc (st : State) (m : Message.t) :
  relatedLocations (set_messages (messages st ++ [m]) st)
  = match Message.role m with
    | model => Message.relatedLocations m
    | user => relatedLocations st
    end.
Proof.
  unfold relatedLocations. cbn [messages set_messages].
  rewrite rev_app_distr. cbn [rev Datatypes.app find].
  destruct (Message.role m); reflexivity.
Qed.

Lemma build_message_role (uuid : jsstring) (now : Z) (response : Response) :
  Message.role (build_message uuid now response) = model.
Proof. unfold build_message. destruct (parse_tag _). reflexivity. Qed.

(** X21: the pins of the map follow the latest answer.  Sending a
    message keeps the pins of the answer before it; the answer that
    arrives replaces them by its own related locations, clearing them
    when it has none; a failed call clears them, the apology having
    none. *)
Theorem pins_follow_latest_answer (uuid : jsstring) (now : Z) (st : State) :
  (forall textOverride st' call,
      handleSendMessage_begin uuid now textOverride st = Some (st', call) ->
      relatedLocations st' = relatedLocations st)
  /\ (forall u n response,
         relatedLocations
           (handleSendMessage_end uuid now
              (inl (build_message u n response)) st)
         = Message.relatedLocations (build_message u n response))
  /\ (forall e,
         relatedLocations (handleSendMessage_end uuid now (inr e) st)
         = None).
Proof.
  split; [|split].
  - intros o st' call H. unfold handleSendMessage_begin in H.
    destruct (negb _ || isLoading st); [discriminate|].
    injection H as <- _.
    unfold relatedLocations. cbn [messages].
    rewrite rev_app_distr. reflexivity.
  - intros u n response. unfold handleSendMessage_end.
    pose proof (relatedLocations_snoc st (build_message u n response))
      as H.
    rewrite build_message_role in H.
    destruct (present_and_valid _); exact H.
  - intros e. unfold handleSendMessage_end.
    exact (relatedLocations_snoc st (apology uuid now)).
Qed.

Lemma setItem_other (key value k : jsstring)
      (storage : jsstring -> option jsstring) :
  k <> key -> setItem key value storage k = storage k.
Proof. intros N. unfold setItem. rewrite (str_eqb_neq _ _ N). reflexivity. Qed.

(** X22: saving.  An empty collection is never written, so the record
    of an earlier run stays.  Saving touches no other key: the legacy
    record is neither rewritten nor removed.  Once a collection is
    saved, the next start reads it and nothing else: what the
    initializer returns is the sanitized saved collection, whatever the
    legacy record holds. *)
Theorem saved_sessions_take_precedence
        (JSON_stringify : list ChatSession.t -> jsstring)
        (JSON_parse : jsstring -> result jsval)
        (storage : jsstring -> option jsstring)
        (sessions : list ChatSession.t) (uuid : jsstring) (now : Z)
        (l : list jsval) :
  sessions <> [] ->
  JSON_stringify sessions <> [] ->
  JSON_parse (JSON_stringify sessions) = Ok (JArr l) ->
  saveSessions JSON_stringify [] storage = storage
  /\ (forall k, k <> SESSIONS_KEY ->
                saveSessions JSON_stringify sessions storage k = storage k)
  /\ saveSessions JSON_stringify sessions storage SESSIONS_KEY
     = Some (JSON_stringify sessions)
  /\ load (saveSessions JSON_stringify sessions storage) JSON_parse uuid now
     = match sanitize_sessions l with
       | Ok l' => (l', [])
       | Throw e => ([], [e])
       end.
Proof.
  intros Hs Hne Hp.
  assert (S : saveSessions JSON_stringify sessions storage
              = setItem SESSIONS_KEY (JSON_stringify sessions) storage).
  { unfold saveSessions. destruct sessions; [congruence | reflexivity]. }
  split; [reflexivity|]. rewrite S. split; [|split].
  - intros k N. apply setItem_other. exact N.
  - reflexivity.
  - unfold load, load_try.
    change (setItem SESSIONS_KEY (JSON_stringify sessions) storage
                    SESSIONS_KEY)
      with (Some (JSON_stringify sessions)).
    destruct (JSON_stringify sessions) as [|c saved]; [congruence|].
    rewrite Hp. cbn [bind].
    destruct (sanitize_sessions l); reflexivity.
Qed.

(** The legacy record of the sample storage is still there after a
    save, and the next start returns the saved session, not the
    migrated one. *)
Lemma saved_sessions_take_precedence_witness :
  saveSessions const_stringify [fresh_session] legacy_storage HISTORY_KEY
  = Some legacy_blob
  /\ load (saveSessions const_stringify [fresh_session] legacy_storage)
          stored_parse (js "fresh-id") 42
     = (stored_sanitized, []).
Proof.
  destruct (saved_sessions_take_precedence
              const_stringify stored_parse legacy_storage [fresh_session]
              (js "fresh-id") 42 stored_sessions)
    as (_ & K & _ & L).
  - discriminate.
  - discriminate.
  - reflexivity.
  - split.
    + rewrite K; [reflexivity | discriminate].
    + rewrite L. vm_compute. reflexivity.
Defined.

End PinFacts.

(** ** A conversation from its creation on *)

Section HistoryFacts.

Import Gemini App Lifecycle Spec Spec2 Sample Sample2.

(** The session at the head of the collection, when it is the active
    one, after the effect. *)
Lemma syncSessions_head (now : Z) (st : State) (s : ChatSession.t)
      (rest : list ChatSession.t) :
  currentSessionId st = Some (ChatSession.id s) ->
  ChatSession.id s <> [] ->
  sessions st = s :: rest ->
  exists rest',
    sessions (syncSessions now st)
    = {| ChatSession.id := ChatSession.id s;
         ChatSession.title :=
           if str_eqb (ChatSession.title s) DEFAULT_TITLE
              && (1 <? length (messages st))%nat
           then
             match find (fun m => match Message.role m with
                                  | user => true
                                  | model => false
                                  end) (messages st) with
             | Some firstUserMsg => derived_title (Message.text firstUserMsg)
             | None => ChatSession.title s
             end
           else ChatSession.title s;
         ChatSession.messages := messages st;
         ChatSession.updatedAt := now |} :: rest'
    /\ length rest' = length rest.
Proof.
  intros Hc Hne Hs. rewrite (syncSessions_active now st _ Hc Hne).
  cbn [sessions].
  rewrite Hs. cbn [map]. rewrite str_eqb_refl.
  eexists. split; [reflexivity|]. apply length_map.
Qed.

(** X23: the first message sent in a new chat names it.  After "new
    chat", the effect that follows it, and a send that is accepted, the
    new session is first in the collection and active, holds the
    welcome message followed by the trimmed user message, and its title
    is no longer the default one but the first 30 characters of that
    message, with an ellipsis when it is longer; the earlier sessions
    follow it, as many as before.  The id is not empty, as one drawn
    by [crypto.randomUUID] is: the effect skips an empty one. *)
Theorem first_message_names_new_chat
        (uuid : jsstring) (n1 n2 n3 : Z) (env : Env) (text : jsstring)
        (w : World) :
  uuid <> [] ->
  isLoading (app w) = false ->
  trim text <> [] ->
  exists s rest,
    sessions (app (run_events [ECreate uuid n1 n2; ESync n3;
                               ESend env (Some text)] w))
    = s :: rest
    /\ length rest = length (sessions (app w))
    /\ ChatSession.id s = uuid
    /\ currentSessionId
         (app (run_events [ECreate uuid n1 n2; ESync n3;
                           ESend env (Some text)] w))
       = Some uuid
    /\ ChatSession.title s = derived_title (trim text)
    /\ ChatSession.messages s
       = ChatSession.messages (newSession uuid n1 n2)
         ++ [user_message (App.uuid env) (App.now env) text]
    /\ messages (app (run_events [ECreate uuid n1 n2; ESync n3;
                                  ESend env (Some text)] w))
       = ChatSession.messages s.
Proof.
  intros Hne El Ht.
  change (run_events [ECreate uuid n1 n2; ESync n3; ESend env (Some text)] w)
    with (send env (Some text)
               (on_app (syncSessions n3)
                       (on_app (createNewSession uuid n1 n2) w))).
  unfold on_app. cbn [App.app inflight console].
  set (st1 := createNewSession uuid n1 n2 (App.app w)).
  destruct (syncSessions_head n3 st1 (newSession uuid n1 n2)
                              (sessions (App.app w)) eq_refl Hne eq_refl)
    as (rest2 & E2 & L2).
  change (messages st1) with (ChatSession.messages (newSession uuid n1 n2))
    in E2.
  change (1 <? length (ChatSession.messages (newSession uuid n1 n2)))%nat
    with false in E2.
  rewrite andb_false_r in E2.
  set (st2 := syncSessions n3 st1) in *.
  assert (M2 : messages st2 = ChatSession.messages (newSession uuid n1 n2)).
  { exact (proj1 (syncSessions_keeps n3 st1)). }
  assert (L : isLoading st2 = false).
  { unfold st2.
    rewrite (proj2 (proj2 (proj2 (syncSessions_keeps n3 st1)))).
    exact El. }
  assert (C2 : currentSessionId st2 = Some uuid).
  { unfold st2. rewrite syncSessions_current. reflexivity. }
  unfold send, handleSendMessage_begin. cbn [App.app].
  rewrite L, orb_false_r.
  destruct (trim text) as [|c r] eqn:E; [congruence|].
  cbn [truthy negb App.app].
  match goal with
  | |- context [syncSessions ?t ?st] => set (st3 := st)
  end.
  destruct (syncSessions_head (effect_now env) st3
              {| ChatSession.id := uuid;
                 ChatSession.title := DEFAULT_TITLE;
                 ChatSession.messages :=
                   ChatSession.messages (newSession uuid n1 n2);
                 ChatSession.updatedAt := n3 |}
              rest2 C2 Hne E2)
    as (rest3 & E3 & L3).
  cbn [ChatSession.id ChatSession.title] in E3.
  rewrite str_eqb_refl in E3.
  change (messages st3)
    with (messages st2
          ++ [{| Message.id := App.uuid env;
                 Message.role := user;
                 Message.text := c :: r;
                 Message.groundingChunks := None;
                 Message.timestamp := App.now env;
                 Message.suggestedLocation := None;
                 Message.relatedLocations := None |}]) in E3.
  rewrite M2 in E3.
  change (ChatSession.messages (newSession uuid n1 n2))
    with [{| Message.id := js "welcome";
             Message.role := model;
             Message.text := WELCOME;
             Message.groundingChunks := None;
             Message.timestamp := n1;
             Message.suggestedLocation := None;
             Message.relatedLocations := None |}] in E3 at 1 2.
  cbn [Datatypes.app length Nat.ltb Nat.leb andb find Message.role
       Message.text] in E3.
  eexists. exists rest3. split; [exact E3|].
  split; [rewrite L3; exact L2|].
  split; [reflexivity|].
  split.
  { rewrite syncSessions_current. exact C2. }
  split; [reflexivity|].
  split.
  { cbn [ChatSession.messages]. unfold user_message. rewrite E.
    reflexivity. }
  rewrite (proj1 (syncSessions_keeps (effect_now env) st3)).
  cbn [ChatSession.messages]. unfold st3. cbn [messages].
  rewrite M2. reflexivity.
Qed.

Lemma first_message_names_new_chat_witness :
  exists s rest,
    sessions (app (run_events
                     [ECreate (js "s9") 1 2; ESync 3;
                      ESend env0
                            (Some (js "  Where can I find a good bakery in the old town? "))]
                     w_idle))
    = s :: rest
    /\ ChatSession.title s = js "Where can I find a good bakery..."
    /\ ChatSession.id s = js "s9".
Proof.
  destruct (first_message_names_new_chat
              (js "s9") 1 2 3 env0
              (js "  Where can I find a good bakery in the old town? ")
              w_idle)
    as (s & rest & E & _ & I & _ & T & _).
  - discriminate.
  - reflexivity.
  - vm_compute. discriminate.
  - exists s, rest. split; [exact E|]. split; [|exact I].
    rewrite T. vm_compute. reflexivity.
Defined.

Lemma Forall2_in_r {A B} (R : A -> B -> Prop) (l : list A) (l' : list B)
      (b : B) :
  Forall2 R l l' -> In b l' -> exists a, In a l /\ R a b.
Proof.
  induction 1 as [|x y l l' Hxy _ IH]; simpl; [contradiction|].
  intros [<- | H]; [eauto|].
  destruct (IH H) as (a & Ha & Ra). eauto.
Qed.

Lemma Forall2_in_l {A B} (R : A -> B -> Prop) (l : list A) (l' : list B)
      (a : A) :
  Forall2 R l l' -> In a l -> exists b, In b l' /\ R a b.
Proof.
  induction 1 as [|x y l l' Hxy _ IH]; simpl; [contradiction|].
  intros [<- | H]; [eauto|].
  destruct (IH H) as (b & Hb & Rb). eauto.
Qed.

(** X24: the conversation in use rises to the top of the history.  When
    the effect runs with a clock reading later than every stored
    [updatedAt], the side bar, which lists the sessions by decreasing
    [updatedAt], shows every session once and the active one first,
    with the current messages. *)
Theorem active_session_listed_first (now : Z) (st : State)
        (cur : jsstring) :
  currentSessionId st = Some cur ->
  cur <> [] ->
  (exists s, In s (sessions st) /\ ChatSession.id s = cur) ->
  (forall s, In s (sessions st) -> (ChatSession.updatedAt s < now)%Z) ->
  Permutation (sessions (syncEffect now st))
              (sort_recent (sessions (syncEffect now st)))
  /\ recent_first (sort_recent (sessions (syncEffect now st)))
  /\ exists s rest,
       sort_recent (sessions (syncEffect now st)) = s :: rest
       /\ ChatSession.id s = cur
       /\ ChatSession.messages s = messages st
       /\ ChatSession.updatedAt s = now.
Proof.
  intros Hc Hne (a & Ha & Ida) Hold.
  split; [apply sort_recent_perm|]. split; [apply sort_recent_sorted|].
  rewrite (syncEffect_active now st cur Hc Hne).
  pose proof (syncSessions_sessions now st cur Hc Hne) as F.
  pose proof (sort_recent_perm (sessions (syncSessions now st))) as P.
  pose proof (sort_recent_sorted (sessions (syncSessions now st))) as S.
  destruct (Forall2_in_l _ _ _ a F Ha) as (a' & Ha' & _ & _ & Ra).
  destruct (Ra Ida) as (_ & Ua & _).
  destruct (sort_recent (sessions (syncSessions now st))) as [|h rest].
  - apply Permutation_sym, Permutation_nil in P. rewrite P in Ha'.
    contradiction.
  - exists h, rest. split; [reflexivity|].
    assert (Hh : In h (sessions (syncSessions now st))).
    { apply (Permutation_in h (Permutation_sym P)). left. reflexivity. }
    destruct (Forall2_in_r _ _ _ h F Hh) as (h0 & Hh0 & Idh & Oh & Rh).
    destruct (list_eq_dec N.eq_dec (ChatSession.id h0) cur) as [E | N].
    + destruct (Rh E) as (Mh & Uh & _). rewrite Idh. auto.
    + exfalso. rewrite (Oh N) in *.
      pose proof (Hold _ Hh0) as Lt.
      pose proof (Permutation_in a' P Ha') as [<- | Hin].
      * lia.
      * destruct S as (S & _). rewrite Forall_forall in S.
        pose proof (S _ Hin). lia.
Qed.

Lemma active_session_listed_first_witness :
  exists s rest,
    sort_recent (sessions (syncEffect 9 st_active)) = s :: rest
    /\ ChatSession.id s = js "s7"
    /\ ChatSession.title s = js "Where can I find a good bakery..."
    /\ rest = [mixed_session].
Proof.
  destruct (active_session_listed_first 9 st_active (js "s7"))
    as (P & _ & s & rest & E & I & _).
  - reflexivity.
  - discriminate.
  - exists fresh_session. split; [right; left|]; reflexivity.
  - intros s [<- | [<- | []]]; reflexivity.
  - exists s, rest. split; [exact E|]. split; [exact I|].
    pose proof E as E2. vm_compute in E2. injection E2 as <- <-.
    split; [vm_compute|]; reflexivity.
Defined.

End HistoryFacts.

(** ** The properties above on the sample data *)

Section Instances.

Import Gemini Leaflet MapComponent MapControls ChatBubble App Lifecycle
       Store Spec Spec2 Sample Sample2.

(** The tag of the reply gives a location without NaN. *)
Lemma message_locations_not_nan_witness :
  exists l,
    Message.suggestedLocation
      (build_message (js "id") 0
                     {| r_text := Some (js "Hi. {{LAT:1,LNG:2}}");
                        r_groundingChunks := Some [tokyo_place] |})
    = Some l
    /\ isNaN (lat l) = false /\ isNaN (lng l) = false.
Proof.
  eexists. split; [vm_compute; reflexivity|].
  apply (proj1 (message_locations_not_nan
                  (js "id") 0
                  {| r_text := Some (js "Hi. {{LAT:1,LNG:2}}");
                     r_groundingChunks := Some [tokyo_place] |})).
  vm_compute. reflexivity.
Defined.

(** A reply that is only a tag gives an empty text. *)
Lemma empty_text_iff_only_tag_witness :
  Message.text
    (build_message (js "id") 0
                   {| r_text := Some (js " {{LAT:1,LNG:2}} ");
                      r_groundingChunks := None |})
  = [].
Proof.
  apply (proj2 (empty_text_iff_only_tag
                  (js "id") 0
                  {| r_text := Some (js " {{LAT:1,LNG:2}} ");
                     r_groundingChunks := None |})).
  exists (js " "), (js "{{LAT:1,LNG:2}}"), (js " ").
  split; [reflexivity|]. split; [|split; reflexivity].
  exists (js "1"), (js "2"), []. repeat split; auto.
  - exists [], (js "1"), [], []. repeat split; auto. discriminate.
  - exists [], (js "2"), [], []. repeat split; auto. discriminate.
Defined.

(** The effect on the sample state: the other session is untouched and
    the active one holds the messages. *)
Lemma sync_rewrites_active_session_only_witness :
  exists s',
    sessions (syncEffect 9 st_active) = [mixed_session; s']
    /\ ChatSession.id s' = js "s7"
    /\ ChatSession.messages s' = messages st_active
    /\ ChatSession.updatedAt s' = 9%Z.
Proof.
  pose proof (proj1 (proj2 (sync_rewrites_active_session_only 9 st_active))
                    (js "s7") eq_refl) as F.
  assert (N : js "s7" <> []) by discriminate.
  specialize (F N).
  change (sessions st_active) with [mixed_session; fresh_session] in F.
  inversion F as [|a b l1 l2 _ F2 E1 E2]. subst.
  inversion F2 as [|a2 b2 l3 l4 (Hid & _ & Ha) _ E3 E4]. subst.
  destruct (Ha eq_refl) as (Hm & Hu & _).
  eexists. split; [vm_compute; reflexivity|].
  split; [exact Hid|]. split; [exact Hm | exact Hu].
Defined.

(** A corrupted store yields no session. *)
Lemma loaded_sessions_are_clean_witness :
  fst (load sessions_storage broken_parse (js "fresh-id") 42) = [].
Proof.
  apply (proj2 (loaded_sessions_are_clean
                  sessions_storage broken_parse (js "fresh-id") 42)).
  vm_compute. discriminate.
Defined.


Lemma click_selects_target_witness :
  click paris = Some paris
  /\ context_location (handleManualLocationSelect paris st0) = Some paris.
Proof.
  destruct (proj1 (click_selects_target paris st0))
    as (C & _ & _ & _ & _ & X & _);
    [vm_compute; reflexivity | vm_compute; reflexivity |].
  split; assumption.
Defined.

Lemma recenter_flies_or_alerts_witness :
  handleRecenter 0 (Some tokyo) = (1, None)%nat
  /\ handleRecenter 0 None = (0%nat, Some NO_USER_LOCATION).
Proof.
  split.
  - apply (proj1 (recenter_flies_or_alerts 0 (Some tokyo)) tokyo);
      reflexivity.
  - apply (proj2 (recenter_flies_or_alerts 0 None)). reflexivity.
Defined.

Lemma pins_have_place_cards_witness :
  (length [tokyo]
   <= length
        (filter is_maps_card
                (sources
                   (build_message
                      (js "id") 0
                      {| r_text := Some (js "Tokyo.");
                         r_groundingChunks :=
                           Some [web_page; tokyo_place] |}))))%nat.
Proof.
  apply (proj2 (pins_have_place_cards
                  (js "id") 0
                  {| r_text := Some (js "Tokyo.");
                     r_groundingChunks := Some [web_page; tokyo_place] |})
               [tokyo]).
  vm_compute. reflexivity.
Defined.

(** The pin of the first answer is still shown after the next send. *)
Lemma pins_follow_latest_answer_witness :
  exists st' call,
    handleSendMessage_begin (js "id") 0 (Some (js "Hi")) st0
    = Some (st', call)
    /\ relatedLocations st' = Some [tokyo].
Proof.
  pose proof (proj1 (pins_follow_latest_answer (js "id") 0 st0)
                    (Some (js "Hi"))) as H.
  destruct (handleSendMessage_begin (js "id") 0 (Some (js "Hi")) st0)
    as [[st' call]|] eqn:E; [|vm_compute in E; discriminate].
  exists st', call. split; [reflexivity|].
  rewrite (H st' call eq_refl). reflexivity.
Defined.

End Instances.
